(** * expirable-cache: the v1 [loadingCacheImpl] engine and the v2 adapter

    A shallow embedding of [loadingCacheImpl] (package [cache], the file that
    declares [NewLoadingCache]) and of the generic adapter [cacheImpl[K, V]]
    that wraps the v3 engine.

    Conventions of the embedding.
    - Go's [int] is a 64-bit two's complement integer: a [Z] with the
      wrap-around written out ([GoInt.wrap]).
    - [time.Time] is an instant on the monotonic clock and [time.Duration] a
      number of nanoseconds: both are [Z];  [t.Add d] is [t + d] and
      [t.After u] is [u < t].
    - every call of [time.Now()] is an input of the operation that makes it:
      [Set] reads the clock twice (once for [now], once inside
      [removeOldestIfExpired]), [DeleteExpired] once per loop iteration.
    - [container/list] is a list of element handles, front first; a handle is
      what Go calls a [*list.Element]; the [cacheItem] an element points to
      lives in a heap indexed by handles, so that the index and the list
      share the items they refer to.
    - a failing pointer dereference (a panic in Go) is [None].
    - [float64] is IEEE-754 binary64 as the Standard Library specifies it
      ([SpecFloat], precision 53, maximal exponent 1024), and [fmt.Sprintf]
      is interpreted for the verbs [String] uses. *)

From Stdlib Require Import ZArith String Ascii List Lia.
From Stdlib Require SpecFloat DecimalString DecimalFacts DecimalPos DecimalN DecimalZ.
From stdpp Require Import base option list gmap strings fin_maps.

Open Scope Z_scope.

(** ** Go's [int] *)

Module GoInt.

Definition min_int : Z := - 2 ^ 63.
Definition max_int : Z := 2 ^ 63 - 1.

Definition wrap (z : Z) : Z := (z + 2 ^ 63) mod 2 ^ 64 - 2 ^ 63.

Definition in_range (z : Z) : Prop := min_int <= z <= max_int.

Definition add (a b : Z) : Z := wrap (a + b).
Definition sub (a b : Z) : Z := wrap (a - b).
Definition incr (a : Z) : Z := wrap (a + 1).

(** [len(x)] of a container holding [n] things. *)
Definition len (n : nat) : Z := wrap (Z.of_nat n).

End GoInt.

(** Two integers have the same [wrap] exactly when they differ by a multiple
    of [2 ^ 64]. *)
Definition congr (a b : Z) : Prop := ∃ q, a = b + q * 2 ^ 64.

(** ** [time] *)

Definition Time : Type := Z.
Definition Duration : Type := Z.

Definition Time_Add (t : Time) (d : Duration) : Time := t + d.
Definition Time_After (t u : Time) : bool := bool_decide (u < t).

Definition Nanosecond : Duration := 1.
Definition Hour : Duration := 3600 * 1000000000.

(** [const noEvictionTTL = time.Hour * 24 * 365 * 10] *)
Definition noEvictionTTL : Duration := Hour * 24 * 365 * 10.

(** ** [container/list] *)

Definition Element : Type := nat.

Module GoList.

Definition PushFront (e : Element) (l : list Element) : list Element := e :: l.

Definition Remove (e : Element) (l : list Element) : list Element :=
  filter (λ x, x ≠ e) l.

Definition MoveToFront (e : Element) (l : list Element) : list Element :=
  if bool_decide (e ∈ l) then e :: filter (λ x, x ≠ e) l else l.

Definition Back (l : list Element) : option Element := last l.

Definition Len (l : list Element) : Z := GoInt.len (length l).

(** [list.New()] and [l.Init()]: the empty list. *)
Definition New : list Element := [].
Definition Init : list Element := [].

End GoList.

(** ** [Stats] *)

Record Stats : Type := mkStats {
  Hits : Z;
  Misses : Z;
  Added : Z;
  Evicted : Z
}.

(** ** [float64] *)

Module Float64.

Definition prec : Z := 53.
Definition emax : Z := 1024.

(** [float64(n)] for an [int] [n]: the nearest binary64, ties to even. *)
Definition of_int (n : Z) : SpecFloat.spec_float :=
  SpecFloat.binary_normalize prec emax n 0 false.

Definition mul (x y : SpecFloat.spec_float) : SpecFloat.spec_float :=
  SpecFloat.SFmul prec emax x y.

Definition div (x y : SpecFloat.spec_float) : SpecFloat.spec_float :=
  SpecFloat.SFdiv prec emax x y.

(** The integer nearest to [10 * m * 2 ^ e], ties to even. *)
Definition tenths (m : positive) (e : Z) : Z :=
  if bool_decide (0 <= e) then 10 * Z.pos m * 2 ^ e
  else
    let d := 2 ^ (- e) in
    let q := (10 * Z.pos m) / d in
    let r := (10 * Z.pos m) mod d in
    match 2 * r ?= d with
    | Lt => q
    | Gt => q + 1
    | Eq => if Z.even q then q else q + 1
    end.

End Float64.

(** ** [fmt] *)

Module Fmt.

Open Scope string_scope.

(** A decimal integer, as [%d] and [%v] print an [int]. *)
Definition itoa (n : Z) : string := DecimalString.NilZero.string_of_int (Z.to_int n).

(** [%+v] on a [Stats]: the fields with their names. *)
Definition plus_v_Stats (s : Stats) : string :=
  "{Hits:" ++ itoa (Hits s) ++ " Misses:" ++ itoa (Misses s) ++
  " Added:" ++ itoa (Added s) ++ " Evicted:" ++ itoa (Evicted s) ++ "}".

(** [%0.1f] on a [float64]: the decimal with one digit after the point
    nearest to the value, ties to even; no width is given, so the flag [0]
    pads nothing. *)
Definition f1 (x : SpecFloat.spec_float) : string :=
  match x with
  | SpecFloat.S754_nan => "NaN"
  | SpecFloat.S754_infinity false => "+Inf"
  | SpecFloat.S754_infinity true => "-Inf"
  | SpecFloat.S754_zero false => "0.0"
  | SpecFloat.S754_zero true => "-0.0"
  | SpecFloat.S754_finite sign m e =>
      let n := Float64.tenths m e in
      (if sign then "-" else "") ++ itoa (n / 10) ++ "." ++ itoa (n mod 10)
  end.

(** The operands [String] passes to [Sprintf]. *)
Inductive arg : Type :=
| Int (n : Z)
| StatsValue (s : Stats)
| Float (x : SpecFloat.spec_float).

(** [Sprintf] for the verbs [%d], [%+v], [%0.1f] and [%%]; [None] for any
    other verb and for an operand that does not fit its verb. *)
Fixpoint Sprintf (format : string) (a : list arg) : option string :=
  match format with
  | "" => match a with [] => Some "" | _ => None end
  | String "%" (String "%" rest) => String "%" <$> Sprintf rest a
  | String "%" (String "d" rest) =>
      match a with
      | Int n :: a' => append (itoa n) <$> Sprintf rest a'
      | _ => None
      end
  | String "%" (String "+" (String "v" rest)) =>
      match a with
      | StatsValue s :: a' => append (plus_v_Stats s) <$> Sprintf rest a'
      | _ => None
      end
  | String "%" (String "0" (String "." (String "1" (String "f" rest)))) =>
      match a with
      | Float x :: a' => append (f1 x) <$> Sprintf rest a'
      | _ => None
      end
  | String "%" _ => None
  | String ch rest => String ch <$> Sprintf rest a
  end.

Close Scope string_scope.

End Fmt.

(** ** The cache *)

Section LoadingCache.

(** The dynamic values an [interface{}] holds; [None] is [nil]. *)
Context {V : Type}.

Definition iface : Type := option V.

Record cacheItem : Type := mkItem {
  expiresAt : Time;
  key : string;
  value : iface
}.

(** [onEvicted] is [true] when a callback is configured; the calls made to it
    are recorded, oldest first, in [notified]. [heap] holds the [cacheItem]
    of every element ever allocated and [next] is the next free handle. *)
Record loadingCacheImpl : Type := mkCache {
  ttl : Duration;
  maxKeys : Z;
  isLRU : bool;
  onEvicted : bool;
  stat : Stats;
  items : gmap string Element;
  evictList : list Element;
  heap : gmap Element cacheItem;
  next : Element;
  notified : list (string * iface)
}.

Definition with_stat (s : Stats) (c : loadingCacheImpl) : loadingCacheImpl :=
  mkCache (ttl c) (maxKeys c) (isLRU c) (onEvicted c) s
          (items c) (evictList c) (heap c) (next c) (notified c).

Definition with_items (m : gmap string Element) (c : loadingCacheImpl) : loadingCacheImpl :=
  mkCache (ttl c) (maxKeys c) (isLRU c) (onEvicted c) (stat c)
          m (evictList c) (heap c) (next c) (notified c).

Definition with_evictList (l : list Element) (c : loadingCacheImpl) : loadingCacheImpl :=
  mkCache (ttl c) (maxKeys c) (isLRU c) (onEvicted c) (stat c)
          (items c) l (heap c) (next c) (notified c).

Definition with_heap (h : gmap Element cacheItem) (c : loadingCacheImpl) : loadingCacheImpl :=
  mkCache (ttl c) (maxKeys c) (isLRU c) (onEvicted c) (stat c)
          (items c) (evictList c) h (next c) (notified c).

Definition with_next (n : Element) (c : loadingCacheImpl) : loadingCacheImpl :=
  mkCache (ttl c) (maxKeys c) (isLRU c) (onEvicted c) (stat c)
          (items c) (evictList c) (heap c) n (notified c).

Definition with_notified (n : list (string * iface)) (c : loadingCacheImpl) : loadingCacheImpl :=
  mkCache (ttl c) (maxKeys c) (isLRU c) (onEvicted c) (stat c)
          (items c) (evictList c) (heap c) (next c) n.

Definition incHits (s : Stats) : Stats :=
  mkStats (GoInt.incr (Hits s)) (Misses s) (Added s) (Evicted s).
Definition incMisses (s : Stats) : Stats :=
  mkStats (Hits s) (GoInt.incr (Misses s)) (Added s) (Evicted s).
Definition incAdded (s : Stats) : Stats :=
  mkStats (Hits s) (Misses s) (GoInt.incr (Added s)) (Evicted s).
Definition incEvicted (s : Stats) : Stats :=
  mkStats (Hits s) (Misses s) (Added s) (GoInt.incr (Evicted s)).

Definition with_ttl (d : Duration) (c : loadingCacheImpl) : loadingCacheImpl :=
  mkCache d (maxKeys c) (isLRU c) (onEvicted c) (stat c)
          (items c) (evictList c) (heap c) (next c) (notified c).

Definition with_maxKeys (n : Z) (c : loadingCacheImpl) : loadingCacheImpl :=
  mkCache (ttl c) n (isLRU c) (onEvicted c) (stat c)
          (items c) (evictList c) (heap c) (next c) (notified c).

Definition with_isLRU (b : bool) (c : loadingCacheImpl) : loadingCacheImpl :=
  mkCache (ttl c) (maxKeys c) b (onEvicted c) (stat c)
          (items c) (evictList c) (heap c) (next c) (notified c).

Definition with_onEvicted (b : bool) (c : loadingCacheImpl) : loadingCacheImpl :=
  mkCache (ttl c) (maxKeys c) (isLRU c) b (stat c)
          (items c) (evictList c) (heap c) (next c) (notified c).

(** [type Option func(lc *loadingCacheImpl) error]: an option returns the
    message of its error, or the cache it has set up. *)
Definition Option : Type := loadingCacheImpl → string + loadingCacheImpl.

(** Modelled from the spec: the option [TTL(d)], declared in a file of the
    package that is not among the sources: the TTL of the entries. *)
Definition TTL (d : Duration) : Option := λ lc, inr (with_ttl d lc).

(** Modelled from the spec: the option [MaxKeys(n)], declared in a file of
    the package that is not among the sources: the upper bound on the number
    of entries, 0 for none. *)
Definition MaxKeys (n : Z) : Option := λ lc, inr (with_maxKeys n lc).

(** Modelled from the spec: the option [LRU()], declared in a file of the
    package that is not among the sources: switches from LRC to LRU. *)
Definition LRU : Option := λ lc, inr (with_isLRU true lc).

(** Modelled from the spec: the option [OnEvicted(fn)], declared in a file
    of the package that is not among the sources: the hook called on every
    removal. *)
Definition OnEvicted : Option := λ lc, inr (with_onEvicted true lc).

(** The loop of [NewLoadingCache] over its options. *)
Fixpoint apply_options (options : list Option) (res : loadingCacheImpl)
  : string + loadingCacheImpl :=
  match options with
  | [] => inr res
  | opt :: options' =>
      match opt res with
      | inl err => inl ("failed to set cache option: " ++ err)%string
      | inr res' => apply_options options' res'
      end
  end.

(** [NewLoadingCache]: unlimited and LRC, with the TTL of 10 years, unless
    the options say otherwise. *)
Definition NewLoadingCache (options : list Option) : string + loadingCacheImpl :=
  apply_options options
    (mkCache noEvictionTTL 0 false false (mkStats 0 0 0 0) ∅ GoList.New ∅ 0%nat []).

(** The options the package offers; the argument of [MaxKeys] is an [int]. *)
Inductive package_option : Option → Prop :=
| option_TTL d : package_option (TTL d)
| option_MaxKeys n : GoInt.in_range n → package_option (MaxKeys n)
| option_LRU : package_option LRU
| option_OnEvicted : package_option OnEvicted.

(** [c.onEvicted(k, v)] when [c.onEvicted != nil]. *)
Definition notify (k : string) (v : iface) (c : loadingCacheImpl) : loadingCacheImpl :=
  if onEvicted c then with_notified (notified c ++ [(k, v)]) c else c.

(** [removeElement]: unlink [e], drop its key from the index, count the
    eviction, call the callback. *)
Definition removeElement (e : Element) (c : loadingCacheImpl) : option loadingCacheImpl :=
  kv ← heap c !! e;
  Some (notify (key kv) (value kv)
         (with_stat (incEvicted (stat c))
           (with_items (delete (key kv) (items c))
             (with_evictList (GoList.Remove e (evictList c)) c)))).

Definition removeOldest (c : loadingCacheImpl) : option loadingCacheImpl :=
  match GoList.Back (evictList c) with
  | Some ent => removeElement ent c
  | None => Some c
  end.

(** [now] is the clock reading made inside the function. *)
Definition removeOldestIfExpired (now : Time) (c : loadingCacheImpl) : option loadingCacheImpl :=
  match GoList.Back (evictList c) with
  | Some ent =>
      it ← heap c !! ent;
      if Time_After now (expiresAt it) then removeElement ent c else Some c
  | None => Some c
  end.

(** [Set]: [now] is the reading bound to the variable [now], [now'] the later
    reading made by [removeOldestIfExpired]. *)
Definition Set_ (now now' : Time) (k : string) (v : iface) (c : loadingCacheImpl)
  : option loadingCacheImpl :=
  match items c !! k with
  | Some ent =>
      it ← heap c !! ent;
      Some (with_heap (<[ent := mkItem (Time_Add now (ttl c)) (key it) v]> (heap c))
             (with_evictList (GoList.MoveToFront ent (evictList c)) c))
  | None =>
      let ent := next c in
      let c1 :=
        with_stat (incAdded (stat c))
          (with_items (<[k := ent]> (items c))
            (with_evictList (GoList.PushFront ent (evictList c))
              (with_heap (<[ent := mkItem (Time_Add now (ttl c)) k v]> (heap c))
                (with_next (S ent) c)))) in
      c2 ← (if bool_decide (ttl c1 ≠ noEvictionTTL)
            then removeOldestIfExpired now' c1 else Some c1);
      if bool_decide (0 < maxKeys c2) && bool_decide (maxKeys c2 < GoInt.len (size (items c2)))
      then removeOldest c2
      else Some c2
  end.

Definition Get (now : Time) (k : string) (c : loadingCacheImpl)
  : option (iface * bool * loadingCacheImpl) :=
  match items c !! k with
  | Some ent =>
      it ← heap c !! ent;
      if Time_After now (expiresAt it)
      then Some (None, false, with_stat (incMisses (stat c)) c)
      else
        let c1 := if isLRU c
                  then with_evictList (GoList.MoveToFront ent (evictList c)) c
                  else c in
        Some (value it, true, with_stat (incHits (stat c1)) c1)
  | None => Some (None, false, with_stat (incMisses (stat c)) c)
  end.

Definition Peek (now : Time) (k : string) (c : loadingCacheImpl) : option (iface * bool) :=
  match items c !! k with
  | Some ent =>
      it ← heap c !! ent;
      if Time_After now (expiresAt it) then Some (None, false) else Some (value it, true)
  | None => Some (None, false)
  end.

(** [keys]: walk from [Back()] along [Prev()]. *)
Definition keys (c : loadingCacheImpl) : option (list string) :=
  mapM (λ ent, key <$> heap c !! ent) (reverse (evictList c)).

Definition Keys (c : loadingCacheImpl) : option (list string) := keys c.

Definition Len (c : loadingCacheImpl) : Z := GoList.Len (evictList c).

Definition Stat (c : loadingCacheImpl) : Stats := stat c.

Definition Invalidate (k : string) (c : loadingCacheImpl) : option loadingCacheImpl :=
  match items c !! k with
  | Some ent => removeElement ent c
  | None => Some c
  end.

Definition RemoveOldest (c : loadingCacheImpl) : option loadingCacheImpl := removeOldest c.

(** [String]: [None] when [Sprintf] is given something it does not render. *)
Definition String_ (c : loadingCacheImpl) : option string :=
  let stats := Stat c in
  let size := Len c in
  Fmt.Sprintf "Size: %d, Stats: %+v (%0.1f%%)"
    [Fmt.Int size; Fmt.StatsValue stats;
     Fmt.Float (Float64.div (Float64.mul (Float64.of_int 100) (Float64.of_int (Hits stats)))
                            (Float64.of_int (GoInt.add (Hits stats) (Misses stats))))].

(** A [for ... range] loop whose body may panic. *)
Fixpoint range_loop {A S : Type} (body : A → S → option S) (l : list A) (s : S) : option S :=
  match l with
  | [] => Some s
  | x :: l' => s' ← body x s; range_loop body l' s'
  end.

(** The order in which [range] visits a map is not specified: [order] is the
    order taken, a permutation of the keys the map holds when the loop
    starts. An entry deleted before the loop reaches it is not produced. *)
Definition range_order (c : loadingCacheImpl) (order : list string) : Prop :=
  order ≡ₚ (map_to_list (items c)).*1.

Definition default_order (c : loadingCacheImpl) : list string :=
  (map_to_list (items c)).*1.

Definition InvalidateFn_body (fn : string → bool) (k : string) (c : loadingCacheImpl)
  : option loadingCacheImpl :=
  match items c !! k with
  | Some ent => if fn k then removeElement ent c else Some c
  | None => Some c
  end.

Definition InvalidateFn_in (order : list string) (fn : string → bool) (c : loadingCacheImpl)
  : option loadingCacheImpl :=
  range_loop (InvalidateFn_body fn) order c.

Definition InvalidateFn (fn : string → bool) (c : loadingCacheImpl) : option loadingCacheImpl :=
  InvalidateFn_in (default_order c) fn c.

(** [DeleteExpired]: [tick i] is the clock reading of the [i]-th iteration. *)
Fixpoint DeleteExpired_loop (tick : nat → Time) (i : nat) (ks : list string)
  (c : loadingCacheImpl) : option loadingCacheImpl :=
  match ks with
  | [] => Some c
  | k :: ks' =>
      ent ← items c !! k;
      it ← heap c !! ent;
      if Time_After (tick i) (expiresAt it)
      then c' ← removeElement ent c; DeleteExpired_loop tick (S i) ks' c'
      else if negb (isLRU c) then Some c
      else DeleteExpired_loop tick (S i) ks' c
  end.

Definition DeleteExpired (tick : nat → Time) (c : loadingCacheImpl) : option loadingCacheImpl :=
  ks ← keys c;
  DeleteExpired_loop tick 0 ks c.

Definition Purge_body (k : string) (c : loadingCacheImpl) : option loadingCacheImpl :=
  match items c !! k with
  | Some v =>
      let c1 := with_stat (incEvicted (stat c)) (with_items (delete k (items c)) c) in
      if onEvicted c1
      then it ← heap c1 !! v; Some (notify k (value it) c1)
      else Some c1
  | None => Some c
  end.

Definition Purge_in (order : list string) (c : loadingCacheImpl) : option loadingCacheImpl :=
  c' ← range_loop Purge_body order c;
  Some (with_evictList GoList.Init c').

Definition Purge (c : loadingCacheImpl) : option loadingCacheImpl :=
  Purge_in (default_order c) c.

(** The entry the index holds for [k], through the element it points to. *)
Definition entry (c : loadingCacheImpl) (k : string) : option cacheItem :=
  ent ← items c !! k; heap c !! ent.

(** ** Reachable states

    [reachable t c]: [c] is reached from a cache made by [NewLoadingCache]
    with options of the package by the public operations, every clock
    reading so far being at most [t]. The clock is Go's monotonic clock:
    readings never decrease. *)
Inductive reachable : Time → loadingCacheImpl → Prop :=
| reach_New t options c :
    Forall package_option options →
    NewLoadingCache options = inr c →
    reachable t c
| reach_wait t t' c :
    reachable t c → t <= t' → reachable t' c
| reach_Set t now now' k v c c' :
    reachable t c → t <= now → now <= now' →
    Set_ now now' k v c = Some c' → reachable now' c'
| reach_Get t now k r c c' :
    reachable t c → t <= now →
    Get now k c = Some (r, c') → reachable now c'
| reach_Invalidate t k c c' :
    reachable t c → Invalidate k c = Some c' → reachable t c'
| reach_InvalidateFn t order fn c c' :
    reachable t c → range_order c order →
    InvalidateFn_in order fn c = Some c' → reachable t c'
| reach_RemoveOldest t c c' :
    reachable t c → RemoveOldest c = Some c' → reachable t c'
| reach_DeleteExpired t t' tick c c' :
    reachable t c → (∀ i, t <= tick i <= t') →
    DeleteExpired tick c = Some c' → reachable t' c'
| reach_Purge t order c c' :
    reachable t c → range_order c order →
    Purge_in order c = Some c' → reachable t c'.

(** ** The representation invariant (I1, I2, I3 of the data model) *)
Record wf (c : loadingCacheImpl) : Prop := mkWf {
  wf_nodup : NoDup (evictList c);
  wf_size : size (items c) = length (evictList c);
  wf_items : ∀ k e, items c !! k = Some e →
    e ∈ evictList c ∧ ∃ it, heap c !! e = Some it ∧ key it = k;
  wf_list : ∀ e, e ∈ evictList c →
    ∃ it, heap c !! e = Some it ∧ items c !! key it = Some e;
  wf_next : ∀ e, e ∈ evictList c → (e < next c)%nat
}.

(** I4: from the front to the back of the list the expiry instants do not
    increase, and none is later than [bound]. *)
Fixpoint expiry_sorted (h : gmap Element cacheItem) (bound : Time) (l : list Element) : Prop :=
  match l with
  | [] => True
  | e :: l' => ∃ it, h !! e = Some it ∧ expiresAt it <= bound ∧ expiry_sorted h (expiresAt it) l'
  end.

End LoadingCache.

Arguments iface : clear implicits.
Arguments cacheItem : clear implicits.
Arguments loadingCacheImpl : clear implicits.


Section Relations.

Context {V : Type}.

(** No operation changes the configuration. *)
Definition same_config (c c' : loadingCacheImpl V) : Prop :=
  ttl c' = ttl c ∧ maxKeys c' = maxKeys c ∧ isLRU c' = isLRU c ∧ onEvicted c' = onEvicted c.

(** [c'] is [c] after the eviction primitive removed the element [e], which
    holds [it]. *)
Definition removes (e : Element) (it : cacheItem V) (c c' : loadingCacheImpl V) : Prop :=
  heap c !! e = Some it ∧
  evictList c' = filter (λ x, x ≠ e) (evictList c) ∧
  items c' = delete (key it) (items c) ∧
  heap c' = heap c ∧
  stat c' = incEvicted (stat c) ∧
  next c' = next c ∧
  same_config c c'.

(** [c'] is [c], or [c] after the removal of its back element. *)
Definition trimmed (c c' : loadingCacheImpl V) : Prop :=
  c' = c ∨ ∃ l e it, evictList c = l ++ [e] ∧ removes e it c c' ∧ evictList c' = l.

(** The state of [Set] on a key the index does not hold, after
    [c.stat.Added++] and before the two removals. *)
Definition pushed (now : Time) (k : string) (v : iface V) (c : loadingCacheImpl V)
  : loadingCacheImpl V :=
  with_stat (incAdded (stat c))
    (with_items (<[k := next c]> (items c))
      (with_evictList (GoList.PushFront (next c) (evictList c))
        (with_heap (<[next c := mkItem (Time_Add now (ttl c)) k v]> (heap c))
          (with_next (S (next c)) c)))).

(** The state of [Set] on a key the index holds in the element [ent], whose
    item is [it]. *)
Definition refreshed (now : Time) (ent : Element) (it : cacheItem V) (v : iface V)
  (c : loadingCacheImpl V) : loadingCacheImpl V :=
  with_heap (<[ent := mkItem (Time_Add now (ttl c)) (key it) v]> (heap c))
    (with_evictList (GoList.MoveToFront ent (evictList c)) c).

End Relations.

(** The hit percentage in the words of the specification:
    [100 * h / (h + m)] in IEEE binary64, with one decimal digit. *)
Definition hit_pct (h m : Z) : string :=
  Fmt.f1 (Float64.div (Float64.mul (Float64.of_int 100) (Float64.of_int h))
                      (Float64.of_int (GoInt.add h m))).

Section Invariant.

Context {V : Type}.

(** What every reachable state satisfies, [t] being the latest clock reading:
    the representation invariant, the counter equation I5 modulo [2 ^ 64]
    (the counters are Go [int]s), and I4 in LRC mode. *)
Record inv (t : Time) (c : loadingCacheImpl V) : Prop := mkInv {
  inv_wf : wf c;
  inv_maxKeys : GoInt.in_range (maxKeys c);
  inv_count :
    congr (Added (stat c) - Evicted (stat c)) (Z.of_nat (length (evictList c)));
  inv_sorted :
    isLRU c = false → expiry_sorted (heap c) (t + ttl c) (evictList c)
}.

(** The size cap, between operations. *)
Definition capped (c : loadingCacheImpl V) : Prop :=
  0 < maxKeys c < GoInt.max_int → Z.of_nat (length (evictList c)) <= maxKeys c.

End Invariant.

(** * The v2 adapter [cacheImpl[K, V]] over the v3 engine *)

Module V3.

Section Engine.

Context {K V : Type} `{EqDecision K}.

(** [*new(V)], the zero value of [V]. *)
Context (zero : V).

(** Modelled from the spec: the entry record of the v3 engine, whose file
    (v3/cache.go) is not among the sources: key, value and absolute
    expiration instant. *)
Record Entry : Type := mkEntry {
  entry_key : K;
  entry_value : V;
  expires_at : Time
}.

(** Modelled from the spec: the part of the v3 engine that [Get] and [Peek]
    use, which is missing from the sources: the recency sequence, front
    first, in which the index finds the entry of a key, the eviction mode and
    the hit and miss counters. *)
Record Cache : Type := mkCache {
  lru : bool;
  sequence : list Entry;
  hits : Z;
  misses : Z
}.

(** Modelled from the spec: the index of the v3 engine, missing from the
    sources: keys are unique, a key leads to its entry in the sequence. *)
Definition index (s : Cache) (k : K) : option Entry :=
  snd <$> list_find (λ en, entry_key en = k) (sequence s).

(** Modelled from the spec: expiry in the v3 engine, missing from the
    sources: an entry is expired at [t] iff [t > expires_at]. *)
Definition expired (t : Time) (en : Entry) : bool := bool_decide (expires_at en < t).

(** Modelled from the spec: [Get] of the v3 engine, missing from the sources.
    An absent key gives the default value with [false] and a miss; an
    expired-but-present key gives the stored value with [false] and a miss
    (the newest public surface); a live key gives the stored value with
    [true] and a hit, and in LRU mode its node moves to the front. *)
Definition Get (now : Time) (k : K) (s : Cache) : V * bool * Cache :=
  match index s k with
  | None => (zero, false, mkCache (lru s) (sequence s) (hits s) (GoInt.incr (misses s)))
  | Some en =>
      if expired now en
      then (entry_value en, false,
            mkCache (lru s) (sequence s) (hits s) (GoInt.incr (misses s)))
      else (entry_value en, true,
            mkCache (lru s)
              (if lru s
               then en :: filter (λ x, entry_key x ≠ k) (sequence s)
               else sequence s)
              (GoInt.incr (hits s)) (misses s))
  end.

(** Modelled from the spec: [Peek] of the v3 engine, missing from the
    sources: the result of [Get], without touching recency or statistics. *)
Definition Peek (now : Time) (k : K) (s : Cache) : V * bool * Cache :=
  match index s k with
  | None => (zero, false, s)
  | Some en => (entry_value en, negb (expired now en), s)
  end.

End Engine.

Arguments Entry : clear implicits.
Arguments Cache : clear implicits.

End V3.

Module V2.

Section Adapter.

Context {K V : Type}.

(** [*new(V)], the zero value of [V]. *)
Context (zero : V).

(** The methods of the interface [v3.Cache[K, V]] that [cacheImpl] overrides;
    [S] is the state of the engine behind the interface and the [Time] is
    the clock reading of the call. *)
Class Cache (S : Type) : Type := mkCache {
  Cache_Get : Time → K → S → V * bool * S;
  Cache_Peek : Time → K → S → V * bool * S
}.

Context {S : Type} `{!Cache S}.

(** [cacheImpl.Get] *)
Definition Get (now : Time) (key : K) (c : S) : V * bool * S :=
  let '(value, ok, c') := Cache_Get now key c in
  if negb ok then
    let def := zero in
    (def, ok, c')
  else (value, ok, c').

(** [cacheImpl.Peek] *)
Definition Peek (now : Time) (key : K) (c : S) : V * bool * S :=
  let '(value, ok, c') := Cache_Peek now key c in
  if negb ok then
    let def := zero in
    (def, ok, c')
  else (value, ok, c').

End Adapter.

(** The v3 engine behind the interface. *)
Definition v3 {K V : Type} `{EqDecision K} (zero : V) : @Cache K V (V3.Cache K V) :=
  @mkCache K V (V3.Cache K V) (V3.Get zero) (V3.Peek zero).

End V2.

(** * Concrete runs *)

Open Scope string_scope.

Definition ex_made (r : string + loadingCacheImpl string) : loadingCacheImpl string :=
  match r with
  | inr c => c
  | inl _ => mkCache 0 0 false false (mkStats 0 0 0 0) ∅ [] ∅ 0%nat []
  end.

(** A cache with a TTL of 10ns and at most two keys, in LRC mode. *)
Definition ex_new : loadingCacheImpl string :=
  ex_made (NewLoadingCache [TTL 10; MaxKeys 2; OnEvicted]).

Definition ex_or (o : option (loadingCacheImpl string)) : loadingCacheImpl string :=
  default ex_new o.

(** [Set("a", "A")] at instant 0, then [Set("b", "B")] at instant 1. *)
Definition ex_a : loadingCacheImpl string := ex_or (Set_ 0 0 "a" (Some "A") ex_new).
Definition ex_ab : loadingCacheImpl string := ex_or (Set_ 1 1 "b" (Some "B") ex_a).

(** The same two writes on a cache in LRU mode. *)
Definition ex_lru_new : loadingCacheImpl string :=
  ex_made (NewLoadingCache [LRU; MaxKeys 2; TTL 10]).
Definition ex_lru_a : loadingCacheImpl string := ex_or (Set_ 0 0 "a" (Some "A") ex_lru_new).
Definition ex_lru_ab : loadingCacheImpl string := ex_or (Set_ 1 1 "b" (Some "B") ex_lru_a).

(** A cache with a TTL of one nanosecond and no size cap. *)
Definition ex_tiny : loadingCacheImpl string :=
  ex_made (NewLoadingCache [TTL Nanosecond]).

(** The item [Set("a", "A")] at instant 0 stores in [ex_new]. *)
Definition ex_item_a : cacheItem string := mkItem 10 "a" (Some "A").

(** The item [Set("b", "B")] at instant 1 stores in [ex_a]. *)
Definition ex_item_b : cacheItem string := mkItem 11 "b" (Some "B").

(** The run of the package's example: [MaxKeys(3)], a TTL of 10ms; "key1" is
    set at instant 0 and read at 1ms; it is read again after 11 more
    milliseconds, when it has expired; then "key2" is set. *)
Definition Millisecond : Duration := 1000000.

Definition ex_doc_new : loadingCacheImpl string :=
  ex_made (NewLoadingCache [MaxKeys 3; TTL (10 * Millisecond)]).

Definition ex_doc : option (loadingCacheImpl string) :=
  c1 ← Set_ 0 0 "key1" (Some "val1") ex_doc_new;
  '(_, c2) ← Get (1 * Millisecond) "key1" c1;
  '(_, c3) ← Get (12 * Millisecond) "key1" c2;
  Set_ (12 * Millisecond) (12 * Millisecond) "key2" (Some "val2") c3.

(** The first two scenarios of the specification: [MaxKeys(2)],
    [Set a; Set b; Get a; Set c], in LRC and in LRU mode. *)
Definition ex_scenario (options : list Option) : option (list string) :=
  c1 ← Set_ 0 0 "a" (Some "A") (ex_made (NewLoadingCache options));
  c2 ← Set_ 1 1 "b" (Some "B") c1;
  '(_, c3) ← Get 2 "a" c2;
  c4 ← Set_ 3 3 "c" (Some "C") c3;
  Keys c4.

(** The run of the package's test of [RemoveOldest]: LRU, [MaxKeys(2)]. *)
Definition ex_RemoveOldest : option (list string * list string * list string) :=
  c1 ← Set_ 0 0 "key1" (Some "val1") (ex_made (NewLoadingCache [LRU; MaxKeys 2]));
  '(_, c2) ← Get 1 "key1" c1;
  ks1 ← Keys c2;
  c3 ← Set_ 2 2 "key2" (Some "val2") c2;
  ks2 ← Keys c3;
  c4 ← RemoveOldest c3;
  ks3 ← Keys c4;
  Some (ks1, ks2, ks3).

(** A cache made without options: the default TTL, no size cap. *)
Definition ex_unlimited : loadingCacheImpl string := ex_made (NewLoadingCache []).

(** An option that fails, as in the package's test of a bad option. *)
Definition ex_bad_option : Option (V := string) := λ _, inl "mock err".

(** The state the package's example ends in. *)
Definition ex_doc_state : loadingCacheImpl string := default ex_doc_new ex_doc.

(** The same state after one more miss: one hit in three reads. *)
Definition ex_doc_missed : loadingCacheImpl string :=
  match Get (13 * Millisecond) "key3" ex_doc_state with
  | Some (_, c) => c
  | None => ex_doc_state
  end.

(** The default cache after [Set("a", "A")] and [Get("a")]: one hit. *)
Definition ex_read : loadingCacheImpl string :=
  match Set_ 0 0 "a" (Some "A") ex_unlimited ≫= Get 0 "a" with
  | Some (_, c) => c
  | None => ex_unlimited
  end.

(** [ex_read] after [n] calls of [Get] on a key it does not hold. *)
Definition ex_missed (n : nat) : loadingCacheImpl string :=
  with_stat (mkStats 1 (GoInt.wrap (Z.of_nat n)) 1 0) ex_read.

(** [ex_read] after [2 ^ 64 - 1] such calls: [Misses] has wrapped around to
    [-1], and [Hits + Misses] is [0]. *)
Definition ex_wrapped : loadingCacheImpl string :=
  with_stat (mkStats 1 (-1) 1 0) ex_read.

(** A v3 engine that holds one entry, which expires at instant 5. *)
Definition ex_v3 : V3.Cache string string :=
  V3.mkCache false [V3.mkEntry "k" "stored" 5] 0 0.

Close Scope string_scope.

(** * Further definitions used to state properties of the engine *)

Section MoreRelations.

Context {V : Type}.

(** The key [k] is in the index of [c] and its entry has not expired at
    [now]. *)
Definition live_key (now : Time) (c : loadingCacheImpl V) (k : string) : bool :=
  match entry c k with
  | Some it => negb (Time_After now (expiresAt it))
  | None => false
  end.

(** The item of the list element [e] in the heap [h] has not expired at
    [now]. *)
Definition live_elem (now : Time) (h : gmap Element (cacheItem V)) (e : Element) : bool :=
  match h !! e with
  | Some it => negb (Time_After now (expiresAt it))
  | None => false
  end.

(** The callback has been called once per eviction (the counter is a Go
    [int]); without a callback no call is recorded. *)
Definition callback_inv (c : loadingCacheImpl V) : Prop :=
  GoInt.in_range (Evicted (stat c)) ∧
  if onEvicted c
  then congr (Evicted (stat c)) (Z.of_nat (length (notified c)))
  else notified c = [].

(** No entry of the index expires later than [ttl] after the instant [t]. *)
Definition expiry_bounded (t : Time) (c : loadingCacheImpl V) : Prop :=
  ∀ k it, entry c k = Some it → expiresAt it <= t + ttl c.

(** What [DeleteExpired] at [now] reports to the callback for the list
    element [e], and for the key [k]: the key and the value of the entry,
    when it has expired. *)
Definition expired_elem (now : Time) (h : gmap Element (cacheItem V)) (e : Element)
  : option (string * iface V) :=
  it ← h !! e;
  if Time_After now (expiresAt it) then Some (key it, value it) else None.

Definition expired_report (now : Time) (c : loadingCacheImpl V) (k : string)
  : option (string * iface V) :=
  it ← entry c k;
  if Time_After now (expiresAt it) then Some (k, value it) else None.

(** [c'] has the TTL of [c] and no entry that [c] does not have. *)
Definition sub_entries (c c' : loadingCacheImpl V) : Prop :=
  ttl c' = ttl c ∧ ∀ k it, entry c' k = Some it → entry c k = Some it.

(** The two tests [Set] makes after it has pushed a new entry: whether the
    expiry trim removes the back entry, whose item is [it0], and whether [n]
    entries are more than the cap allows. *)
Definition Set_trims (now' : Time) (c : loadingCacheImpl V) (it0 : cacheItem V) : bool :=
  bool_decide (ttl c ≠ noEvictionTTL) && Time_After now' (expiresAt it0).

Definition Set_over (c : loadingCacheImpl V) (n : nat) : bool :=
  bool_decide (0 < maxKeys c) && bool_decide (maxKeys c < GoInt.len n).

End MoreRelations.

(** * Decimal numerals and one-decimal rendering, in the words of the
    specification

    What it means for a string to be the decimal numeral of an integer, and
    the rendering with one decimal digit of a binary64, stated by reading
    the string back; none of this refers to the functions that print. *)
Module Numeral.

(** The value of a digit: the characters from [0] to [9] have the codes
    from 48 to 57. *)
Definition digit_value (a : ascii) : option Z :=
  let code := Z.of_N (N_of_ascii a) in
  if bool_decide (48 <= code <= 57) then Some (code - 48) else None.

(** The value of a string of digits, the most significant first, after the
    digits that gave [acc]. *)
Fixpoint read_digits (s : string) (acc : Z) : option Z :=
  match s with
  | EmptyString => Some acc
  | String a s' => d ← digit_value a; read_digits s' (10 * acc + d)
  end.

Definition read_nat (s : string) : option Z :=
  match s with
  | EmptyString => None
  | _ => read_digits s 0
  end.

Definition read_int (s : string) : option Z :=
  match s with
  | String "-"%char s' => Z.opp <$> read_nat s'
  | _ => read_nat s
  end.

Definition nonzero_digit (a : ascii) : bool :=
  match digit_value a with
  | Some d => bool_decide (0 < d)
  | None => false
  end.

(** No sign but [-], no leading zero, no [-0]. *)
Definition canonical (s : string) : bool :=
  match s with
  | String "0"%char EmptyString => true
  | String "-"%char (String a _) => nonzero_digit a
  | String a _ => nonzero_digit a
  | EmptyString => false
  end.

(** [s] is the decimal numeral of [n]. *)
Definition decimal_of (n : Z) (s : string) : Prop :=
  read_int s = Some n ∧ canonical s = true.

(** [n] tenths is the multiple of one tenth nearest to [m * 2 ^ e], the
    even one of the two when [m * 2 ^ e] is halfway. *)
Definition nearest_tenths (m : positive) (e n : Z) : Prop :=
  let d := 2 ^ Z.max 0 (- e) in
  let v := 10 * Z.pos m * 2 ^ Z.max 0 e in
  2 * Z.abs (v - n * d) <= d ∧ (2 * Z.abs (v - n * d) = d → Z.even n = true).

(** [100 * h / (h + m)] in binary64: the product and the quotient are the
    IEEE operations, the operands are converted from [int], and the sum is
    the [int] sum, which wraps around. *)
Definition hit_ratio (h m : Z) : SpecFloat.spec_float :=
  SpecFloat.SFdiv 53 1024
    (SpecFloat.SFmul 53 1024
       (SpecFloat.binary_normalize 53 1024 100 0 false)
       (SpecFloat.binary_normalize 53 1024 h 0 false))
    (SpecFloat.binary_normalize 53 1024 ((h + m + 2 ^ 63) mod 2 ^ 64 - 2 ^ 63) 0 false).

(** [s] is the binary64 [x] with one decimal digit: for a finite [x] the
    sign, the numeral of the whole part, a point and one digit, the two
    making the nearest number of tenths. *)
Definition one_decimal (x : SpecFloat.spec_float) (s : string) : Prop :=
  match x with
  | SpecFloat.S754_nan => s = "NaN"%string
  | SpecFloat.S754_infinity sign => s = (if sign then "-Inf" else "+Inf")%string
  | SpecFloat.S754_zero sign => s = (if sign then "-0.0" else "0.0")%string
  | SpecFloat.S754_finite sign m e =>
      ∃ n whole frac,
        0 <= n ∧ nearest_tenths m e n ∧
        decimal_of (n / 10) whole ∧
        read_int frac = Some (n mod 10) ∧ String.length frac = 1%nat ∧
        s = ((if sign then "-" else "") ++ whole ++ "." ++ frac)%string
  end.

End Numeral.

(** * The options builder of v2 ([options.go])

    [options[K, V]] is used through a pointer that every setter mutates and
    returns: the objects live in a store indexed by pointers, and a setter
    called on a pointer that holds no object panics ([None]). A field of
    pointer type is [None] when it is [nil]; so is a [nil] callback. *)
Module V2Options.

Section Builder.

(** [F] is [func(key K, value V)]. *)
Context {F : Type}.

Record options : Type := mkOptions {
  ttl : option Duration;
  maxKeys : option Z;
  lru : option bool;
  onEvicted : option F
}.

Definition ptr : Type := nat.
Definition store : Type := list options.

(** [Options()]: a new object with every field [nil]. *)
Definition Options (s : store) : ptr * store :=
  (length s, s ++ [mkOptions None None None None]).

Definition TTL (d : Duration) (o : ptr) (s : store) : option (ptr * store) :=
  r ← s !! o;
  Some (o, <[o := mkOptions (Some d) (maxKeys r) (lru r) (onEvicted r)]> s).

Definition MaxKeys (n : Z) (o : ptr) (s : store) : option (ptr * store) :=
  r ← s !! o;
  Some (o, <[o := mkOptions (ttl r) (Some n) (lru r) (onEvicted r)]> s).

Definition LRU (o : ptr) (s : store) : option (ptr * store) :=
  r ← s !! o;
  let v := true in
  Some (o, <[o := mkOptions (ttl r) (maxKeys r) (Some v) (onEvicted r)]> s).

Definition OnEvicted (fn : option F) (o : ptr) (s : store) : option (ptr * store) :=
  r ← s !! o;
  Some (o, <[o := mkOptions (ttl r) (maxKeys r) (lru r) fn]> s).

(** A chain of setter calls [o.A(..).B(..)...]: each call is made on the
    pointer the call before it returned. *)
Inductive call : Type :=
| CallTTL (d : Duration)
| CallMaxKeys (n : Z)
| CallLRU
| CallOnEvicted (fn : option F).

Definition apply_call (c : call) (o : ptr) (s : store) : option (ptr * store) :=
  match c with
  | CallTTL d => TTL d o s
  | CallMaxKeys n => MaxKeys n o s
  | CallLRU => LRU o s
  | CallOnEvicted fn => OnEvicted fn o s
  end.

Fixpoint chain (cs : list call) (o : ptr) (s : store) : option (ptr * store) :=
  match cs with
  | [] => Some (o, s)
  | c :: cs' => '(o', s') ← apply_call c o s; chain cs' o' s'
  end.

(** The argument of a call, when it is a call of the setter named. *)
Definition TTL_arg (c : call) : option Duration :=
  match c with CallTTL d => Some d | _ => None end.

Definition MaxKeys_arg (c : call) : option Z :=
  match c with CallMaxKeys n => Some n | _ => None end.

Definition OnEvicted_arg (c : call) : option (option F) :=
  match c with CallOnEvicted fn => Some fn | _ => None end.

Definition is_LRU (c : call) : bool :=
  match c with CallLRU => true | _ => false end.

End Builder.

Arguments options : clear implicits.
Arguments store : clear implicits.
Arguments call : clear implicits.

(** [Options().TTL(5).MaxKeys(3).TTL(7).LRU()] and a second object. *)
Definition ex_chain : list (call unit) :=
  [CallTTL 5; CallMaxKeys 3; CallTTL 7; CallLRU].

Definition ex_store : store unit :=
  (Options (Options []).2).2.

End V2Options.

(** * Properties *)

Arguments with_ttl {V} _ _ /.
Arguments with_maxKeys {V} _ _ /.
Arguments with_isLRU {V} _ _ /.
Arguments with_onEvicted {V} _ _ /.
Arguments with_stat {V} _ _ /.
Arguments with_items {V} _ _ /.
Arguments with_evictList {V} _ _ /.
Arguments with_heap {V} _ _ /.
Arguments with_next {V} _ _ /.
Arguments with_notified {V} _ _ /.

(** ** Go's [int] *)

Lemma wrap_in_range z : GoInt.in_range z → GoInt.wrap z = z.
Proof.
  unfold GoInt.in_range, GoInt.min_int, GoInt.max_int, GoInt.wrap. intros H.
  rewrite Z.mod_small; lia.
Qed.

Lemma wrap_bounds z : GoInt.in_range (GoInt.wrap z).
Proof.
  unfold GoInt.in_range, GoInt.min_int, GoInt.max_int, GoInt.wrap.
  pose proof (Z.mod_pos_bound (z + 2 ^ 63) (2 ^ 64)). lia.
Qed.

Lemma wrap_congr z : congr (GoInt.wrap z) z.
Proof.
  unfold GoInt.wrap. exists (- ((z + 2 ^ 63) / 2 ^ 64)).
  pose proof (Z.div_mod (z + 2 ^ 63) (2 ^ 64)). lia.
Qed.

Lemma congr_wrap_eq a b : congr a b → GoInt.wrap a = GoInt.wrap b.
Proof.
  intros [q ->]. unfold GoInt.wrap.
  replace (b + q * 2 ^ 64 + 2 ^ 63) with (b + 2 ^ 63 + q * 2 ^ 64) by lia.
  by rewrite Z.mod_add.
Qed.

Lemma congr_refl a : congr a a.
Proof. exists 0. lia. Qed.

Lemma congr_trans a b c : congr a b → congr b c → congr a c.
Proof. intros [q ->] [r ->]. exists (q + r). lia. Qed.

Lemma congr_add a b a' b' : congr a a' → congr b b' → congr (a + b) (a' + b').
Proof. intros [q ->] [r ->]. exists (q + r). lia. Qed.

Lemma congr_sub a b a' b' : congr a a' → congr b b' → congr (a - b) (a' - b').
Proof. intros [q ->] [r ->]. exists (q - r). lia. Qed.

Lemma incr_congr a : congr (GoInt.incr a) (a + 1).
Proof. apply wrap_congr. Qed.

(** ** Lists of handles *)

Lemma filter_ne_notin (l : list Element) e : e ∉ l → filter (λ x, x ≠ e) l = l.
Proof.
  induction l as [|x l IH]; [done|].
  intros Hn. apply not_elem_of_cons in Hn as [Hne Hn].
  rewrite filter_cons_True; [|by intros ->]. by rewrite IH.
Qed.

Lemma filter_ne_length (l : list Element) e :
  NoDup l → e ∈ l → S (length (filter (λ x, x ≠ e) l)) = length l.
Proof.
  induction l as [|x l IH]; [by intros _ ?%elem_of_nil|].
  intros [Hx Hnd]%NoDup_cons Hin.
  destruct (decide (x = e)) as [->|Hne].
  - rewrite filter_cons_False; [|naive_solver].
    by rewrite filter_ne_notin.
  - rewrite filter_cons_True; [|done]. simpl. f_equal. apply IH; [done|].
    apply elem_of_cons in Hin as [?|?]; [congruence|done].
Qed.

Lemma filter_ne_app_last (l : list Element) e :
  NoDup (l ++ [e]) → filter (λ x, x ≠ e) (l ++ [e]) = l.
Proof.
  intros Hnd. apply NoDup_app in Hnd as (_ & Hd & _).
  rewrite filter_app, filter_cons_False; [|naive_solver].
  rewrite filter_nil, app_nil_r. apply filter_ne_notin.
  intros Hin. apply (Hd _ Hin). by left.
Qed.


Section Engine.

Context {V : Type}.
Implicit Types (c : loadingCacheImpl V) (it : cacheItem V) (e : Element) (k : string).

Lemma same_config_refl c : same_config c c.
Proof. by repeat split. Qed.

Lemma same_config_trans c1 c2 c3 : same_config c1 c2 → same_config c2 c3 → same_config c1 c3.
Proof. unfold same_config. intros (?&?&?&?) (?&?&?&?). repeat split; congruence. Qed.

(** ** The eviction primitive *)

Lemma removeElement_removes e c c' :
  removeElement e c = Some c' → ∃ it, removes e it c c'.
Proof.
  unfold removeElement. intros H.
  destruct (heap c !! e) as [it|] eqn:Hh; simpl in H; [|done].
  injection H as <-. exists it.
  unfold removes, same_config, notify; simpl. destruct (onEvicted c); simpl; by repeat split.
Qed.

Lemma removeElement_Some e it c :
  heap c !! e = Some it → ∃ c', removeElement e c = Some c' ∧ removes e it c c'.
Proof.
  intros Hh. unfold removeElement. rewrite Hh. simpl. eexists. split; [done|].
  unfold removes, same_config, notify; simpl. destruct (onEvicted c); simpl; by repeat split.
Qed.

(** Removing an element of the list of a well-formed cache leaves a
    well-formed cache with one entry less. *)
Lemma removes_wf e it c c' :
  wf c → e ∈ evictList c → removes e it c c' →
  wf c' ∧ S (length (evictList c')) = length (evictList c) ∧ items c !! key it = Some e.
Proof.
  intros [Hnd Hsz Hit Hli Hnx] Hin (Hh & Hl & Hi & Hhp & Hst & Hn & Hc).
  destruct (Hli e Hin) as (it' & Hh' & Hke). rewrite Hh in Hh'. injection Hh' as <-.
  split; [|split; [|done]].
  - split.
    + rewrite Hl. by apply NoDup_filter.
    + rewrite Hi, Hl. apply Nat.succ_inj.
      rewrite filter_ne_length by done. rewrite <- Hsz.
      pose proof (map_size_delete (key it) (items c)) as Hd. rewrite Hke in Hd.
      assert (size (items c) ≠ 0%nat) by (apply map_size_ne_0_lookup_2 with (key it); by rewrite Hke).
      simpl in Hd. rewrite Hd. by destruct (size (items c)).
    + intros k e'. rewrite Hi, Hl, Hhp. intros Hlk.
      apply lookup_delete_Some in Hlk as [Hne Hlk].
      destruct (Hit _ _ Hlk) as (Hin' & it' & Hh' & Hk'). split; [|eauto].
      apply list_elem_of_filter. split; [|done].
      intros ->. rewrite Hh in Hh'. injection Hh' as <-. done.
    + intros e'. rewrite Hl, Hi, Hhp. intros [Hne Hin']%list_elem_of_filter.
      destruct (Hli _ Hin') as (it' & Hh' & Hk'). exists it'. split; [done|].
      rewrite lookup_delete_ne; [done|].
      intros Heq. rewrite Heq in Hke. rewrite Hke in Hk'. by injection Hk' as ->.
    + intros e'. rewrite Hl, Hn. intros [_ Hin']%list_elem_of_filter. by apply Hnx.
  - rewrite Hl. by apply filter_ne_length.
Qed.

(** ** I4: the order of the expiry instants *)

Lemma expiry_sorted_weaken (h : gmap Element (cacheItem V)) b b' l :
  b <= b' → expiry_sorted h b l → expiry_sorted h b' l.
Proof.
  destruct l as [|e l]; [done|]. simpl.
  intros Hb (it & Hh & Hle & Hs). exists it. repeat split; [done|lia|done].
Qed.

Lemma expiry_sorted_filter (h : gmap Element (cacheItem V)) (P : Element → Prop)
    `{!∀ x, Decision (P x)} b l :
  expiry_sorted h b l → expiry_sorted h b (filter P l).
Proof.
  revert b. induction l as [|e l IH]; [done|]. simpl.
  intros b (it & Hh & Hle & Hs).
  destruct (decide (P e)).
  - rewrite filter_cons_True by done. simpl. exists it. eauto.
  - rewrite filter_cons_False by done. apply IH.
    by apply expiry_sorted_weaken with (expiresAt it).
Qed.

Lemma expiry_sorted_ext (h h' : gmap Element (cacheItem V)) b l :
  (∀ e, e ∈ l → h' !! e = h !! e) → expiry_sorted h b l → expiry_sorted h' b l.
Proof.
  revert b. induction l as [|e l IH]; [done|]. simpl.
  intros b Hext (it & Hh & Hle & Hs). exists it. split.
  - rewrite Hext; [done|]. by left.
  - split; [done|]. apply IH; [|done]. intros x Hx. apply Hext. by right.
Qed.

Lemma expiry_sorted_bound (h : gmap Element (cacheItem V)) b l e it :
  expiry_sorted h b l → e ∈ l → h !! e = Some it → expiresAt it <= b.
Proof.
  revert b. induction l as [|x l IH]; [by intros ? ? ?%elem_of_nil|]. simpl.
  intros b (itx & Hh & Hle & Hs) Hin He.
  apply elem_of_cons in Hin as [->|Hin].
  - rewrite Hh in He. injection He as <-. done.
  - specialize (IH _ Hs Hin He). lia.
Qed.

(** An element in front of another one does not expire before it. *)
Lemma expiry_sorted_app (h : gmap Element (cacheItem V)) b l1 l2 e1 e2 it1 it2 :
  expiry_sorted h b (l1 ++ l2) → e1 ∈ l1 → e2 ∈ l2 →
  h !! e1 = Some it1 → h !! e2 = Some it2 → expiresAt it2 <= expiresAt it1.
Proof.
  revert b. induction l1 as [|x l1 IH]; [by intros ? ? ?%elem_of_nil|]. simpl.
  intros b (itx & Hh & Hle & Hs) Hin1 Hin2 H1 H2.
  apply elem_of_cons in Hin1 as [->|Hin1].
  - rewrite Hh in H1. injection H1 as <-.
    apply (expiry_sorted_bound h _ (l1 ++ l2) e2); [done| |done].
    apply elem_of_app. by right.
  - by apply (IH _ Hs).
Qed.

(** ** Removals keep the invariant *)

Lemma removes_inv t e it c c' :
  inv t c → e ∈ evictList c → removes e it c c' → inv t c'.
Proof.
  intros [Hwf Hmk Hcnt Hso] Hin Hr.
  destruct (removes_wf _ _ _ _ Hwf Hin Hr) as (Hwf' & Hlen & _).
  destruct Hr as (Hh & Hl & Hi & Hhp & Hst & Hn & Httl & Hmax & Hlru & Hcb).
  split; [done|by rewrite Hmax| |].
  - rewrite Hst. simpl.
    eapply congr_trans.
    { apply congr_sub; [apply congr_refl|apply incr_congr]. }
    destruct Hcnt as [q Hq]. exists q. lia.
  - rewrite Hlru, Hhp, Httl, Hl. intros Hf. apply expiry_sorted_filter. by apply Hso.
Qed.

Lemma removes_length e it c c' :
  wf c → e ∈ evictList c → removes e it c c' →
  S (length (evictList c')) = length (evictList c).
Proof. intros Hwf Hin Hr. by destruct (removes_wf _ _ _ _ Hwf Hin Hr) as (_ & ? & _). Qed.

Lemma removes_capped e it c c' :
  wf c → e ∈ evictList c → removes e it c c' → capped c → capped c'.
Proof.
  intros Hwf Hin Hr Hcap. pose proof (removes_length _ _ _ _ Hwf Hin Hr) as Hlen.
  destruct Hr as (_ & _ & _ & _ & _ & _ & _ & Hmax & _).
  unfold capped in *. rewrite Hmax. lia.
Qed.

Lemma inv_wait t t' c : inv t c → t <= t' → inv t' c.
Proof.
  intros [Hwf Hmk Hcnt Hso] Hle. split; [done..|].
  intros Hf. apply expiry_sorted_weaken with (t + ttl c); [lia|by apply Hso].
Qed.

(** ** [removeOldest] and [removeOldestIfExpired] *)

Lemma wf_back c l e :
  wf c → evictList c = l ++ [e] →
  ∃ it, heap c !! e = Some it ∧ items c !! key it = Some e ∧
        filter (λ x, x ≠ e) (evictList c) = l.
Proof.
  intros Hwf Hl. destruct (wf_list c Hwf e) as (it & Hh & Hk).
  { rewrite Hl. apply elem_of_app. right. by left. }
  exists it. repeat split; [done..|].
  rewrite Hl. apply filter_ne_app_last. rewrite <- Hl. by destruct Hwf.
Qed.

Lemma removeOldest_spec c :
  wf c →
  (evictList c = [] ∧ removeOldest c = Some c) ∨
  (∃ l e it c', evictList c = l ++ [e] ∧ removeOldest c = Some c' ∧
                removes e it c c' ∧ evictList c' = l).
Proof.
  intros Hwf. unfold removeOldest, GoList.Back.
  destruct (last (evictList c)) as [e|] eqn:Hlast.
  - right. apply last_Some in Hlast as [l Hl].
    destruct (wf_back c l e Hwf Hl) as (it & Hh & Hk & Hf).
    destruct (removeElement_Some e it c Hh) as (c' & Hc' & Hr).
    exists l, e, it, c'. repeat split; try done; try apply Hr.
    destruct Hr as (_ & -> & _). done.
  - left. by apply last_None in Hlast.
Qed.

Lemma removeOldestIfExpired_spec now c :
  wf c →
  (removeOldestIfExpired now c = Some c ∧
   (evictList c = [] ∨
    ∃ l e it, evictList c = l ++ [e] ∧ heap c !! e = Some it ∧ expiresAt it >= now)) ∨
  (∃ l e it c', evictList c = l ++ [e] ∧ removeOldestIfExpired now c = Some c' ∧
                removes e it c c' ∧ evictList c' = l ∧ expiresAt it < now).
Proof.
  intros Hwf. unfold removeOldestIfExpired, GoList.Back.
  destruct (last (evictList c)) as [e|] eqn:Hlast.
  - apply last_Some in Hlast as [l Hl].
    destruct (wf_back c l e Hwf Hl) as (it & Hh & Hk & Hf).
    rewrite Hh. simpl. unfold Time_After. case_bool_decide as Hexp.
    + right.
      destruct (removeElement_Some e it c Hh) as (c' & Hc' & Hr).
      exists l, e, it, c'. repeat split; try done; try apply Hr.
      destruct Hr as (_ & -> & _). done.
    + left. split; [done|]. right. exists l, e, it. repeat split; [done..|lia].
  - left. split; [done|]. left. by apply last_None in Hlast.
Qed.

Lemma removes_config e it c c' : removes e it c c' → same_config c c'.
Proof. by intros (_ & _ & _ & _ & _ & _ & ?). Qed.

Lemma trimmed_config c c' : trimmed c c' → same_config c c'.
Proof.
  intros [->|(l & e & it & _ & Hr & _)]; [apply same_config_refl|by eapply removes_config].
Qed.

Lemma elem_of_app_last (l : list Element) e : e ∈ l ++ [e].
Proof. apply elem_of_app. right. by left. Qed.

Lemma trimmed_inv t c c' : inv t c → trimmed c c' → inv t c'.
Proof.
  intros Hinv [->|(l & e & it & Hl & Hr & _)]; [done|].
  eapply removes_inv; [done| |done]. rewrite Hl. apply elem_of_app_last.
Qed.

Lemma trimmed_length c c' :
  wf c → trimmed c c' →
  (length (evictList c') <= length (evictList c) <= S (length (evictList c')))%nat.
Proof.
  intros Hwf [->|(l & e & it & Hl & Hr & _)]; [lia|].
  assert (e ∈ evictList c) as Hin by (rewrite Hl; apply elem_of_app_last).
  pose proof (removes_length _ _ _ _ Hwf Hin Hr). lia.
Qed.

Lemma removeOldest_trimmed c :
  wf c →
  ∃ c', removeOldest c = Some c' ∧ trimmed c c' ∧
        (evictList c ≠ [] → S (length (evictList c')) = length (evictList c)).
Proof.
  intros Hwf.
  destruct (removeOldest_spec c Hwf) as [[Hnil Heq]|(l & e & it & c' & Hl & Heq & Hr & Hl')].
  - exists c. split; [done|]. split; [by left|done].
  - exists c'. split; [done|]. split; [right; by exists l, e, it|].
    intros _. apply (removes_length e it); [done| |done].
    rewrite Hl. apply elem_of_app_last.
Qed.

Lemma removeOldestIfExpired_trimmed now c :
  wf c → ∃ c', removeOldestIfExpired now c = Some c' ∧ trimmed c c'.
Proof.
  intros Hwf.
  destruct (removeOldestIfExpired_spec now c Hwf)
    as [[Heq _]|(l & e & it & c' & Hl & Heq & Hr & Hl' & _)].
  - exists c. split; [done|by left].
  - exists c'. split; [done|]. right. by exists l, e, it.
Qed.

(** ** [Set] *)

Lemma Set_fresh_unfold now now' k v c :
  items c !! k = None →
  Set_ now now' k v c =
  c2 ← (if bool_decide (ttl c ≠ noEvictionTTL)
        then removeOldestIfExpired now' (pushed now k v c) else Some (pushed now k v c));
  if bool_decide (0 < maxKeys c2) && bool_decide (maxKeys c2 < GoInt.len (size (items c2)))
  then removeOldest c2 else Some c2.
Proof. intros H. unfold Set_. by rewrite H. Qed.

Lemma Set_existing_unfold now now' k v c ent it :
  items c !! k = Some ent → heap c !! ent = Some it →
  Set_ now now' k v c = Some (refreshed now ent it v c).
Proof. intros H1 H2. unfold Set_. by rewrite H1, H2. Qed.

Lemma MoveToFront_in (l : list Element) e :
  e ∈ l → GoList.MoveToFront e l = e :: filter (λ x, x ≠ e) l.
Proof. intros H. unfold GoList.MoveToFront. by rewrite bool_decide_eq_true_2. Qed.

Lemma not_elem_of_filter_ne (l : list Element) e : e ∉ filter (λ x, x ≠ e) l.
Proof. intros [H _]%list_elem_of_filter. by apply H. Qed.

Lemma pushed_wf now k v c :
  wf c → items c !! k = None → wf (pushed now k v c).
Proof.
  intros [Hnd Hsz Hit Hli Hnx] Hk.
  assert (Hfresh : next c ∉ evictList c).
  { intros Hin. specialize (Hnx _ Hin). lia. }
  split; simpl; unfold GoList.PushFront.
  - by apply NoDup_cons.
  - rewrite map_size_insert_None by done. simpl. by f_equal.
  - intros k' e Hlk. apply lookup_insert_Some in Hlk as [[<- <-]|[Hne Hlk]].
    + split; [by left|]. eexists. by rewrite lookup_insert_eq.
    + destruct (Hit _ _ Hlk) as (Hin & it & Hh & Hki). split; [by right|].
      exists it. split; [|done]. rewrite lookup_insert_ne; [done|].
      intros <-. done.
  - intros e [->|Hin]%elem_of_cons.
    + eexists. rewrite lookup_insert_eq. split; [done|]. simpl. by rewrite lookup_insert_eq.
    + destruct (Hli _ Hin) as (it & Hh & Hki). exists it.
      rewrite lookup_insert_ne by (by intros <-). split; [done|].
      rewrite lookup_insert_ne; [done|]. intros Heq. rewrite <- Heq in Hki. congruence.
  - intros e [->|Hin]%elem_of_cons; [lia|]. specialize (Hnx _ Hin). lia.
Qed.

Lemma pushed_inv t now k v c :
  inv t c → t <= now → items c !! k = None → inv now (pushed now k v c).
Proof.
  intros [Hwf Hmk Hcnt Hso] Hle Hk.
  split; [by apply pushed_wf|done| |].
  - simpl. unfold GoList.PushFront. simpl length.
    eapply congr_trans.
    { apply congr_sub; [apply incr_congr|apply congr_refl]. }
    destruct Hcnt as [q Hq]. exists q. lia.
  - simpl. unfold GoList.PushFront, Time_Add. intros Hf.
    eexists. rewrite lookup_insert_eq. split; [done|]. simpl. split; [lia|].
    apply expiry_sorted_ext with (heap c).
    + intros e Hin. rewrite lookup_insert_ne; [done|].
      intros <-. pose proof (wf_next c Hwf _ Hin). lia.
    + apply expiry_sorted_weaken with (t + ttl c); [lia|by apply Hso].
Qed.

Lemma refreshed_wf now k ent it v c :
  wf c → items c !! k = Some ent → heap c !! ent = Some it →
  wf (refreshed now ent it v c).
Proof.
  intros Hwf Hk Hh. pose proof Hwf as [Hnd Hsz Hit Hli Hnx].
  destruct (Hit _ _ Hk) as (Hin & it' & Hh' & Hki).
  rewrite Hh in Hh'. injection Hh' as <-.
  split; simpl; rewrite MoveToFront_in by done.
  - apply NoDup_cons. split; [apply not_elem_of_filter_ne|by apply NoDup_filter].
  - simpl. rewrite filter_ne_length by done. done.
  - intros k' e Hlk. destruct (Hit _ _ Hlk) as (Hin' & it' & Hh' & Hki').
    destruct (decide (e = ent)) as [->|Hne].
    + split; [by left|]. eexists. rewrite lookup_insert_eq. split; [done|]. simpl.
      rewrite Hh in Hh'. by injection Hh' as <-.
    + split.
      * right. apply list_elem_of_filter. done.
      * exists it'. by rewrite lookup_insert_ne.
  - intros e [->|[Hne Hin']%list_elem_of_filter]%elem_of_cons.
    + eexists. rewrite lookup_insert_eq. split; [done|]. simpl. by rewrite Hki.
    + destruct (Hli _ Hin') as (it' & Hh' & Hki'). exists it'.
      by rewrite lookup_insert_ne.
  - intros e [->|[Hne Hin']%list_elem_of_filter]%elem_of_cons; by apply Hnx.
Qed.

Lemma refreshed_inv t now k ent it v c :
  inv t c → t <= now → items c !! k = Some ent → heap c !! ent = Some it →
  inv now (refreshed now ent it v c).
Proof.
  intros [Hwf Hmk Hcnt Hso] Hle Hk Hh.
  destruct (wf_items c Hwf _ _ Hk) as (Hin & _).
  split; [by eapply refreshed_wf|done| |].
  - simpl. rewrite MoveToFront_in by done. simpl length.
    rewrite filter_ne_length; [done|by destruct Hwf|done].
  - simpl. rewrite MoveToFront_in by done. unfold Time_Add. intros Hf.
    eexists. rewrite lookup_insert_eq. split; [done|]. simpl. split; [lia|].
    apply expiry_sorted_ext with (heap c).
    + intros e [Hne _]%list_elem_of_filter. by rewrite lookup_insert_ne.
    + apply expiry_sorted_filter.
      apply expiry_sorted_weaken with (t + ttl c); [lia|by apply Hso].
Qed.

Lemma wf_len_items c :
  wf c → Z.of_nat (length (evictList c)) <= GoInt.max_int →
  GoInt.len (size (items c)) = Z.of_nat (length (evictList c)).
Proof.
  intros Hwf Hle. rewrite (wf_size c Hwf). apply wrap_in_range.
  unfold GoInt.in_range, GoInt.min_int, GoInt.max_int in *. lia.
Qed.

(** [Set] never panics on a reachable state and keeps the invariants. *)
Lemma Set_inv t now now' k v c :
  inv t c → capped c → t <= now → now <= now' →
  ∃ c', Set_ now now' k v c = Some c' ∧ inv now' c' ∧ capped c' ∧ same_config c c'.
Proof.
  intros Hinv Hcap Ht Hn. pose proof (inv_wf _ _ Hinv) as Hwf.
  destruct (items c !! k) as [ent|] eqn:Hk.
  - destruct (wf_items c Hwf _ _ Hk) as (Hin & it & Hh & _).
    exists (refreshed now ent it v c). split; [by apply Set_existing_unfold|].
    split; [|split].
    + apply inv_wait with now; [by eapply refreshed_inv|done].
    + unfold capped in *. simpl. rewrite MoveToFront_in by done. simpl length.
      rewrite filter_ne_length; [done|by destruct Hwf|done].
    + by repeat split.
  - rewrite Set_fresh_unfold by done.
    pose proof (pushed_inv t now k v c Hinv Ht Hk) as Hp.
    set (p := pushed now k v c) in *.
    assert (∃ c2, (if bool_decide (ttl c ≠ noEvictionTTL)
                   then removeOldestIfExpired now' p else Some p) = Some c2 ∧
                  trimmed p c2) as (c2 & -> & Htr).
    { case_bool_decide.
      - apply removeOldestIfExpired_trimmed, Hp.
      - exists p. split; [done|by left]. }
    simpl. pose proof (trimmed_inv _ _ _ Hp Htr) as H2.
    pose proof (trimmed_length _ _ (inv_wf _ _ Hp) Htr) as Hlen2.
    pose proof (trimmed_config _ _ Htr) as Hc2.
    assert (Hlenp : length (evictList p) = S (length (evictList c))) by done.
    assert (Hcp : same_config c p) by (by repeat split).
    destruct (removeOldest_trimmed c2 (inv_wf _ _ H2)) as (c3 & Hc3 & Htr3 & Hlen3).
    pose proof (trimmed_inv _ _ _ H2 Htr3) as H3.
    pose proof (trimmed_config _ _ Htr3) as Hcfg3.
    assert (Hmk2 : maxKeys c2 = maxKeys c).
    { destruct Hc2 as (_ & -> & _). by destruct Hcp as (_ & -> & _). }
    destruct (bool_decide (0 < maxKeys c2) && bool_decide (maxKeys c2 < GoInt.len (size (items c2))))
      eqn:Hcond.
    + exists c3. split; [done|]. split; [by apply inv_wait with now|]. split.
      * apply andb_true_iff in Hcond as [H0%bool_decide_eq_true Hlt%bool_decide_eq_true].
        unfold capped in *. destruct Hcfg3 as (_ & Hm3 & _). rewrite Hm3, Hmk2.
        intros Hrange. specialize (Hcap Hrange).
        rewrite wf_len_items in Hlt; [|apply H2|lia].
        assert (evictList c2 ≠ []) as Hne.
        { intros Hnil. rewrite Hnil in Hlt. simpl in Hlt. lia. }
        specialize (Hlen3 Hne). lia.
      * eapply same_config_trans; [|done]. by eapply same_config_trans.
    + exists c2. split; [done|]. split; [by apply inv_wait with now|]. split.
      * unfold capped in *. rewrite Hmk2. intros Hrange. specialize (Hcap Hrange).
        apply andb_false_iff in Hcond as [H0%bool_decide_eq_false|Hlt%bool_decide_eq_false];
          [lia|].
        rewrite wf_len_items in Hlt; [lia|apply H2|lia].
      * by eapply same_config_trans.
Qed.

(** ** [Get] and [Peek] *)

Lemma MoveToFront_wf ent c :
  wf c → ent ∈ evictList c → wf (with_evictList (GoList.MoveToFront ent (evictList c)) c).
Proof.
  intros [Hnd Hsz Hit Hli Hnx] Hin.
  assert (Hmem : ∀ e, e ∈ GoList.MoveToFront ent (evictList c) ↔ e ∈ evictList c).
  { intros e. rewrite MoveToFront_in by done. rewrite elem_of_cons, list_elem_of_filter.
    destruct (decide (e = ent)) as [->|]; [tauto|]. split; [by intros [?|[_ ?]]|auto]. }
  split; simpl.
  - rewrite MoveToFront_in by done.
    apply NoDup_cons. split; [apply not_elem_of_filter_ne|by apply NoDup_filter].
  - rewrite MoveToFront_in by done. simpl. by rewrite filter_ne_length.
  - intros k e Hlk. rewrite Hmem. by apply Hit.
  - intros e. rewrite Hmem. by apply Hli.
  - intros e. rewrite Hmem. by apply Hnx.
Qed.

Lemma MoveToFront_length (l : list Element) e :
  NoDup l → length (GoList.MoveToFront e l) = length l.
Proof.
  intros Hnd. unfold GoList.MoveToFront. case_bool_decide; [|done].
  simpl. by apply filter_ne_length.
Qed.

(** The three outcomes of [Get]. *)
Lemma Get_absent now k c :
  items c !! k = None →
  Get now k c = Some (None, false, with_stat (incMisses (stat c)) c).
Proof. intros H. unfold Get. by rewrite H. Qed.

Lemma Get_expired now k c ent it :
  items c !! k = Some ent → heap c !! ent = Some it → expiresAt it < now →
  Get now k c = Some (None, false, with_stat (incMisses (stat c)) c).
Proof.
  intros H1 H2 H3. unfold Get, Time_After. rewrite H1, H2. simpl.
  by rewrite bool_decide_eq_true_2.
Qed.

Lemma Get_live now k c ent it :
  items c !! k = Some ent → heap c !! ent = Some it → now <= expiresAt it →
  Get now k c =
  Some (value it, true,
        with_stat (incHits (stat c))
          (if isLRU c then with_evictList (GoList.MoveToFront ent (evictList c)) c else c)).
Proof.
  intros H1 H2 H3. unfold Get, Time_After. rewrite H1, H2. simpl.
  rewrite bool_decide_eq_false_2 by lia. by destruct (isLRU c).
Qed.

Lemma Get_inv t now k c :
  inv t c → capped c → t <= now →
  ∃ r c', Get now k c = Some (r, c') ∧ inv now c' ∧ capped c' ∧ same_config c c'.
Proof.
  intros Hinv Hcap Ht. apply inv_wait with (t' := now) in Hinv; [|done].
  pose proof Hinv as [Hwf Hmk Hcnt Hso].
  assert (Hmiss : inv now (with_stat (incMisses (stat c)) c) ∧
                  capped (with_stat (incMisses (stat c)) c) ∧
                  same_config c (with_stat (incMisses (stat c)) c)).
  { split; [|split; [done|by repeat split]]. split; [by destruct Hwf|done..]. }
  destruct (items c !! k) as [ent|] eqn:Hk.
  - destruct (wf_items c Hwf _ _ Hk) as (Hin & it & Hh & _).
    destruct (decide (expiresAt it < now)).
    + eexists _, _. split; [by eapply Get_expired|done].
    + eexists _, _. split; [eapply Get_live; [done..|lia]|].
      destruct (isLRU c) eqn:Hlru.
      * pose proof (MoveToFront_wf ent c Hwf Hin) as [? ? ? ? ?].
        pose proof (MoveToFront_length (evictList c) ent (wf_nodup c Hwf)) as Hlen.
        split; [|split; [|by repeat split]].
        -- split; [by split|done| |].
           ++ simpl. by rewrite Hlen.
           ++ simpl. by rewrite Hlru.
        -- unfold capped in *. simpl. by rewrite Hlen.
      * split; [|split; [done|by repeat split]].
        split; [by destruct Hwf|done|done|]. simpl. intros _. by apply Hso.
  - eexists _, _. split; [by apply Get_absent|done].
Qed.

(** ** [Invalidate], [InvalidateFn] *)

Lemma Invalidate_inv t k c :
  inv t c → capped c →
  ∃ c', Invalidate k c = Some c' ∧ inv t c' ∧ capped c' ∧ same_config c c'.
Proof.
  intros Hinv Hcap. pose proof (inv_wf _ _ Hinv) as Hwf. unfold Invalidate.
  destruct (items c !! k) as [ent|] eqn:Hk.
  - destruct (wf_items c Hwf _ _ Hk) as (Hin & it & Hh & _).
    destruct (removeElement_Some ent it c Hh) as (c' & -> & Hr).
    exists c'. split; [done|]. split; [by eapply removes_inv|].
    split; [by eapply removes_capped|by eapply removes_config].
  - exists c. split; [done|]. split; [done|]. split; [done|apply same_config_refl].
Qed.

Lemma InvalidateFn_body_inv t fn k c :
  inv t c → capped c →
  ∃ c', InvalidateFn_body fn k c = Some c' ∧ inv t c' ∧ capped c' ∧ same_config c c'.
Proof.
  intros Hinv Hcap. unfold InvalidateFn_body. destruct (fn k).
  - apply (Invalidate_inv t k c Hinv Hcap).
  - exists c. split; [by destruct (items c !! k)|].
    split; [done|]. split; [done|apply same_config_refl].
Qed.

Lemma InvalidateFn_in_inv t order fn c :
  inv t c → capped c →
  ∃ c', InvalidateFn_in order fn c = Some c' ∧ inv t c' ∧ capped c' ∧ same_config c c'.
Proof.
  unfold InvalidateFn_in. revert c. induction order as [|k order IH]; intros c Hinv Hcap.
  - exists c. split; [done|]. split; [done|]. split; [done|apply same_config_refl].
  - destruct (InvalidateFn_body_inv t fn k c Hinv Hcap) as (c1 & Hb & Hinv1 & Hcap1 & Hcfg1).
    simpl. rewrite Hb. simpl. destruct (IH c1 Hinv1 Hcap1) as (c' & Hc' & ? & ? & ?).
    exists c'. split; [done|]. split; [done|]. split; [done|].
    by eapply same_config_trans.
Qed.

(** ** [DeleteExpired] *)

Lemma filter_ne_middle (l1 l2 : list Element) e :
  NoDup (l1 ++ e :: l2) → filter (λ x, x ≠ e) (l1 ++ e :: l2) = l1 ++ l2.
Proof.
  intros Hnd. apply NoDup_app in Hnd as (_ & Hd & [Hn2 _]%NoDup_cons).
  rewrite filter_app, filter_cons_False by (by intros ?).
  rewrite !filter_ne_notin; [done|done|].
  intros Hin. apply (Hd _ Hin). by left.
Qed.

Lemma wf_keys c : wf c → ∃ ks, keys c = Some ks ∧
    Forall2 (λ e k, key <$> heap c !! e = Some k) (reverse (evictList c)) ks.
Proof.
  intros Hwf. unfold keys.
  destruct (mapM_is_Some_2 (λ ent, key <$> heap c !! ent) (reverse (evictList c)))
    as [ks Hks].
  - apply Forall_forall. intros e Hin. rewrite elem_of_reverse in Hin.
    destruct (wf_list c Hwf e Hin) as (it & Hh & _). simpl. rewrite Hh. by eexists.
  - exists ks. split; [done|]. by apply mapM_Some.
Qed.

(** The loop of [DeleteExpired], started on the part [U] of the list it has
    not visited yet; [K] is the part it visited and kept. None of the clock
    readings is before [now]. *)
Lemma DeleteExpired_loop_spec t tick now :
  (∀ j, now <= tick j) →
  ∀ ks U K i c,
    inv t c → capped c → evictList c = U ++ K →
    Forall2 (λ e k, key <$> heap c !! e = Some k) (reverse U) ks →
    (∀ e it, e ∈ K → heap c !! e = Some it → now <= expiresAt it) →
    ∃ c', DeleteExpired_loop tick i ks c = Some c' ∧
          inv t c' ∧ capped c' ∧ same_config c c' ∧ heap c' = heap c ∧
          (∀ e it, e ∈ evictList c' → heap c !! e = Some it → now <= expiresAt it) ∧
          (∀ e, e ∈ evictList c' → e ∈ evictList c) ∧
          (∀ e it, e ∈ evictList c → heap c !! e = Some it →
                   (∀ j, tick j <= expiresAt it) → e ∈ evictList c').
Proof.
  intros Htick. induction ks as [|k ks IH]; intros U K i c Hinv Hcap Hl Hf2 HK.
  - apply Forall2_nil_inv_r in Hf2. apply (f_equal reverse) in Hf2.
    rewrite reverse_involutive in Hf2. simpl in Hf2. subst U. simpl in Hl.
    exists c. split; [done|]. split; [done|]. split; [done|].
    split; [apply same_config_refl|]. split; [done|].
    split; [|done]. intros e it Hin. rewrite Hl in Hin. by apply HK.
  - apply Forall2_cons_inv_r in Hf2 as (e & rU & Hke & Hf2 & HrU).
    apply (f_equal reverse) in HrU. rewrite reverse_involutive, reverse_cons in HrU.
    subst U. set (U := reverse rU) in *.
    pose proof (inv_wf _ _ Hinv) as Hwf.
    assert (He : e ∈ evictList c).
    { rewrite Hl. apply elem_of_app. left. apply elem_of_app_last. }
    destruct (wf_list c Hwf e He) as (it & Hh & Hki).
    rewrite Hh in Hke. simpl in Hke. injection Hke as Hkey. rewrite Hkey in Hki.
    assert (Hl' : evictList c = U ++ e :: K) by (by rewrite Hl, <- app_assoc).
    simpl. rewrite Hki. simpl. rewrite Hh. simpl.
    unfold Time_After. case_bool_decide as Hexp.
    + destruct (removeElement_Some e it c Hh) as (c1 & -> & Hr). simpl.
      pose proof (removes_inv _ _ _ _ _ Hinv He Hr) as Hinv1.
      pose proof (removes_capped _ _ _ _ Hwf He Hr Hcap) as Hcap1.
      pose proof (removes_config _ _ _ _ Hr) as Hcfg1.
      destruct Hr as (_ & Hl1 & _ & Hhp1 & _).
      assert (Hl1' : evictList c1 = U ++ K).
      { rewrite Hl1, Hl'. apply filter_ne_middle. rewrite <- Hl'. by destruct Hwf. }
      destruct (IH U K (S i) c1 Hinv1 Hcap1 Hl1') as (c' & Hc' & ? & ? & ? & Hhp' & Hnow & Hsub & Hkeep).
      { unfold U. rewrite reverse_involutive. by rewrite Hhp1. }
      { intros x itx Hx. rewrite Hhp1. by apply HK. }
      exists c'. split; [done|]. split; [done|]. split; [done|].
      split; [by eapply same_config_trans|]. split; [congruence|].
      split; [|split].
      * intros x itx Hx Hhx. apply (Hnow x itx Hx). by rewrite Hhp1.
      * intros x Hx. apply Hsub in Hx. rewrite Hl1 in Hx.
        by apply list_elem_of_filter in Hx as [_ ?].
      * intros x itx Hx Hhx Hlive. apply (Hkeep x itx); [|by rewrite Hhp1|done].
        rewrite Hl1. apply list_elem_of_filter. split; [|done].
        intros ->. rewrite Hh in Hhx. injection Hhx as <-.
        specialize (Hlive i). lia.
    + destruct (isLRU c) eqn:Hlru; simpl.
      * destruct (IH U (e :: K) (S i) c Hinv Hcap Hl') as (c' & Hc' & ? & ? & ? & Hhp' & Hnow & Hsub & Hkeep).
        { unfold U. by rewrite reverse_involutive. }
        { intros x itx [->|Hx]%elem_of_cons Hhx; [|by eapply HK].
          rewrite Hh in Hhx. injection Hhx as <-. specialize (Htick i). lia. }
        exists c'. by repeat (split; [done|]).
      * exists c. split; [done|]. split; [done|]. split; [done|].
        split; [apply same_config_refl|]. split; [done|].
        split; [|done]. intros x itx Hx Hhx.
        assert (now <= expiresAt it) by (specialize (Htick i); lia).
        rewrite Hl' in Hx. apply elem_of_app in Hx as [Hx|[->|Hx]%elem_of_cons].
        -- pose proof (inv_sorted _ _ Hinv Hlru) as Hso. rewrite Hl' in Hso.
           assert (expiresAt it <= expiresAt itx); [|lia].
           apply (expiry_sorted_app _ _ _ _ x e _ _ Hso); [done|by left|done..].
        -- rewrite Hh in Hhx. by injection Hhx as <-.
        -- by eapply HK.
Qed.

Lemma DeleteExpired_spec t tick now c :
  inv t c → capped c → (∀ j, now <= tick j) →
  ∃ c', DeleteExpired tick c = Some c' ∧
        inv t c' ∧ capped c' ∧ same_config c c' ∧ heap c' = heap c ∧
        (∀ e it, e ∈ evictList c' → heap c !! e = Some it → now <= expiresAt it) ∧
        (∀ e, e ∈ evictList c' → e ∈ evictList c) ∧
        (∀ e it, e ∈ evictList c → heap c !! e = Some it →
                 (∀ j, tick j <= expiresAt it) → e ∈ evictList c').
Proof.
  intros Hinv Hcap Htick. unfold DeleteExpired.
  destruct (wf_keys c (inv_wf _ _ Hinv)) as (ks & -> & Hf2). simpl.
  apply (DeleteExpired_loop_spec t tick now Htick ks (evictList c) []); try done.
  - by rewrite app_nil_r.
  - by intros e it ?%elem_of_nil.
Qed.

(** ** [Purge] *)

(** The loop of [Purge] deletes every key it is given and counts each of
    them; it leaves the list and the heap alone. *)
Lemma Purge_loop_spec order : ∀ c,
  NoDup order →
  (∀ k, k ∈ order → is_Some (items c !! k)) →
  (∀ k e, items c !! k = Some e → is_Some (heap c !! e)) →
  ∃ c', range_loop Purge_body order c = Some c' ∧
        (∀ k, items c' !! k = if bool_decide (k ∈ order) then None else items c !! k) ∧
        evictList c' = evictList c ∧ heap c' = heap c ∧ next c' = next c ∧
        same_config c c' ∧
        Hits (stat c') = Hits (stat c) ∧ Misses (stat c') = Misses (stat c) ∧
        Added (stat c') = Added (stat c) ∧
        congr (Evicted (stat c')) (Evicted (stat c) + Z.of_nat (length order)).
Proof.
  induction order as [|k order IH]; intros c Hnd Hpres Hheap.
  - exists c. split; [done|]. split; [done|]. do 3 (split; [done|]).
    split; [apply same_config_refl|]. do 3 (split; [done|]).
    simpl. exists 0. lia.
  - apply NoDup_cons in Hnd as [Hk Hnd].
    destruct (Hpres k) as [e He]; [by left|].
    destruct (Hheap k e He) as [it Hit].
    set (c0 := with_stat (incEvicted (stat c)) (with_items (delete k (items c)) c)).
    assert (∃ c1, Purge_body k c = Some c1 ∧ items c1 = delete k (items c) ∧
                  evictList c1 = evictList c ∧ heap c1 = heap c ∧ next c1 = next c ∧
                  same_config c c1 ∧ stat c1 = incEvicted (stat c))
      as (c1 & Hb & Hi1 & Hl1 & Hh1 & Hn1 & Hc1 & Hs1).
    { unfold Purge_body. rewrite He. fold c0. destruct (onEvicted c0) eqn:Hcb.
      - simpl. rewrite Hit. simpl. eexists. split; [done|].
        unfold notify. rewrite Hcb. simpl. by repeat split.
      - exists c0. by repeat split. }
    destruct (IH c1) as (c' & Hc' & Hi' & Hl' & Hh' & Hn' & Hcfg' & HH & HM & HA & HE).
    + done.
    + intros k' Hk'. rewrite Hi1. rewrite lookup_delete_ne; [|by intros <-].
      apply Hpres. by right.
    + intros k' e'. rewrite Hi1, Hh1. intros [_ Hlk]%lookup_delete_Some. by eapply Hheap.
    + exists c'. simpl. rewrite Hb. simpl. split; [done|]. split.
      { intros k'. rewrite Hi', Hi1. destruct (decide (k' = k)) as [->|Hne].
        - rewrite lookup_delete_eq. rewrite (bool_decide_eq_true_2 (k ∈ k :: order)) by (by left).
          by case_bool_decide.
        - rewrite lookup_delete_ne by done.
          case_bool_decide as H1; case_bool_decide as H2; try done.
          + exfalso. apply H2. by right.
          + exfalso. apply elem_of_cons in H2 as [?|?]; done. }
      rewrite Hl', Hh', Hn', HH, HM, HA, Hs1. simpl. do 3 (split; [done|]).
      split; [by eapply same_config_trans|]. do 3 (split; [done|]).
      eapply congr_trans; [apply HE|]. rewrite Hs1. simpl.
      eapply congr_trans; [apply congr_add; [apply incr_congr|apply congr_refl]|].
      exists 0. lia.
Qed.

Lemma range_order_facts c order :
  range_order c order →
  NoDup order ∧ (∀ k, k ∈ order ↔ is_Some (items c !! k)) ∧
  length order = size (items c).
Proof.
  unfold range_order. intros Hp. split; [|split].
  - rewrite Hp. apply NoDup_fst_map_to_list.
  - intros k. rewrite Hp. rewrite list_elem_of_fmap. split.
    + intros ([k' e] & -> & Hin). apply elem_of_map_to_list in Hin. by eexists.
    + intros [e He]. exists (k, e). split; [done|]. by apply elem_of_map_to_list.
  - rewrite Hp. rewrite length_fmap. apply length_map_to_list.
Qed.

Lemma Purge_in_inv t order c :
  inv t c → range_order c order →
  ∃ c', Purge_in order c = Some c' ∧ inv t c' ∧ capped c' ∧ same_config c c' ∧
        items c' = ∅ ∧ evictList c' = [] ∧
        congr (Evicted (stat c')) (Evicted (stat c) + Z.of_nat (length (evictList c))).
Proof.
  intros [Hwf Hmk Hcnt Hso] (Hnd & Hmem & Hlen)%range_order_facts.
  destruct (Purge_loop_spec order c Hnd) as
    (c1 & Hc1 & Hi1 & Hl1 & Hh1 & Hn1 & Hcfg1 & HH & HM & HA & HE).
  { intros k. apply Hmem. }
  { intros k e Hlk. destruct (wf_items c Hwf _ _ Hlk) as (_ & it & -> & _). by eexists. }
  rewrite Hlen, (wf_size c Hwf) in HE.
  assert (Hempty : items c1 = ∅).
  { apply map_empty. intros k. rewrite Hi1. case_bool_decide as Hk; [done|].
    destruct (items c !! k) eqn:Hlk; [|done]. exfalso. apply Hk, Hmem. by eexists. }
  exists (with_evictList GoList.Init c1). unfold Purge_in. rewrite Hc1. simpl.
  split; [done|]. split; [|split; [|split; [|done]]].
  - split; simpl.
    + split; simpl; unfold GoList.Init.
      * apply NoDup_nil_2.
      * by rewrite Hempty.
      * intros k e. by rewrite Hempty.
      * by intros e ?%elem_of_nil.
      * by intros e ?%elem_of_nil.
    + by destruct Hcfg1 as (_ & -> & _).
    + rewrite HA. eapply congr_trans; [apply congr_sub; [apply congr_refl|apply HE]|].
      destruct Hcnt as [q Hq]. exists q. unfold GoList.Init. simpl. lia.
    + done.
  - unfold capped. simpl. destruct Hcfg1 as (_ & -> & _).
    pose proof Hmk as [? ?]. unfold GoInt.max_int in *. lia.
  - done.
Qed.

(** ** Every reachable state satisfies the invariants *)

Lemma fresh_inv t c :
  items c = ∅ → evictList c = [] → stat c = mkStats 0 0 0 0 →
  GoInt.in_range (maxKeys c) → inv t c ∧ capped c.
Proof.
  intros Hi Hl Hs Hr. split.
  - split.
    + split; rewrite ?Hi, ?Hl.
      * apply NoDup_nil_2.
      * done.
      * intros k e. by rewrite lookup_empty.
      * by intros e ?%elem_of_nil.
      * by intros e ?%elem_of_nil.
    + done.
    + rewrite Hs, Hl. apply congr_refl.
    + by rewrite Hl.
  - unfold capped. rewrite Hl. simpl. lia.
Qed.

Lemma apply_options_fresh options : ∀ c0 c,
  Forall package_option options →
  apply_options (V := V) options c0 = inr c →
  items c0 = ∅ → evictList c0 = [] → stat c0 = mkStats 0 0 0 0 →
  GoInt.in_range (maxKeys c0) →
  items c = ∅ ∧ evictList c = [] ∧ stat c = mkStats 0 0 0 0 ∧ GoInt.in_range (maxKeys c).
Proof.
  induction options as [|opt options IH]; intros c0 c Hopts Happ Hi Hl Hs Hr.
  - simpl in Happ. by injection Happ as <-.
  - apply Forall_cons in Hopts as [Hopt Hopts]. simpl in Happ.
    destruct Hopt; simpl in Happ; by apply (IH _ _ Hopts Happ).
Qed.

Lemma New_inv t options c :
  Forall package_option options → NewLoadingCache options = inr c →
  inv t c ∧ capped c.
Proof.
  intros Hopts Hnew. unfold NewLoadingCache in Hnew.
  destruct (apply_options_fresh _ _ _ Hopts Hnew) as (? & ? & ? & ?); try done.
  by apply fresh_inv.
Qed.

Lemma reachable_inv t c : reachable t c → inv t c ∧ capped c.
Proof.
  induction 1 as
    [t options c Hopts Hnew
    |t t' c Hreach [IH IHc] Hle
    |t now now' k v c c' Hreach [IH IHc] Ht Hn Hstep
    |t now k r c c' Hreach [IH IHc] Ht Hstep
    |t k c c' Hreach [IH IHc] Hstep
    |t order fn c c' Hreach [IH IHc] Hord Hstep
    |t c c' Hreach [IH IHc] Hstep
    |t t' tick c c' Hreach [IH IHc] Htick Hstep
    |t order c c' Hreach [IH IHc] Hord Hstep].
  - by eapply New_inv.
  - split; [by eapply inv_wait|done].
  - destruct (Set_inv t now now' k v c IH IHc Ht Hn) as (c'' & Heq & ? & ? & _).
    rewrite Hstep in Heq. by injection Heq as <-.
  - destruct (Get_inv t now k c IH IHc Ht) as (r' & c'' & Heq & ? & ? & _).
    rewrite Hstep in Heq. by injection Heq as <- <-.
  - destruct (Invalidate_inv t k c IH IHc) as (c'' & Heq & ? & ? & _).
    rewrite Hstep in Heq. by injection Heq as <-.
  - destruct (InvalidateFn_in_inv t order fn c IH IHc) as (c'' & Heq & ? & ? & _).
    rewrite Hstep in Heq. by injection Heq as <-.
  - destruct (removeOldest_trimmed c (inv_wf _ _ IH)) as (c'' & Heq & Htr & _).
    unfold RemoveOldest in Hstep. rewrite Hstep in Heq. injection Heq as <-.
    split; [by eapply trimmed_inv|].
    destruct Htr as [->|(l & e & it & Hl & Hr & _)]; [done|].
    eapply removes_capped; [apply IH| |done..]. rewrite Hl. apply elem_of_app_last.
  - destruct (DeleteExpired_spec t tick t c IH IHc) as (c'' & Heq & ? & ? & _).
    { intros j. apply Htick. }
    rewrite Hstep in Heq. injection Heq as <-.
    split; [|done]. eapply inv_wait; [done|]. specialize (Htick 0%nat). lia.
  - destruct (Purge_in_inv t order c IH Hord) as (c'' & Heq & ? & ? & _).
    rewrite Hstep in Heq. by injection Heq as <-.
Qed.

End Engine.

(** * The properties of the specification *)

Section Claims.

Context {V : Type}.
Implicit Types (c : loadingCacheImpl V) (it : cacheItem V) (e : Element) (k : string).

Lemma entry_Some c k it :
  entry c k = Some it ↔ ∃ ent, items c !! k = Some ent ∧ heap c !! ent = Some it.
Proof.
  unfold entry. destruct (items c !! k) as [ent|]; simpl.
  - split; [by exists ent|]. by intros (? & [= <-] & ?).
  - split; [done|]. by intros (? & ? & _).
Qed.

Lemma wf_entry c e it :
  wf c → e ∈ evictList c → heap c !! e = Some it → entry c (key it) = Some it.
Proof.
  intros Hwf Hin Hh. destruct (wf_list c Hwf e Hin) as (it' & Hh' & Hk).
  rewrite Hh in Hh'. injection Hh' as <-. apply entry_Some. by exists e.
Qed.

Lemma wf_entry_inv c k it :
  wf c → entry c k = Some it →
  ∃ e, items c !! k = Some e ∧ e ∈ evictList c ∧ heap c !! e = Some it ∧ key it = k.
Proof.
  intros Hwf (e & Hk & Hh)%entry_Some.
  destruct (wf_items c Hwf _ _ Hk) as (Hin & it' & Hh' & Hki).
  rewrite Hh in Hh'. injection Hh' as <-. by exists e.
Qed.

(** C1. If the index does not hold [k], or holds an entry that has expired at
    the instant of the call, [Get] returns [(nil, false)] and increments
    [Misses] by one, leaving the other counters alone, and [Peek] returns
    [(nil, false)]; neither removes anything: the index, the list and [Len]
    are what they were. *)
Theorem Get_Peek_miss now k c :
  items c !! k = None ∨
    (∃ it, entry c k = Some it ∧ Time_After now (expiresAt it) = true) →
  ∃ c', Get now k c = Some (None, false, c') ∧
        Peek now k c = Some (None, false) ∧
        Misses (Stat c') = GoInt.incr (Misses (Stat c)) ∧
        Hits (Stat c') = Hits (Stat c) ∧
        Added (Stat c') = Added (Stat c) ∧
        Evicted (Stat c') = Evicted (Stat c) ∧
        items c' = items c ∧ evictList c' = evictList c ∧ heap c' = heap c ∧
        Len c' = Len c.
Proof.
  intros Hmiss. exists (with_stat (incMisses (stat c)) c).
  split; [|split; [|by repeat split]].
  - destruct Hmiss as [Habs|(it & (ent & Hk & Hh)%entry_Some & Hexp)].
    + by apply Get_absent.
    + apply (Get_expired now k c ent it Hk Hh).
      unfold Time_After in Hexp. by apply bool_decide_eq_true in Hexp.
  - unfold Peek. destruct Hmiss as [->|(it & (ent & Hk & Hh)%entry_Some & Hexp)]; [done|].
    rewrite Hk. simpl. rewrite Hh. simpl. by rewrite Hexp.
Qed.

(** C7. Expiry is strict, in every operation that tests it. For an entry
    of the index and every instant [now]: [Get] and [Peek] miss exactly when
    [now > expiresAt], and otherwise return the value with [true];
    [DeleteExpired], all of whose clock readings are [now], removes the
    entry exactly when [now > expiresAt]; so does [removeOldestIfExpired]
    when the entry is the oldest one. In particular at [now = expiresAt]
    [Get] and [Peek] return the value with [true] and [DeleteExpired]
    leaves the entry in the index and in the list. *)
Theorem expiry_is_strict t k c it :
  reachable t c → entry c k = Some it →
  (∀ now, Time_After now (expiresAt it) = true ↔ now > expiresAt it) ∧
  (∀ now, ∃ r ok c',
     Get now k c = Some (r, ok, c') ∧ Peek now k c = Some (r, ok) ∧
     (ok = false ↔ now > expiresAt it) ∧ r = (if ok then value it else None)) ∧
  (∃ c', Get (expiresAt it) k c = Some (value it, true, c')) ∧
  Peek (expiresAt it) k c = Some (value it, true) ∧
  (∀ now tick, (∀ j, tick j = now) →
     ∃ c', DeleteExpired tick c = Some c' ∧
           (entry c' k = None ↔ now > expiresAt it) ∧
           (now <= expiresAt it →
            entry c' k = Some it ∧
            ∃ ent, items c' !! k = Some ent ∧ ent ∈ evictList c')) ∧
  (∀ tick, (∀ j, tick j = expiresAt it) →
     ∃ c' ent, DeleteExpired tick c = Some c' ∧ entry c' k = Some it ∧
               items c' !! k = Some ent ∧ ent ∈ evictList c') ∧
  (∀ now, GoList.Back (evictList c) = items c !! k →
     ∃ c', removeOldestIfExpired now c = Some c' ∧
           (entry c' k = None ↔ now > expiresAt it) ∧
           (now <= expiresAt it → c' = c)).
Proof.
  intros [Hinv Hcap]%reachable_inv Hent. pose proof (inv_wf _ _ Hinv) as Hwf.
  destruct (wf_entry_inv c k it Hwf Hent) as (e & Hk & Hin & Hh & Hki).
  assert (HDel : ∀ now tick, (∀ j, tick j = now) →
     ∃ c', DeleteExpired tick c = Some c' ∧
           (entry c' k = None ↔ now > expiresAt it) ∧
           (now <= expiresAt it →
            entry c' k = Some it ∧
            ∃ ent, items c' !! k = Some ent ∧ ent ∈ evictList c')).
  { intros now tick Htick.
    destruct (DeleteExpired_spec t tick now c Hinv Hcap)
      as (c' & Hc' & Hinv' & _ & _ & Hhp & Hnow & Hsub & Hkeep).
    { intros j. rewrite Htick. lia. }
    pose proof (inv_wf _ _ Hinv') as Hwf'.
    assert (Hstay : now <= expiresAt it →
              entry c' k = Some it ∧
              ∃ ent, items c' !! k = Some ent ∧ ent ∈ evictList c').
    { intros Hle.
      assert (Hin' : e ∈ evictList c').
      { apply (Hkeep e it Hin Hh). intros j. rewrite Htick. lia. }
      destruct (wf_list c' Hwf' e Hin') as (it' & Hh' & Hk').
      rewrite Hhp, Hh in Hh'. injection Hh' as <-. rewrite Hki in Hk'.
      split; [|by exists e]. apply entry_Some. exists e. by rewrite Hhp. }
    exists c'. split; [done|]. split; [|done]. split.
    - intros Hnone. destruct (decide (now <= expiresAt it)) as [Hle|Hgt]; [|lia].
      destruct (Hstay Hle) as [Hsome _]. congruence.
    - intros Hgt. destruct (entry c' k) as [it'|] eqn:Hent'; [|done]. exfalso.
      destruct (wf_entry_inv c' k it' Hwf' Hent') as (e' & Hk' & Hin' & Hh' & Hki').
      rewrite Hhp in Hh'. pose proof (Hnow e' it' Hin' Hh') as Hlive.
      destruct (wf_list c Hwf e' (Hsub e' Hin')) as (it'' & Hh'' & Hk'').
      rewrite Hh' in Hh''. injection Hh'' as <-. rewrite Hki', Hk in Hk''.
      injection Hk'' as ->. rewrite Hh in Hh'. injection Hh' as <-. lia. }
  split; [|split; [|split; [|split; [|split; [|split]]]]].
  - intros now. unfold Time_After. rewrite bool_decide_eq_true. lia.
  - intros now. destruct (decide (now <= expiresAt it)) as [Hle|Hgt].
    + exists (value it), true. eexists.
      split; [by apply (Get_live _ k c e it Hk Hh)|].
      split; [|split; [split; [done|lia]|done]].
      unfold Peek, Time_After. rewrite Hk. simpl. rewrite Hh. simpl.
      by rewrite bool_decide_eq_false_2 by lia.
    + exists None, false. eexists.
      split; [apply (Get_expired _ k c e it Hk Hh); lia|].
      split; [|split; [split; [lia|done]|done]].
      unfold Peek, Time_After. rewrite Hk. simpl. rewrite Hh. simpl.
      by rewrite bool_decide_eq_true_2 by lia.
  - eexists. apply (Get_live _ k c e it Hk Hh). lia.
  - unfold Peek, Time_After. rewrite Hk. simpl. rewrite Hh. simpl.
    by rewrite bool_decide_eq_false_2 by lia.
  - done.
  - intros tick Htick. destruct (HDel (expiresAt it) tick Htick) as (c' & Hc' & _ & Hstay).
    destruct Hstay as (Hsome & ent & ? & ?); [lia|]. by exists c', ent.
  - intros now Hback. rewrite Hk in Hback. unfold removeOldestIfExpired.
    rewrite Hback. rewrite Hh. simpl. unfold Time_After.
    case_bool_decide as Hexp.
    + destruct (removeElement_Some e it c Hh) as (c' & Hc' & Hr). exists c'.
      split; [done|]. split; [|lia]. split; [lia|]. intros _.
      destruct Hr as (_ & _ & Hi' & _). unfold entry. rewrite Hi', Hki.
      by rewrite lookup_delete_eq.
    + exists c. split; [done|]. split; [|done]. split; [|lia].
      intros Hnone. congruence.
Qed.

Lemma Forall2_filter_ne {A B : Type} `{EqDecision A, EqDecision B}
    (R : A → B → Prop) (l : list A) (ks : list B) (a : A) (b : B) :
  Forall2 R l ks →
  (∀ x y, x ∈ l → R x y → (x = a ↔ y = b)) →
  Forall2 R (filter (λ x, x ≠ a) l) (filter (λ y, y ≠ b) ks).
Proof.
  induction 1 as [|x y l ks HR HF IH]; intros Hinj; [constructor|].
  assert (Hrest : Forall2 R (filter (λ x, x ≠ a) l) (filter (λ y, y ≠ b) ks)).
  { apply IH. intros x' y' Hin. apply Hinj. by right. }
  destruct (Hinj x y) as [H1 H2]; [by left|done|].
  destruct (decide (x = a)) as [Hx|Hx].
  - rewrite filter_cons_False by (by intros ?).
    rewrite filter_cons_False by (intros Hy; by apply Hy, H1). done.
  - rewrite filter_cons_True by done.
    rewrite filter_cons_True by (intros Hy; by apply Hx, H2). by constructor.
Qed.

(** C5. A [Get] on a live key changes the order of [Keys()] as the mode
    dictates: in LRU mode the key moves to the last (newest) place and the
    other keys keep their order, in LRC mode the order is what it was. *)
Theorem Get_live_Keys_order t now k c it :
  reachable t c → entry c k = Some it → now <= expiresAt it →
  ∃ ks c', Keys c = Some ks ∧
           Get now k c = Some (value it, true, c') ∧
           Keys c' = Some (if isLRU c then filter (λ x, x ≠ k) ks ++ [k] else ks).
Proof.
  intros [Hinv Hcap]%reachable_inv Hent Hlive. pose proof (inv_wf _ _ Hinv) as Hwf.
  destruct (wf_entry_inv c k it Hwf Hent) as (e & Hk & Hin & Hh & Hki).
  destruct (wf_keys c Hwf) as (ks & Hks & Hf2).
  exists ks. eexists. split; [done|]. split; [by apply (Get_live now k c e it)|].
  unfold Keys, keys in *. destruct (isLRU c); simpl; [|done].
  rewrite MoveToFront_in by done. rewrite reverse_cons.
  apply mapM_Some. apply Forall2_app.
  - rewrite <- filter_reverse. apply Forall2_filter_ne; [done|].
    intros x y Hx Hxy. rewrite elem_of_reverse in Hx.
    destruct (wf_list c Hwf x Hx) as (itx & Hhx & Hkx).
    rewrite Hhx in Hxy. simpl in Hxy. injection Hxy as <-. split.
    + intros ->. rewrite Hh in Hhx. by injection Hhx as <-.
    + intros Hy. rewrite Hy, Hk in Hkx. by injection Hkx as <-.
  - constructor; [|constructor]. rewrite Hh. simpl. by rewrite Hki.
Qed.

(** C2. With [MaxKeys > 0], [Set] returns and leaves [Len() <= MaxKeys]. *)
Theorem Set_respects_MaxKeys t now now' k v c :
  reachable t c → 0 < maxKeys c → t <= now → now <= now' →
  ∃ c', Set_ now now' k v c = Some c' ∧ Len c' <= maxKeys c'.
Proof.
  intros [Hinv Hcap]%reachable_inv Hpos Ht Hn.
  destruct (Set_inv t now now' k v c Hinv Hcap Ht Hn) as (c' & Hc' & Hinv' & Hcap' & Hcfg).
  exists c'. split; [done|].
  destruct Hcfg as (_ & Hmk & _). unfold Len, GoList.Len, GoInt.len.
  pose proof (inv_maxKeys _ _ Hinv') as Hr.
  pose proof (wrap_bounds (Z.of_nat (length (evictList c')))) as Hw.
  unfold GoInt.in_range in *.
  destruct (decide (maxKeys c' = GoInt.max_int)) as [->|Hne]; [lia|].
  unfold capped in Hcap'. rewrite wrap_in_range.
  - apply Hcap'. lia.
  - unfold GoInt.in_range, GoInt.min_int in *. lia.
Qed.

(** C6. Between operations, [Stat().Added - Stat().Evicted == Len()]. The
    eviction primitive, through which the expiry trim, the size eviction,
    [Invalidate], [InvalidateFn], [RemoveOldest] and [DeleteExpired] remove,
    takes one entry off the list and adds one to [Evicted]; [Purge] adds to
    [Evicted] the number of entries it finds (the counters are Go [int]s,
    so modulo [2 ^ 64]) and empties the cache; [Set] on a key of the index
    leaves the counters alone. *)
Theorem Added_minus_Evicted_is_Len t c :
  reachable t c →
  GoInt.sub (Added (Stat c)) (Evicted (Stat c)) = Len c ∧
  (∀ e, e ∈ evictList c →
     ∃ c', removeElement e c = Some c' ∧
           Evicted (Stat c') = GoInt.incr (Evicted (Stat c)) ∧
           Added (Stat c') = Added (Stat c) ∧
           S (length (evictList c')) = length (evictList c)) ∧
  (∀ order, range_order c order →
     ∃ c', Purge_in order c = Some c' ∧ evictList c' = [] ∧ items c' = ∅ ∧
           GoInt.wrap (Evicted (Stat c')) =
             GoInt.wrap (Evicted (Stat c) + Z.of_nat (length (evictList c))) ∧
           Added (Stat c') = Added (Stat c)) ∧
  (∀ now now' k v, is_Some (items c !! k) →
     ∃ c', Set_ now now' k v c = Some c' ∧ Stat c' = Stat c).
Proof.
  intros [Hinv _]%reachable_inv. pose proof (inv_wf _ _ Hinv) as Hwf.
  split; [|split; [|split]].
  - unfold GoInt.sub, Len, GoList.Len, GoInt.len, Stat. apply congr_wrap_eq, Hinv.
  - intros e Hin. destruct (wf_list c Hwf e Hin) as (it & Hh & _).
    destruct (removeElement_Some e it c Hh) as (c' & Hc' & Hr). exists c'.
    split; [done|]. pose proof (removes_length _ _ _ _ Hwf Hin Hr) as Hlen.
    destruct Hr as (_ & _ & _ & _ & Hst & _). unfold Stat. rewrite Hst. by repeat split.
  - intros order Hord.
    destruct (Purge_in_inv t order c Hinv Hord) as (c' & Hc' & Hinv' & _ & _ & ? & ? & HE).
    exists c'. split; [done|]. split; [done|]. split; [done|].
    split; [by apply congr_wrap_eq|].
    unfold Purge_in in Hc'.
    destruct (range_order_facts c order Hord) as (Hnd & Hmem & _).
    destruct (Purge_loop_spec order c Hnd) as (c1 & Hc1 & _ & _ & _ & _ & _ & _ & _ & HA & _).
    { intros k0. apply Hmem. }
    { intros k0 e Hlk. destruct (wf_items c Hwf _ _ Hlk) as (_ & it & -> & _). by eexists. }
    rewrite Hc1 in Hc'. simpl in Hc'. injection Hc' as <-. done.
  - intros now now' k v [ent Hk].
    destruct (wf_items c Hwf _ _ Hk) as (_ & it & Hh & _).
    exists (refreshed now ent it v c). split; [by apply Set_existing_unfold|done].
Qed.

(** C3. After [DeleteExpired], called at the instant [now] (none of its clock
    readings is earlier), the cache holds no entry with [expiresAt < now],
    neither in the list nor in the index. This holds in LRU mode, where the
    loop goes through the whole list, and in LRC mode, where it stops at the
    first entry from the back that has not expired: there the list is in
    the order of I4, the expiry instants not decreasing from back to front. *)
Theorem DeleteExpired_removes_expired t now tick c :
  reachable t c → (∀ j, now <= tick j) →
  (isLRU c = false → expiry_sorted (heap c) (t + ttl c) (evictList c)) ∧
  ∃ c', DeleteExpired tick c = Some c' ∧
        (∀ e it, e ∈ evictList c' → heap c' !! e = Some it → ¬ expiresAt it < now) ∧
        (∀ k it, entry c' k = Some it → ¬ expiresAt it < now).
Proof.
  intros [Hinv Hcap]%reachable_inv Htick. split; [apply Hinv|].
  destruct (DeleteExpired_spec t tick now c Hinv Hcap Htick)
    as (c' & Hc' & Hinv' & _ & _ & Hhp & Hnow & _).
  exists c'. split; [done|].
  assert (Hlist : ∀ e it, e ∈ evictList c' → heap c' !! e = Some it → ¬ expiresAt it < now).
  { intros e it Hin Hh. rewrite Hhp in Hh. specialize (Hnow e it Hin Hh). lia. }
  split; [done|]. intros k it Hent.
  destruct (wf_entry_inv c' k it (inv_wf _ _ Hinv') Hent) as (e & _ & Hin & Hh & _).
  by apply (Hlist e it).
Qed.

(** The front element survives the removal of another element. *)
Lemma removes_keeps_front e it c c' k ent rest :
  wf c → evictList c = ent :: rest → e ∈ evictList c → e ≠ ent →
  items c !! k = Some ent → removes e it c c' →
  ∃ rest', evictList c' = ent :: rest' ∧ items c' !! k = Some ent ∧
           heap c' !! ent = heap c !! ent.
Proof.
  intros Hwf Hl Hin Hne Hk Hr.
  destruct (removes_wf _ _ _ _ Hwf Hin Hr) as (_ & _ & Hke).
  destruct Hr as (Hh & Hl' & Hi' & Hhp & _).
  exists (filter (λ x, x ≠ e) rest). split; [|split].
  - rewrite Hl', Hl. by rewrite filter_cons_True by (by intros ?).
  - rewrite Hi'. rewrite lookup_delete_ne; [done|].
    intros Heq. rewrite Heq, Hk in Hke. by injection Hke as ->.
  - by rewrite Hhp.
Qed.

Lemma back_is_front (l rest : list Element) e :
  NoDup (e :: rest) → e :: rest = l ++ [e] → rest = [] ∧ l = [].
Proof.
  intros [Hn _]%NoDup_cons Heq. destruct l as [|x l]; simpl in Heq.
  - injection Heq as <-. done.
  - injection Heq as <- ->. exfalso. apply Hn, elem_of_app_last.
Qed.

(** [Set] on a state that satisfies the invariants: when the entry it writes
    has not expired at the clock reading of the trim, it is at the front of
    the list when [Set] returns, and the index points to it. *)
Lemma Set_leaves_entry_at_front t now now' k v c :
  inv t c → t <= now → now <= now' → now' <= Time_Add now (ttl c) →
  ∃ c' ent rest it,
    Set_ now now' k v c = Some c' ∧ items c' !! k = Some ent ∧
    evictList c' = ent :: rest ∧ heap c' !! ent = Some it ∧
    key it = k ∧ value it = v ∧ expiresAt it = Time_Add now (ttl c).
Proof.
  intros Hinv Ht Hn Hlive. pose proof (inv_wf _ _ Hinv) as Hwf.
  destruct (items c !! k) as [ent|] eqn:Hk.
  - destruct (wf_items c Hwf _ _ Hk) as (Hin & it & Hh & Hki).
    exists (refreshed now ent it v c), ent. eexists _, _.
    split; [by apply Set_existing_unfold|]. simpl.
    rewrite MoveToFront_in by done. rewrite lookup_insert_eq. by repeat split.
  - rewrite Set_fresh_unfold by done.
    pose proof (pushed_inv t now k v c Hinv Ht Hk) as Hp.
    set (p := pushed now k v c) in *. set (ent := next c).
    set (new := mkItem (Time_Add now (ttl c)) k v).
    assert (Hlp : evictList p = ent :: evictList c) by done.
    assert (Hkp : items p !! k = Some ent) by (simpl; by rewrite lookup_insert_eq).
    assert (Hhp : heap p !! ent = Some new) by (simpl; by rewrite lookup_insert_eq).
    assert (∃ c2 rest2,
              (if bool_decide (ttl c ≠ noEvictionTTL)
               then removeOldestIfExpired now' p else Some p) = Some c2 ∧
              wf c2 ∧ maxKeys c2 = maxKeys c ∧ evictList c2 = ent :: rest2 ∧
              items c2 !! k = Some ent ∧ heap c2 !! ent = Some new)
      as (c2 & rest2 & -> & Hwf2 & Hmk2 & Hl2 & Hk2 & Hh2).
    { assert (Hskip : ∃ c2 rest2, Some p = Some c2 ∧
                wf c2 ∧ maxKeys c2 = maxKeys c ∧ evictList c2 = ent :: rest2 ∧
                items c2 !! k = Some ent ∧ heap c2 !! ent = Some new).
      { exists p, (evictList c). split; [done|]. split; [apply Hp|done]. }
      case_bool_decide; [|done].
      destruct (removeOldestIfExpired_spec now' p (inv_wf _ _ Hp))
        as [[-> _]|(l & e & it & c2 & Hl & -> & Hr & Hl2 & Hexp)]; [done|].
      assert (Hin : e ∈ evictList p) by (rewrite Hl; apply elem_of_app_last).
      assert (Hne : e ≠ ent).
      { intros ->. destruct Hr as (Hh & _). rewrite Hhp in Hh. injection Hh as <-.
        simpl in Hexp. lia. }
      destruct (removes_keeps_front e it p c2 k ent (evictList c)
                  (inv_wf _ _ Hp) Hlp Hin Hne Hkp Hr) as (rest2 & ? & ? & Hh2).
      exists c2, rest2. split; [done|].
      split; [eapply removes_wf; [apply Hp|done..]|].
      split; [by destruct Hr as (_ & _ & _ & _ & _ & _ & _ & -> & _)|].
      by rewrite Hh2. }
    simpl.
    destruct (bool_decide (0 < maxKeys c2) && bool_decide (maxKeys c2 < GoInt.len (size (items c2))))
      eqn:Hcond.
    + apply andb_true_iff in Hcond as [H0%bool_decide_eq_true Hlt%bool_decide_eq_true].
      destruct (removeOldest_spec c2 Hwf2)
        as [[Hnil _]|(l & e & it & c3 & Hl & -> & Hr & _)]; [by rewrite Hl2 in Hnil|].
      assert (Hin : e ∈ evictList c2) by (rewrite Hl; apply elem_of_app_last).
      assert (Hne : e ≠ ent).
      { intros ->. rewrite Hl2 in Hl.
        destruct (back_is_front l rest2 ent) as [-> ->]; [|done|].
        { rewrite <- Hl2. by destruct Hwf2. }
        rewrite (wf_size c2 Hwf2), Hl2 in Hlt. simpl in Hlt.
        unfold GoInt.len in Hlt. rewrite wrap_in_range in Hlt by (by vm_compute). lia. }
      destruct (removes_keeps_front e it c2 c3 k ent rest2 Hwf2 Hl2 Hin Hne Hk2 Hr)
        as (rest3 & ? & ? & Hh3).
      exists c3, ent, rest3, new. rewrite Hh3. by repeat split.
    + exists c2, ent, rest2, new. by repeat split.
Qed.

(** When the clock does not advance during the call, a TTL that is not
    negative is enough. *)
Lemma Set_at_one_instant_keeps_written_entry t now k v c :
  reachable t c → t <= now → 0 <= ttl c →
  ∃ c' ent, Set_ now now k v c = Some c' ∧ items c' !! k = Some ent ∧
            head (evictList c') = Some ent.
Proof.
  intros [Hinv _]%reachable_inv Ht Hpos.
  destruct (Set_leaves_entry_at_front t now now k v c Hinv Ht)
    as (c' & ent & rest & it & Hc' & Hk & Hl & _); [lia|unfold Time_Add; lia|].
  exists c', ent. rewrite Hl. by repeat split.
Qed.

End Claims.

Section AdapterClaims.

Context {K V : Type} `{EqDecision K} (zero : V).

(** C8. Whatever engine is behind the interface, the adapter's [Get] and
    [Peek] return the zero value of [V] with [false] when the engine reports
    [false], and the engine's value with [true] when it reports [true]. On a
    key that is present but expired the v3 engine returns the stored value
    with [false], and the adapter returns the zero value with [false]. *)
Theorem adapter_masks_value_when_absent :
  (∀ (S : Type) (core : @V2.Cache K V S) now key (c : S),
     V2.Get zero now key c =
       (let '(value, ok, c') := V2.Cache_Get now key c in
        (if ok then value else zero, ok, c')) ∧
     V2.Peek zero now key c =
       (let '(value, ok, c') := V2.Cache_Peek now key c in
        (if ok then value else zero, ok, c'))) ∧
  (∀ now (key : K) (s : V3.Cache K V) en,
     V3.index s key = Some en → V3.expired now en = true →
     ∃ s', V3.Get zero now key s = (V3.entry_value en, false, s') ∧
           V2.Get (Cache0 := V2.v3 zero) zero now key s = (zero, false, s') ∧
           V3.Peek zero now key s = (V3.entry_value en, false, s) ∧
           V2.Peek (Cache0 := V2.v3 zero) zero now key s = (zero, false, s)).
Proof.
  split.
  - intros S core now key c. unfold V2.Get, V2.Peek.
    destruct (V2.Cache_Get now key c) as [[value ok] c1].
    destruct (V2.Cache_Peek now key c) as [[value' ok'] c2].
    by destruct ok, ok'.
  - intros now key s en Hidx Hexp. eexists.
    unfold V2.Get, V2.Peek. simpl. unfold V3.Get, V3.Peek.
    rewrite Hidx, Hexp. simpl. by repeat split.
Qed.

End AdapterClaims.

(** * Decimal numerals and the printing verbs *)

Section Numerals.

Import Numeral.

Lemma read_digits_cons (a : ascii) (s : string) (acc d : Z) :
  digit_value a = Some d → read_digits (String a s) acc = read_digits s (10 * acc + d).
Proof. intros Hd. cbn [read_digits]. by rewrite Hd. Qed.

Lemma read_digits_acc (d : Decimal.uint) : ∀ acc : positive,
  read_digits (DecimalString.NilEmpty.string_of_uint d) (Z.pos acc) =
  Some (Z.pos (Pos.of_uint_acc d acc)).
Proof.
  induction d as [|d IH|d IH|d IH|d IH|d IH|d IH|d IH|d IH|d IH|d IH]; intros acc;
    [done|..];
    cbn [DecimalString.NilEmpty.string_of_uint Pos.of_uint_acc];
    erewrite read_digits_cons by (vm_compute; reflexivity);
    rewrite <- IH; f_equal; lia.
Qed.

Lemma read_digits_uint (d : Decimal.uint) :
  read_digits (DecimalString.NilEmpty.string_of_uint d) 0 = Some (Z.of_N (Pos.of_uint d)).
Proof.
  induction d as [|d IH|d IH|d IH|d IH|d IH|d IH|d IH|d IH|d IH|d IH];
    [done|..];
    cbn [DecimalString.NilEmpty.string_of_uint Pos.of_uint];
    erewrite read_digits_cons by (vm_compute; reflexivity);
    [exact IH|apply (read_digits_acc d)..].
Qed.


Lemma string_of_uint_nonnil (d : Decimal.uint) :
  d ≠ Decimal.Nil →
  DecimalString.NilZero.string_of_uint d = DecimalString.NilEmpty.string_of_uint d.
Proof. by destruct d. Qed.

Lemma to_uint_normal (p : positive) : Decimal.unorm (Pos.to_uint p) = Pos.to_uint p.
Proof.
  rewrite <- (DecimalPos.Unsigned.to_of (Pos.to_uint p)).
  by rewrite DecimalPos.Unsigned.of_to.
Qed.

(** The numeral of a positive number starts with a digit that is not 0. *)
Lemma to_uint_head (p : positive) :
  ∃ a s, DecimalString.NilEmpty.string_of_uint (Pos.to_uint p) = String a s ∧
         nonzero_digit a = true.
Proof.
  pose proof (to_uint_normal p) as Hn.
  pose proof (DecimalPos.Unsigned.to_uint_nonnil p) as Hnil.
  pose proof (DecimalPos.Unsigned.to_uint_nonzero p) as Hz.
  destruct (Pos.to_uint p) as [|u|u|u|u|u|u|u|u|u|u]; [done| |eexists _, _; (split; [reflexivity|done])..].
  exfalso. unfold Decimal.unorm in Hn. simpl in Hn.
  destruct (Decimal.nzhead u) eqn:Hu; try done.
  by apply DecimalFacts.nzhead_nonzero in Hu.
Qed.

Lemma read_nat_to_uint (p : positive) :
  read_nat (DecimalString.NilEmpty.string_of_uint (Pos.to_uint p)) = Some (Z.pos p).
Proof.
  destruct (to_uint_head p) as (a & s & Hs & _).
  unfold read_nat. rewrite Hs, <- Hs.
  rewrite read_digits_uint. by rewrite DecimalPos.Unsigned.of_to.
Qed.

Lemma itoa_pos (p : positive) :
  Fmt.itoa (Z.pos p) = DecimalString.NilEmpty.string_of_uint (Pos.to_uint p).
Proof.
  unfold Fmt.itoa. simpl.
  apply string_of_uint_nonnil, DecimalPos.Unsigned.to_uint_nonnil.
Qed.

Lemma itoa_neg (p : positive) :
  Fmt.itoa (Z.neg p) = String "-" (DecimalString.NilEmpty.string_of_uint (Pos.to_uint p)).
Proof.
  unfold Fmt.itoa. simpl. f_equal.
  apply string_of_uint_nonnil, DecimalPos.Unsigned.to_uint_nonnil.
Qed.

(** What [%d] prints is the decimal numeral of the number. *)
Lemma itoa_decimal_of (n : Z) : decimal_of n (Fmt.itoa n).
Proof.
  destruct n as [|p|p]; [done| |].
  - rewrite itoa_pos. destruct (to_uint_head p) as (a & s & Hs & Ha).
    pose proof (read_nat_to_uint p) as Hr. rewrite Hs in *.
    destruct a as [[] [] [] [] [] [] [] []]; vm_compute in Ha; try done;
      (split; [exact Hr|by vm_compute]).
  - rewrite itoa_neg. destruct (to_uint_head p) as (a & s & Hs & Ha).
    pose proof (read_nat_to_uint p) as Hr. rewrite Hs in *.
    split.
    + unfold read_int. by rewrite Hr.
    + done.
Qed.


Lemma read_digits_shape (s : string) : ∀ acc v,
  read_digits s acc = Some v → ∃ d, s = DecimalString.NilEmpty.string_of_uint d.
Proof.
  induction s as [|a s IH]; intros acc v Hr; [by exists Decimal.Nil|].
  cbn [read_digits] in Hr. destruct (digit_value a) as [k|] eqn:Hk; [|done].
  cbn [mbind option_bind] in Hr. destruct (IH _ _ Hr) as [d ->]. clear Hr IH.
  destruct a as [[] [] [] [] [] [] [] []]; vm_compute in Hk; try done;
    first [by exists (Decimal.D0 d)|by exists (Decimal.D1 d)|by exists (Decimal.D2 d)
          |by exists (Decimal.D3 d)|by exists (Decimal.D4 d)|by exists (Decimal.D5 d)
          |by exists (Decimal.D6 d)|by exists (Decimal.D7 d)|by exists (Decimal.D8 d)
          |by exists (Decimal.D9 d)].
Qed.

Lemma nonzero_digit_head (a : ascii) :
  nonzero_digit a = true → a ≠ "-"%char ∧ a ≠ "0"%char.
Proof.
  intros Ha. destruct a as [[] [] [] [] [] [] [] []]; vm_compute in Ha; try done;
    by split.
Qed.

Lemma read_int_unsigned (a : ascii) (s : string) :
  a ≠ "-"%char → read_int (String a s) = read_nat (String a s).
Proof. by destruct a as [[] [] [] [] [] [] [] []]. Qed.

Lemma canonical_cases (s : string) :
  canonical s = true →
  s = "0"%string ∨
  (∃ a s', s = String a s' ∧ nonzero_digit a = true) ∨
  (∃ a s', s = String "-" (String a s') ∧ nonzero_digit a = true).
Proof.
  destruct s as [|a s]; [done|]. intros Hc.
  destruct (ascii_dec a "0") as [->|H0].
  { destruct s; [by left|done]. }
  destruct (ascii_dec a "-") as [->|Hm].
  { destruct s as [|b s]; [done|]. right. right. by exists b, s. }
  right. left. exists a, s. split; [done|].
  destruct a as [[] [] [] [] [] [] [] []]; done.
Qed.

(** A string of digits whose first digit is not 0 is the numeral of the
    number it reads as. *)
Lemma read_nat_numeral (a : ascii) (s : string) (v : Z) :
  nonzero_digit a = true → read_nat (String a s) = Some v →
  ∃ p, v = Z.pos p ∧
       String a s = DecimalString.NilEmpty.string_of_uint (Pos.to_uint p).
Proof.
  intros Ha Hr. destruct (nonzero_digit_head a Ha) as [_ H0].
  unfold read_nat in Hr. destruct (read_digits_shape _ _ _ Hr) as [d Hd].
  rewrite Hd, read_digits_uint in Hr. injection Hr as <-.
  pose proof (DecimalPos.Unsigned.to_of d) as Hto.
  destruct d as [|u|u|u|u|u|u|u|u|u|u]; [done|by injection Hd as -> _|..];
    simpl in Hto |- *; eexists; (split; [reflexivity|]); by rewrite Hto.
Qed.

(** The decimal numeral of a number is what [%d] prints, and nothing else. *)
Lemma decimal_of_itoa (n : Z) (s : string) : decimal_of n s → s = Fmt.itoa n.
Proof.
  intros [Hr Hc].
  destruct (canonical_cases s Hc) as [->|[(a & s' & -> & Ha)|(a & s' & -> & Ha)]].
  - by injection Hr as <-.
  - destruct (nonzero_digit_head a Ha) as [Hm _].
    rewrite read_int_unsigned in Hr by done.
    destruct (read_nat_numeral a s' n Ha Hr) as (p & -> & ->). by rewrite itoa_pos.
  - unfold read_int in Hr.
    destruct (read_nat (String a s')) as [v|] eqn:Hv; [|done].
    simpl in Hr. injection Hr as <-.
    destruct (read_nat_numeral a s' v Ha Hv) as (p & -> & ->).
    change (- Z.pos p) with (Z.neg p). by rewrite itoa_neg.
Qed.


Lemma tenths_nearest (m : positive) (e : Z) :
  0 <= Float64.tenths m e ∧ nearest_tenths m e (Float64.tenths m e).
Proof.
  unfold Float64.tenths, nearest_tenths. case_bool_decide as He.
  - rewrite (Z.max_l 0 (- e)), (Z.max_r 0 e) by lia.
    pose proof (Z.pow_pos_nonneg 2 e). split; [nia|]. split; [lia|lia].
  - rewrite (Z.max_r 0 (- e)), (Z.max_l 0 e) by lia.
    assert (Hd : 0 < 2 ^ (- e)) by (apply Z.pow_pos_nonneg; lia).
    set (d := 2 ^ (- e)) in *. rewrite Z.mul_1_r.
    pose proof (Z.div_mod (10 * Z.pos m) d) as Hdm.
    pose proof (Z.mod_pos_bound (10 * Z.pos m) d Hd) as Hr.
    assert (Hq : 0 <= 10 * Z.pos m / d) by (apply Z.div_pos; lia).
    set (q := 10 * Z.pos m / d) in *. set (r := (10 * Z.pos m) mod d) in *.
    assert (Hv : 10 * Z.pos m = q * d + r) by lia.
    destruct (Z.compare_spec (2 * r) d) as [Heq|Hlt|Hgt].
    + destruct (Z.even q) eqn:Hev.
      * split; [done|]. split; [lia|done].
      * split; [lia|]. replace ((q + 1) * d) with (q * d + d) by ring.
        split; [lia|]. intros _. rewrite Z.add_1_r, Z.even_succ.
        by rewrite <- Z.negb_even, Hev.
    + split; [done|]. split; lia.
    + split; [lia|]. replace ((q + 1) * d) with (q * d + d) by ring. split; lia.
Qed.

Lemma nearest_tenths_unique (m : positive) (e n n' : Z) :
  nearest_tenths m e n → nearest_tenths m e n' → n = n'.
Proof.
  unfold nearest_tenths.
  assert (Hd : 0 < 2 ^ Z.max 0 (- e)) by (apply Z.pow_pos_nonneg; lia).
  set (d := 2 ^ Z.max 0 (- e)) in *. set (v := 10 * Z.pos m * 2 ^ Z.max 0 e).
  intros [H1 E1] [H2 E2].
  assert (Hclose : n = n' ∨ n = n' + 1 ∨ n' = n + 1) by nia.
  destruct Hclose as [?|[-> | ->]]; [done|exfalso..].
  - replace ((n' + 1) * d) with (n' * d + d) in * by ring.
    assert (Z.even (n' + 1) = true) by (apply E1; lia).
    assert (Z.even n' = true) by (apply E2; lia).
    rewrite Z.add_1_r, Z.even_succ, <- Z.negb_even in *. by destruct (Z.even n').
  - replace ((n + 1) * d) with (n * d + d) in * by ring.
    assert (Z.even (n + 1) = true) by (apply E2; lia).
    assert (Z.even n = true) by (apply E1; lia).
    rewrite Z.add_1_r, Z.even_succ, <- Z.negb_even in *. by destruct (Z.even n).
Qed.

Lemma digit_cases (r : Z) :
  0 <= r <= 9 →
  r = 0 ∨ r = 1 ∨ r = 2 ∨ r = 3 ∨ r = 4 ∨ r = 5 ∨ r = 6 ∨ r = 7 ∨ r = 8 ∨ r = 9.
Proof. lia. Qed.

(** One digit: the string of length one that reads as [r]. *)
Lemma one_digit (r : Z) (frac : string) :
  0 <= r <= 9 →
  (read_int frac = Some r ∧ String.length frac = 1%nat) ↔ frac = Fmt.itoa r.
Proof.
  intros Hr. split.
  - intros [Hread Hlen]. destruct frac as [|a [|b frac]]; [done| |done].
    destruct a as [[] [] [] [] [] [] [] []]; vm_compute in Hread; try done;
      by injection Hread as <-.
  - intros ->.
    destruct (digit_cases r Hr) as [->|[->|[->|[->|[->|[->|[->|[->|[->| ->]]]]]]]]];
      by vm_compute.
Qed.

(** What [%0.1f] prints is the value with one decimal digit, and nothing
    else. *)
Lemma f1_one_decimal (x : SpecFloat.spec_float) (s : string) :
  one_decimal x s ↔ s = Fmt.f1 x.
Proof.
  destruct x as [sign|sign| |sign m e]; try done.
  destruct (tenths_nearest m e) as [Hpos Hnear].
  assert (Hfrac : 0 <= Float64.tenths m e mod 10 <= 9).
  { pose proof (Z.mod_pos_bound (Float64.tenths m e) 10). lia. }
  unfold one_decimal, Fmt.f1. split.
  - intros (n & whole & frac & Hn & Hnn & Hwhole & Hread & Hlen & ->).
    rewrite (nearest_tenths_unique m e n _ Hnn Hnear) in *.
    apply decimal_of_itoa in Hwhole as ->.
    by rewrite (proj1 (one_digit _ frac Hfrac) (conj Hread Hlen)).
  - intros ->. eexists _, _, _. split; [done|]. split; [done|].
    split; [apply itoa_decimal_of|].
    destruct (proj2 (one_digit _ _ Hfrac) eq_refl) as [? ?]. by repeat split.
Qed.

End Numerals.

Section Rendering.

Context {V : Type}.

Open Scope string_scope.

Lemma append_assoc (s1 s2 s3 : string) : (s1 ++ s2) ++ s3 = s1 ++ s2 ++ s3.
Proof.
  induction s1 as [|ch s1 IH]; [done|].
  change (String ch ((s1 ++ s2) ++ s3) = String ch (s1 ++ s2 ++ s3)).
  f_equal. apply IH.
Qed.

Lemma add_zero_nonneg h m :
  0 <= h <= GoInt.max_int → 0 <= m <= GoInt.max_int → GoInt.add h m = 0 →
  h = 0 ∧ m = 0.
Proof.
  unfold GoInt.add, GoInt.wrap, GoInt.max_int. intros Hh Hm Hadd.
  assert (h + m = 0); [|lia].
  destruct (decide (h + m < 2 ^ 63)).
  - rewrite Z.mod_small in Hadd; lia.
  - replace (h + m + 2 ^ 63) with (h + m - 2 ^ 63 + 1 * 2 ^ 64) in Hadd by lia.
    rewrite Z.mod_add in Hadd by lia. rewrite Z.mod_small in Hadd; lia.
Qed.

(** C9, amended. [String()] renders
    [Size: {len}, Stats: {Hits:{h} Misses:{m} Added:{a} Evicted:{e}} ({hit_pct}%)]:
    each of the five numbers as its decimal numeral, and [hit_pct] as
    [100 * h / (h + m)], computed in binary64, with one decimal digit, the
    nearest one, or [NaN], [+Inf] or [-Inf] when the quotient is not a
    number. The numerals and the one-decimal rendering are stated by
    reading the text back, and they are what [%d] and [%0.1f] print and
    nothing else. When [h = 0] and [h + m = 0] the percentage is [NaN]; for
    counters that have not wrapped around this is every case of
    [h + m = 0]. *)
Theorem String_renders (c : loadingCacheImpl V) :
  (∃ size hits misses added evicted pct,
     Numeral.decimal_of (Len c) size ∧
     Numeral.decimal_of (Hits (Stat c)) hits ∧
     Numeral.decimal_of (Misses (Stat c)) misses ∧
     Numeral.decimal_of (Added (Stat c)) added ∧
     Numeral.decimal_of (Evicted (Stat c)) evicted ∧
     Numeral.one_decimal (Numeral.hit_ratio (Hits (Stat c)) (Misses (Stat c))) pct ∧
     String_ c =
       Some ("Size: " ++ size ++ ", Stats: {Hits:" ++ hits ++ " Misses:" ++ misses ++
             " Added:" ++ added ++ " Evicted:" ++ evicted ++ "} (" ++ pct ++ "%)")) ∧
  (∀ n s, Numeral.decimal_of n s ↔ s = Fmt.itoa n) ∧
  (∀ x s, Numeral.one_decimal x s ↔ s = Fmt.f1 x) ∧
  String_ c =
    Some ("Size: " ++ Fmt.itoa (Len c) ++
          ", Stats: {Hits:" ++ Fmt.itoa (Hits (Stat c)) ++
          " Misses:" ++ Fmt.itoa (Misses (Stat c)) ++
          " Added:" ++ Fmt.itoa (Added (Stat c)) ++
          " Evicted:" ++ Fmt.itoa (Evicted (Stat c)) ++
          "} (" ++ hit_pct (Hits (Stat c)) (Misses (Stat c)) ++ "%)") ∧
  (Hits (Stat c) = 0 → GoInt.add (Hits (Stat c)) (Misses (Stat c)) = 0 →
   hit_pct (Hits (Stat c)) (Misses (Stat c)) = "NaN" ∧
   String_ c =
     Some ("Size: " ++ Fmt.itoa (Len c) ++
           ", Stats: {Hits:0 Misses:" ++ Fmt.itoa (Misses (Stat c)) ++
           " Added:" ++ Fmt.itoa (Added (Stat c)) ++
           " Evicted:" ++ Fmt.itoa (Evicted (Stat c)) ++ "} (NaN%)")) ∧
  (0 <= Hits (Stat c) <= GoInt.max_int → 0 <= Misses (Stat c) <= GoInt.max_int →
   GoInt.add (Hits (Stat c)) (Misses (Stat c)) = 0 →
   hit_pct (Hits (Stat c)) (Misses (Stat c)) = "NaN" ∧
   String_ c =
     Some ("Size: " ++ Fmt.itoa (Len c) ++
           ", Stats: {Hits:0 Misses:0" ++
           " Added:" ++ Fmt.itoa (Added (Stat c)) ++
           " Evicted:" ++ Fmt.itoa (Evicted (Stat c)) ++ "} (NaN%)")).
Proof.
  assert (Hrender :
    String_ c =
      Some ("Size: " ++ Fmt.itoa (Len c) ++
            ", Stats: {Hits:" ++ Fmt.itoa (Hits (Stat c)) ++
            " Misses:" ++ Fmt.itoa (Misses (Stat c)) ++
            " Added:" ++ Fmt.itoa (Added (Stat c)) ++
            " Evicted:" ++ Fmt.itoa (Evicted (Stat c)) ++
            "} (" ++ hit_pct (Hits (Stat c)) (Misses (Stat c)) ++ "%)")).
  { unfold String_.
    cbn [Fmt.Sprintf fmap option_fmap option_map].
    unfold Fmt.plus_v_Stats, hit_pct. rewrite !append_assoc. reflexivity. }
  assert (Hnan : Hits (Stat c) = 0 → GoInt.add (Hits (Stat c)) (Misses (Stat c)) = 0 →
                 hit_pct (Hits (Stat c)) (Misses (Stat c)) = "NaN").
  { intros Hh Hsum. unfold hit_pct. rewrite Hsum, Hh. by vm_compute. }
  split; [|split; [|split; [|split; [done|split]]]].
  - exists (Fmt.itoa (Len c)), (Fmt.itoa (Hits (Stat c))), (Fmt.itoa (Misses (Stat c))),
      (Fmt.itoa (Added (Stat c))), (Fmt.itoa (Evicted (Stat c))),
      (hit_pct (Hits (Stat c)) (Misses (Stat c))).
    do 5 (split; [apply itoa_decimal_of|]). split; [|done].
    apply f1_one_decimal. reflexivity.
  - intros n s. split; [apply decimal_of_itoa|intros ->; apply itoa_decimal_of].
  - apply f1_one_decimal.
  - intros Hh Hsum. split; [by apply Hnan|].
    rewrite Hrender, (Hnan Hh Hsum), Hh. reflexivity.
  - intros Hh Hm Hsum.
    destruct (add_zero_nonneg _ _ Hh Hm Hsum) as [Hh0 Hm0].
    split; [by apply Hnan|].
    rewrite Hrender, (Hnan Hh0 Hsum), Hh0, Hm0. reflexivity.
Qed.

Close Scope string_scope.

End Rendering.

(** * Further properties of the engine *)

Section MoreProperties.

Context {V : Type}.
Implicit Types (c : loadingCacheImpl V) (it : cacheItem V) (e : Element) (k : string).

(** ** [Keys] *)

Lemma Forall2_elem_of_r {A B : Type} (R : A → B → Prop) (l : list A) (ks : list B) y :
  Forall2 R l ks → y ∈ ks → ∃ x, x ∈ l ∧ R x y.
Proof.
  induction 1 as [|x y' l ks HR HF IH]; [by intros ?%elem_of_nil|].
  intros [->|Hin]%elem_of_cons.
  - exists x. split; [by left|done].
  - destruct (IH Hin) as (x' & ? & ?). exists x'. split; [by right|done].
Qed.

Lemma Forall2_elem_of_l {A B : Type} (R : A → B → Prop) (l : list A) (ks : list B) x :
  Forall2 R l ks → x ∈ l → ∃ y, y ∈ ks ∧ R x y.
Proof.
  induction 1 as [|x' y l ks HR HF IH]; [by intros ?%elem_of_nil|].
  intros [->|Hin]%elem_of_cons.
  - exists y. split; [by left|done].
  - destruct (IH Hin) as (y' & ? & ?). exists y'. split; [by right|done].
Qed.

Lemma Forall2_NoDup {A B : Type} (R : A → B → Prop) (l : list A) (ks : list B) :
  Forall2 R l ks → NoDup l →
  (∀ x1 x2 y, x1 ∈ l → x2 ∈ l → R x1 y → R x2 y → x1 = x2) →
  NoDup ks.
Proof.
  induction 1 as [|x y l ks HR HF IH]; intros Hnd Hinj; [apply NoDup_nil_2|].
  apply NoDup_cons in Hnd as [Hx Hnd]. apply NoDup_cons. split.
  - intros Hy. destruct (Forall2_elem_of_r R l ks y HF Hy) as (x' & Hx' & HR').
    assert (x = x') as -> by (apply (Hinj x x' y); [by left|by right|done..]). done.
  - apply IH; [done|]. intros x1 x2 y' H1 H2. apply Hinj; by right.
Qed.

Lemma keys_Forall2 c ks :
  keys c = Some ks ↔
  Forall2 (λ e k, key <$> heap c !! e = Some k) (reverse (evictList c)) ks.
Proof. unfold keys. apply mapM_Some. Qed.

Lemma wf_key_inj c e1 e2 k :
  wf c → e1 ∈ evictList c → e2 ∈ evictList c →
  key <$> heap c !! e1 = Some k → key <$> heap c !! e2 = Some k → e1 = e2.
Proof.
  intros Hwf H1 H2 Hk1 Hk2.
  destruct (wf_list c Hwf e1 H1) as (it1 & Hh1 & Hi1).
  destruct (wf_list c Hwf e2 H2) as (it2 & Hh2 & Hi2).
  rewrite Hh1 in Hk1. rewrite Hh2 in Hk2. simpl in *.
  injection Hk1 as Hk1. injection Hk2 as Hk2. rewrite Hk1 in Hi1. rewrite Hk2 in Hi2.
  rewrite Hi1 in Hi2. by injection Hi2.
Qed.

Lemma wf_Keys c ks :
  wf c → Keys c = Some ks →
  NoDup ks ∧ length ks = length (evictList c) ∧
  ∀ k, k ∈ ks ↔ is_Some (items c !! k).
Proof.
  intros Hwf Hks. apply keys_Forall2 in Hks. split; [|split].
  - eapply Forall2_NoDup; [done| |].
    + rewrite reverse_Permutation. apply Hwf.
    + intros x1 x2 y H1 H2. rewrite elem_of_reverse in H1. rewrite elem_of_reverse in H2.
      by apply wf_key_inj.
  - apply Forall2_length in Hks. by rewrite length_reverse in Hks.
  - intros k. split.
    + intros Hin. destruct (Forall2_elem_of_r _ _ _ _ Hks Hin) as (e & He & HR).
      rewrite elem_of_reverse in He.
      destruct (wf_list c Hwf e He) as (it & Hh & Hi).
      rewrite Hh in HR. simpl in HR. injection HR as <-. by eexists.
    + intros [e He]. destruct (wf_items c Hwf _ _ He) as (Hin & it & Hh & Hk).
      destruct (Forall2_elem_of_l _ _ _ e Hks) as (y & Hy & HR).
      { by rewrite elem_of_reverse. }
      rewrite Hh in HR. simpl in HR. injection HR as <-. by rewrite <- Hk.
Qed.

(** X1. [Keys()] lists every key of the index exactly once, expired or not,
    and [Len()] is the number of keys it lists. *)
Theorem Keys_lists_the_index t c :
  reachable t c →
  ∃ ks, Keys c = Some ks ∧ NoDup ks ∧ Len c = GoInt.len (length ks) ∧
        ∀ k, k ∈ ks ↔ is_Some (items c !! k).
Proof.
  intros [Hinv _]%reachable_inv. pose proof (inv_wf _ _ Hinv) as Hwf.
  destruct (wf_keys c Hwf) as (ks & Hks & _). exists ks.
  destruct (wf_Keys c ks Hwf Hks) as (Hnd & Hlen & Hmem).
  split; [done|]. split; [done|]. split; [|done].
  unfold Len, GoList.Len. by rewrite Hlen.
Qed.

Lemma Peek_Get_fst now k c : Peek now k c = fst <$> Get now k c.
Proof.
  unfold Peek, Get. destruct (items c !! k) as [ent|]; [|done]. simpl.
  destruct (heap c !! ent) as [it|]; [|done]. simpl.
  by destruct (Time_After now (expiresAt it)).
Qed.

(** X2. [Peek] returns the value and the flag [Get] returns at the same
    instant, in every state; in particular it panics exactly when [Get]
    does. *)
Theorem Peek_returns_what_Get_returns now k c :
  Peek now k c = fst <$> Get now k c.
Proof. apply Peek_Get_fst. Qed.

(** ** The effect of a removal on [Keys] and on the entries *)

Lemma filter_ext_in {A : Type} (P Q : A → Prop) `{!∀ x, Decision (P x), !∀ x, Decision (Q x)}
    (l : list A) :
  (∀ x, x ∈ l → (P x ↔ Q x)) → filter P l = filter Q l.
Proof.
  induction l as [|x l IH]; [done|]. intros Hext.
  assert (filter P l = filter Q l) as Hrest.
  { apply IH. intros y Hy. apply Hext. by right. }
  destruct (Hext x) as [H1 H2]; [by left|].
  destruct (decide (P x)) as [HP|HP].
  - rewrite !filter_cons_True by auto. by rewrite Hrest.
  - rewrite !filter_cons_False by auto. done.
Qed.

Lemma filter_ne_id {A : Type} `{EqDecision A} (l : list A) (a : A) :
  a ∉ l → filter (λ x, x ≠ a) l = l.
Proof.
  induction l as [|x l IH]; [done|].
  intros [Hne Hn]%not_elem_of_cons.
  rewrite filter_cons_True by (by intros ->). by rewrite IH.
Qed.

Lemma entry_None_items c k : items c !! k = None → entry c k = None.
Proof. intros H. unfold entry. by rewrite H. Qed.

Lemma removes_keys e it c c' ks :
  wf c → e ∈ evictList c → removes e it c c' → keys c = Some ks →
  keys c' = Some (filter (λ x, x ≠ key it) ks).
Proof.
  intros Hwf Hin (Hh & Hl & _ & Hhp & _) Hks. apply keys_Forall2 in Hks.
  apply keys_Forall2. rewrite Hl, Hhp, <- filter_reverse.
  apply Forall2_filter_ne; [done|].
  intros x y Hx HR. rewrite elem_of_reverse in Hx. split.
  - intros ->. rewrite Hh in HR. simpl in HR. by injection HR as <-.
  - intros ->. apply (wf_key_inj c x e (key it)); [done..|]. by rewrite Hh.
Qed.

Lemma removes_entry e it c c' :
  wf c → e ∈ evictList c → removes e it c c' →
  entry c (key it) = Some it ∧ entry c' (key it) = None ∧
  ∀ k, k ≠ key it → entry c' k = entry c k.
Proof.
  intros Hwf Hin Hr. pose proof (removes_wf _ _ _ _ Hwf Hin Hr) as (_ & _ & Hk).
  destruct Hr as (Hh & _ & Hi & Hhp & _). split; [|split].
  - apply entry_Some. by exists e.
  - apply entry_None_items. rewrite Hi. apply lookup_delete_eq.
  - intros k Hne. unfold entry. rewrite Hi, Hhp. by rewrite lookup_delete_ne.
Qed.

Lemma removeElement_notified e it c c' :
  removeElement e c = Some c' → heap c !! e = Some it →
  notified c' = if onEvicted c then notified c ++ [(key it, value it)] else notified c.
Proof.
  unfold removeElement. intros H Hh. rewrite Hh in H. simpl in H. injection H as <-.
  unfold notify. simpl. by destruct (onEvicted c).
Qed.

(** Everything the eviction primitive does to a well-formed cache. *)
Lemma removeElement_effect e c ks :
  wf c → e ∈ evictList c → keys c = Some ks →
  ∃ it c', removeElement e c = Some c' ∧ removes e it c c' ∧ wf c' ∧
           entry c (key it) = Some it ∧
           keys c' = Some (filter (λ x, x ≠ key it) ks) ∧
           entry c' (key it) = None ∧
           (∀ k, k ≠ key it → entry c' k = entry c k) ∧
           stat c' = incEvicted (stat c) ∧
           notified c' =
             if onEvicted c then notified c ++ [(key it, value it)] else notified c.
Proof.
  intros Hwf Hin Hks. destruct (wf_list c Hwf e Hin) as (it & Hh & _).
  destruct (removeElement_Some e it c Hh) as (c' & Hc' & Hr).
  destruct (removes_entry e it c c' Hwf Hin Hr) as (? & ? & ?).
  exists it, c'. split; [done|]. split; [done|].
  split; [by destruct (removes_wf _ _ _ _ Hwf Hin Hr)|]. split; [done|].
  split; [by eapply removes_keys|]. split; [done|]. split; [done|].
  split; [by destruct Hr as (_ & _ & _ & _ & ? & _)|].
  by eapply removeElement_notified.
Qed.

(** ** [Invalidate] *)

(** X3. [Invalidate(k)] takes [k], and nothing else, out of the cache: it is
    gone from [Keys()], whose order is otherwise kept, and from the index;
    the other entries are untouched. When [k] was there, the eviction is
    counted and the callback is called with the key and its value, even if
    the entry had expired; when it was not, nothing changes at all. A second
    [Invalidate(k)] changes nothing. *)
Theorem Invalidate_removes_the_key t k c :
  reachable t c →
  ∃ ks c', Keys c = Some ks ∧ Invalidate k c = Some c' ∧
           Keys c' = Some (filter (λ x, x ≠ k) ks) ∧
           entry c' k = None ∧ (∀ k', k' ≠ k → entry c' k' = entry c k') ∧
           Invalidate k c' = Some c' ∧
           match entry c k with
           | Some it =>
               Stat c' = incEvicted (Stat c) ∧
               notified c' =
                 if onEvicted c then notified c ++ [(k, value it)] else notified c
           | None => c' = c
           end.
Proof.
  intros [Hinv _]%reachable_inv. pose proof (inv_wf _ _ Hinv) as Hwf.
  destruct (wf_keys c Hwf) as (ks & Hks & _). exists ks. unfold Invalidate.
  destruct (items c !! k) as [ent|] eqn:Hk.
  - destruct (wf_items c Hwf _ _ Hk) as (Hin & it0 & Hh0 & Hk0).
    destruct (removeElement_effect ent c ks Hwf Hin Hks)
      as (it & c' & Hc' & Hr & Hwf' & Hent & Hks' & Hnone & Hoth & Hst & Hnot).
    assert (it = it0) as ->.
    { destruct Hr as (Hh & _). rewrite Hh0 in Hh. by injection Hh. }
    rewrite Hk0 in *. exists c'. split; [done|]. split; [done|]. split; [done|].
    split; [done|]. split; [done|]. split.
    + destruct Hr as (_ & _ & Hi & _). rewrite Hi, Hk0, lookup_delete_eq. done.
    + by rewrite Hent.
  - exists c. split; [done|]. split; [done|].
    assert (k ∉ ks) as Hnin.
    { intros Hin. apply (wf_Keys c ks Hwf Hks) in Hin as [? Hin]. congruence. }
    rewrite filter_ne_id by done. split; [done|].
    split; [by apply entry_None_items|]. split; [done|].
    rewrite Hk. split; [done|]. by rewrite entry_None_items.
Qed.

(** ** [RemoveOldest] *)

(** X4. [RemoveOldest()] removes the first key of [Keys()], whatever its
    expiry, counts the eviction and calls the callback; on an empty cache it
    changes nothing, the counters included. *)
Theorem RemoveOldest_removes_first_key t c :
  reachable t c →
  ∃ ks c', Keys c = Some ks ∧ RemoveOldest c = Some c' ∧ Keys c' = Some (tail ks) ∧
           match ks with
           | [] => c' = c
           | k :: _ =>
               entry c' k = None ∧ (∀ k', k' ≠ k → entry c' k' = entry c k') ∧
               Stat c' = incEvicted (Stat c) ∧
               ∃ it, entry c k = Some it ∧
                     notified c' =
                       if onEvicted c then notified c ++ [(k, value it)] else notified c
           end.
Proof.
  intros [Hinv _]%reachable_inv. pose proof (inv_wf _ _ Hinv) as Hwf.
  destruct (wf_keys c Hwf) as (ks & Hks & Hf2). exists ks.
  unfold RemoveOldest, removeOldest, GoList.Back.
  destruct (last (evictList c)) as [e|] eqn:Hlast.
  - apply last_Some in Hlast as [l Hl].
    assert (Hin : e ∈ evictList c) by (rewrite Hl; apply elem_of_app_last).
    destruct (removeElement_effect e c ks Hwf Hin Hks)
      as (it & c' & Hc' & Hr & Hwf' & Hent & Hks' & Hnone & Hoth & Hst & Hnot).
    rewrite Hl, reverse_snoc in Hf2.
    apply Forall2_cons_inv_l in Hf2 as (k & ks' & HR & Hf2 & ->).
    destruct Hr as (Hh & _). rewrite Hh in HR. simpl in HR. injection HR as <-.
    exists c'. split; [done|]. split; [done|]. split.
    + unfold Keys. rewrite Hks'. f_equal. rewrite filter_cons_False by (by intros ?). simpl.
      apply filter_ne_id.
      destruct (wf_Keys c _ Hwf Hks) as (Hnd & _). by apply NoDup_cons in Hnd as [? _].
    + split; [done|]. split; [done|]. split; [done|]. by exists it.
  - apply last_None in Hlast. rewrite Hlast in Hf2. apply Forall2_nil_inv_l in Hf2 as ->.
    exists c. by repeat split.
Qed.

(** ** [InvalidateFn] *)

(** The loop of [InvalidateFn] over any list of keys. *)
Lemma InvalidateFn_in_effect fn order : ∀ c ks,
  wf c → keys c = Some ks →
  ∃ c', InvalidateFn_in order fn c = Some c' ∧ wf c' ∧
        keys c' = Some (filter (λ k, ¬ (fn k = true ∧ k ∈ order)) ks) ∧
        ∀ k, entry c' k =
             if bool_decide (fn k = true ∧ k ∈ order) then None else entry c k.
Proof.
  unfold InvalidateFn_in.
  induction order as [|k order IH]; intros c ks Hwf Hks.
  - exists c. split; [done|]. split; [done|]. split.
    + rewrite Hks. f_equal. symmetry. transitivity (filter (λ _ : string, True) ks).
      * apply filter_ext_in. intros x _. split; [done|]. intros _ [_ ?%elem_of_nil]. done.
      * clear. induction ks as [|x ks IH]; [done|].
        rewrite filter_cons_True by done. by rewrite IH.
    + intros k. rewrite bool_decide_eq_false_2; [done|]. by intros [_ ?%elem_of_nil].
  - destruct (items c !! k) as [ent|] eqn:Hk; [destruct (fn k) eqn:Hfn|].
    + destruct (wf_items c Hwf _ _ Hk) as (Hin & it0 & Hh0 & Hk0).
      destruct (removeElement_effect ent c ks Hwf Hin Hks)
        as (it & c1 & Hc1 & Hr & Hwf1 & Hent & Hks1 & Hnone & Hoth & _).
      assert (it = it0) as ->.
      { destruct Hr as (Hh & _). rewrite Hh0 in Hh. by injection Hh. }
      rewrite Hk0 in *.
      assert (Hb : InvalidateFn_body fn k c = Some c1).
      { unfold InvalidateFn_body. by rewrite Hk, Hfn. }
      simpl. rewrite Hb. simpl.
      destruct (IH c1 _ Hwf1 Hks1) as (c' & Hc' & Hwf' & Hks' & Hent').
      exists c'. split; [done|]. split; [done|]. split.
      * rewrite Hks'. f_equal. rewrite list_filter_filter. apply filter_ext_in.
        intros x _. rewrite elem_of_cons. split.
        -- intros [Hn Hne] [Hf [->|Hx]]; [done|]. by apply Hn.
        -- intros Hn. split; [intros [? ?]; apply Hn; auto|].
           intros ->. apply Hn. auto.
      * intros x. rewrite Hent'. destruct (decide (x = k)) as [->|Hne].
        -- rewrite Hnone. rewrite (bool_decide_eq_true_2 (fn k = true ∧ k ∈ k :: order)).
           ++ by case_bool_decide.
           ++ split; [done|by left].
        -- rewrite (Hoth x Hne).
           assert (Hiff : (fn x = true ∧ x ∈ order) ↔ (fn x = true ∧ x ∈ k :: order)).
           { rewrite elem_of_cons. split; [intros [? ?]; auto|].
             intros [? [?|?]]; [done|auto]. }
           by rewrite (bool_decide_ext _ _ Hiff).
    + assert (Hb : InvalidateFn_body fn k c = Some c).
      { unfold InvalidateFn_body. by rewrite Hk, Hfn. }
      simpl. rewrite Hb. simpl.
      destruct (IH c ks Hwf Hks) as (c' & Hc' & Hwf' & Hks' & Hent').
      assert (Heq : ∀ x, (fn x = true ∧ x ∈ order) ↔ (fn x = true ∧ x ∈ k :: order)).
      { intros x. rewrite elem_of_cons. split; [intros [? ?]; auto|].
        intros [? [->|?]]; [congruence|auto]. }
      exists c'. split; [done|]. split; [done|]. split.
      * rewrite Hks'. f_equal. apply filter_ext_in. intros x _. by rewrite Heq.
      * intros x. rewrite Hent'. by rewrite (bool_decide_ext _ _ (Heq x)).
    + assert (Hb : InvalidateFn_body fn k c = Some c).
      { unfold InvalidateFn_body. by rewrite Hk. }
      simpl. rewrite Hb. simpl.
      destruct (IH c ks Hwf Hks) as (c' & Hc' & Hwf' & Hks' & Hent').
      assert (Hnin : k ∉ ks).
      { intros Hin. apply (wf_Keys c ks Hwf Hks) in Hin as [? Hin]. congruence. }
      exists c'. split; [done|]. split; [done|]. split.
      * rewrite Hks'. f_equal. apply filter_ext_in. intros x Hx. rewrite elem_of_cons.
        split; [|intros Hn [? ?]; apply Hn; auto].
        intros Hn [? [->|?]]; [done|]. apply Hn. auto.
      * intros x. rewrite Hent'. destruct (decide (x = k)) as [->|Hne].
        -- rewrite (entry_None_items c k Hk). by repeat case_bool_decide.
        -- assert (Hiff : (fn x = true ∧ x ∈ order) ↔ (fn x = true ∧ x ∈ k :: order)).
           { rewrite elem_of_cons. split; [intros [? ?]; auto|].
             intros [? [?|?]]; [done|auto]. }
           by rewrite (bool_decide_ext _ _ Hiff).
Qed.

(** X5. [InvalidateFn(fn)] removes the keys for which [fn] is true and only
    them, in whatever order the map is visited: [Keys()] keeps the other
    keys in their order, and their entries are untouched. *)
Theorem InvalidateFn_removes_matching_keys t order fn c :
  reachable t c → range_order c order →
  ∃ ks c', Keys c = Some ks ∧ InvalidateFn_in order fn c = Some c' ∧
           Keys c' = Some (filter (λ k, fn k = false) ks) ∧
           ∀ k, entry c' k = if fn k then None else entry c k.
Proof.
  intros [Hinv _]%reachable_inv (_ & Hmem & _)%range_order_facts.
  pose proof (inv_wf _ _ Hinv) as Hwf.
  destruct (wf_keys c Hwf) as (ks & Hks & _). exists ks.
  destruct (InvalidateFn_in_effect fn order c ks Hwf Hks) as (c' & Hc' & _ & Hks' & Hent').
  destruct (wf_Keys c ks Hwf Hks) as (_ & _ & Hin).
  exists c'. split; [done|]. split; [done|]. split.
  - unfold Keys. rewrite Hks'. f_equal. apply filter_ext_in. intros x Hx.
    assert (x ∈ order) by (by apply Hmem, Hin).
    destruct (fn x); split; try done; [intros Hn; exfalso; by apply Hn|by intros _ [? _]].
  - intros k. rewrite Hent'. destruct (fn k) eqn:Hfn.
    + case_bool_decide as Hd; [done|]. apply entry_None_items.
      destruct (items c !! k) eqn:Hk; [|done]. exfalso. apply Hd.
      split; [done|]. apply Hmem. by eexists.
    + rewrite bool_decide_eq_false_2; [done|]. by intros [? _].
Qed.

(** ** [Set] *)

Lemma Forall2_filter_ne_impl {A B : Type} `{EqDecision A, EqDecision B}
    (R R' : A → B → Prop) (l : list A) (ks : list B) (a : A) (b : B) :
  Forall2 R l ks →
  (∀ x y, x ∈ l → R x y → (x = a ↔ y = b)) →
  (∀ x y, x ≠ a → R x y → R' x y) →
  Forall2 R' (filter (λ x, x ≠ a) l) (filter (λ y, y ≠ b) ks).
Proof.
  induction 1 as [|x y l ks HR HF IH]; intros Hinj Himpl; [constructor|].
  assert (Hrest : Forall2 R' (filter (λ x, x ≠ a) l) (filter (λ y, y ≠ b) ks)).
  { apply IH; [|done]. intros x' y' Hin. apply Hinj. by right. }
  destruct (Hinj x y) as [H1 H2]; [by left|done|].
  destruct (decide (x = a)) as [Hx|Hx].
  - rewrite filter_cons_False by (by intros ?).
    rewrite filter_cons_False by (intros Hy; by apply Hy, H1). done.
  - rewrite filter_cons_True by done.
    rewrite filter_cons_True by (intros Hy; by apply Hx, H2). constructor; auto.
Qed.

Lemma Forall2_impl_elem {A B : Type} (R R' : A → B → Prop) (l : list A) (ks : list B) :
  Forall2 R l ks → (∀ x y, x ∈ l → R x y → R' x y) → Forall2 R' l ks.
Proof.
  induction 1 as [|x y l ks HR HF IH]; intros Himpl; constructor.
  - apply Himpl; [by left|done].
  - apply IH. intros x' y' Hin. apply Himpl. by right.
Qed.

Lemma wf_entry_not_in_keys c ks k :
  wf c → keys c = Some ks → k ∉ ks → entry c k = None.
Proof.
  intros Hwf Hks Hnin. apply entry_None_items.
  destruct (items c !! k) eqn:Hk; [|done]. exfalso. apply Hnin.
  apply (wf_Keys c ks Hwf Hks). by eexists.
Qed.

(** [Set] on a key of the index. *)
Lemma refreshed_effect now k ent it v c ks :
  wf c → items c !! k = Some ent → heap c !! ent = Some it → keys c = Some ks →
  keys (refreshed now ent it v c) = Some (filter (λ x, x ≠ k) ks ++ [k]) ∧
  entry (refreshed now ent it v c) k = Some (mkItem (Time_Add now (ttl c)) k v) ∧
  ∀ k', k' ≠ k → entry (refreshed now ent it v c) k' = entry c k'.
Proof.
  intros Hwf Hk Hh Hks. destruct (wf_items c Hwf _ _ Hk) as (Hin & it' & Hh' & Hki).
  rewrite Hh in Hh'. injection Hh' as <-. split; [|split].
  - apply keys_Forall2 in Hks. apply keys_Forall2. simpl.
    rewrite MoveToFront_in by done. rewrite reverse_cons. apply Forall2_app.
    + rewrite <- filter_reverse.
      apply Forall2_filter_ne_impl
        with (R := λ e k0, key <$> heap c !! e = Some k0); [done| |].
      * intros x y Hx HR. rewrite elem_of_reverse in Hx. split.
        -- intros ->. rewrite Hh in HR. simpl in HR. injection HR as <-. done.
        -- intros ->. apply (wf_key_inj c x ent k); [done..|]. by rewrite Hh, <- Hki.
      * intros x y Hne HR. by rewrite lookup_insert_ne.
    + constructor; [|constructor]. rewrite lookup_insert_eq. simpl. by rewrite Hki.
  - apply entry_Some. exists ent. simpl. rewrite lookup_insert_eq. by rewrite Hki.
  - intros k' Hne. unfold entry. simpl. destruct (items c !! k') as [e'|] eqn:Hk'; [|done].
    simpl. rewrite lookup_insert_ne; [done|]. intros <-.
    destruct (wf_items c Hwf _ _ Hk') as (_ & it' & Hh' & Hki').
    rewrite Hh in Hh'. injection Hh' as <-. congruence.
Qed.

(** X6. [Set] on a key the cache holds, in LRC as in LRU mode: the key
    becomes the newest of [Keys()], its entry gets the new value and a fresh
    expiry, and nothing is removed, counted or reported, whether or not
    other entries have expired. *)
Theorem Set_on_present_key_promotes t now now' k v c :
  reachable t c → is_Some (items c !! k) →
  ∃ ks c', Keys c = Some ks ∧ Set_ now now' k v c = Some c' ∧
           Keys c' = Some (filter (λ x, x ≠ k) ks ++ [k]) ∧
           entry c' k = Some (mkItem (Time_Add now (ttl c)) k v) ∧
           (∀ k', k' ≠ k → entry c' k' = entry c k') ∧
           Len c' = Len c ∧ Stat c' = Stat c ∧ notified c' = notified c.
Proof.
  intros [Hinv _]%reachable_inv [ent Hk]. pose proof (inv_wf _ _ Hinv) as Hwf.
  destruct (wf_keys c Hwf) as (ks & Hks & _).
  destruct (wf_items c Hwf _ _ Hk) as (Hin & it & Hh & _).
  destruct (refreshed_effect now k ent it v c ks Hwf Hk Hh Hks) as (? & ? & ?).
  exists ks, (refreshed now ent it v c).
  split; [done|]. split; [by apply Set_existing_unfold|].
  split; [done|]. split; [done|]. split; [done|]. split; [|done].
  unfold Len, GoList.Len. simpl. by rewrite MoveToFront_length by apply Hwf.
Qed.

(** [Set] on a key the index does not hold, up to [c.stat.Added++]. *)
Lemma pushed_effect now k v c ks :
  wf c → items c !! k = None → keys c = Some ks →
  keys (pushed now k v c) = Some (ks ++ [k]) ∧
  ∀ x, entry (pushed now k v c) x =
       if bool_decide (x = k) then Some (mkItem (Time_Add now (ttl c)) k v)
       else entry c x.
Proof.
  intros Hwf Hk Hks.
  assert (Hfresh : ∀ e, e ∈ evictList c → e ≠ next c).
  { intros e Hin ->. pose proof (wf_next c Hwf _ Hin). lia. }
  split.
  - apply keys_Forall2 in Hks. apply keys_Forall2. simpl. unfold GoList.PushFront.
    rewrite reverse_cons. apply Forall2_app.
    + eapply Forall2_impl_elem; [apply Hks|]. intros x y Hx HR.
      rewrite elem_of_reverse in Hx. simpl. by rewrite lookup_insert_ne by (by apply not_eq_sym, Hfresh).
    + constructor; [|constructor]. by rewrite lookup_insert_eq.
  - intros x. unfold entry. simpl. case_bool_decide as Hx.
    + subst x. rewrite lookup_insert_eq. simpl. by rewrite lookup_insert_eq.
    + rewrite lookup_insert_ne by done.
      destruct (items c !! x) as [e|] eqn:Hlx; [|done]. simpl.
      rewrite lookup_insert_ne; [done|]. intros <-.
      destruct (wf_items c Hwf _ _ Hlx) as (Hin & _). by apply (Hfresh _ Hin).
Qed.

(** The back element is the one of the first key of [keys]; removing it
    leaves the other keys and their entries. *)
Lemma remove_back_effect c k0 rest :
  wf c → keys c = Some (k0 :: rest) →
  ∃ e it c', GoList.Back (evictList c) = Some e ∧ heap c !! e = Some it ∧
             key it = k0 ∧ entry c k0 = Some it ∧
             removeElement e c = Some c' ∧ wf c' ∧ keys c' = Some rest ∧
             (∀ x, entry c' x = if bool_decide (x ∈ rest) then entry c x else None) ∧
             stat c' = incEvicted (stat c) ∧ same_config c c' ∧
             notified c' =
               if onEvicted c then notified c ++ [(k0, value it)] else notified c.
Proof.
  intros Hwf Hks. pose proof Hks as Hf2. apply keys_Forall2 in Hf2.
  apply Forall2_cons_inv_r in Hf2 as (e & r & HR & Hf2 & Hrev).
  apply (f_equal reverse) in Hrev. rewrite reverse_involutive, reverse_cons in Hrev.
  assert (Hin : e ∈ evictList c) by (rewrite Hrev; apply elem_of_app_last).
  destruct (removeElement_effect e c _ Hwf Hin Hks)
    as (it & c' & Hc' & Hr & Hwf' & Hent & Hks' & Hnone & Hoth & Hst & Hnot).
  pose proof Hr as (Hh & _). rewrite Hh in HR. simpl in HR. injection HR as Hk0.
  rewrite Hk0 in *.
  destruct (wf_Keys c _ Hwf Hks) as (Hnd & _). apply NoDup_cons in Hnd as [Hnin Hnd].
  assert (Hrest : filter (λ x, x ≠ k0) (k0 :: rest) = rest).
  { rewrite filter_cons_False by (by intros ?). by apply filter_ne_id. }
  rewrite Hrest in Hks'.
  exists e, it, c'. split; [unfold GoList.Back; rewrite Hrev; apply last_snoc|].
  do 6 (split; [done|]). split; [|split; [done|split; [by eapply removes_config|done]]].
  intros x. case_bool_decide as Hx.
  - apply Hoth. by intros ->.
  - destruct (decide (x = k0)) as [->|Hne]; [done|]. rewrite (Hoth x Hne).
    apply (wf_entry_not_in_keys c _ x Hwf Hks). by intros [?|?]%elem_of_cons.
Qed.

(** [Set] on a key the index does not hold: what the expiry trim and the
    size check make of the list [ks ++ [k]] of the keys after the push. *)
Lemma Set_fresh_effect now now' k v c ks :
  wf c → items c !! k = None → keys c = Some ks →
  ∃ it0 c',
    entry (pushed now k v c) (hd k ks) = Some it0 ∧
    Set_ now now' k v c = Some c' ∧ wf c' ∧ same_config c c' ∧
    ∃ ks2 ks3,
      ks2 = (if Set_trims now' c it0 then tail (ks ++ [k]) else ks ++ [k]) ∧
      ks3 = (if Set_over c (length ks2) then tail ks2 else ks2) ∧
      keys c' = Some ks3 ∧
      (∀ x, entry c' x =
            if bool_decide (x ∈ ks3) then entry (pushed now k v c) x else None) ∧
      stat c' =
        (if Set_over c (length ks2) then incEvicted else id)
          ((if Set_trims now' c it0 then incEvicted else id) (incAdded (stat c))) ∧
      (Set_trims now' c it0 = false → Set_over c (length ks2) = false →
       c' = pushed now k v c).
Proof.
  intros Hwf Hk Hks. rewrite Set_fresh_unfold by done.
  pose proof (pushed_wf now k v c Hwf Hk) as Hwfp.
  destruct (pushed_effect now k v c ks Hwf Hk Hks) as (Hksp & Hentp).
  set (p := pushed now k v c) in *.
  assert (Hcp : same_config c p) by (by repeat split).
  assert (Hbase : ks ++ [k] = hd k ks :: tail (ks ++ [k])) by (by destruct ks).
  rewrite Hbase in Hksp.
  destruct (remove_back_effect p _ _ Hwfp Hksp)
    as (e & it0 & c1 & Hback & Hh0 & Hk0 & Hent0 & Hc1 & Hwf1 & Hks1 & Hent1 & Hst1 & Hcfg1 & _).
  exists it0.
  (* the expiry trim *)
  assert (∃ c2, (if bool_decide (ttl c ≠ noEvictionTTL)
                 then removeOldestIfExpired now' p else Some p) = Some c2 ∧
                wf c2 ∧ same_config c c2 ∧
                keys c2 = Some (if Set_trims now' c it0 then tail (ks ++ [k]) else ks ++ [k]) ∧
                (∀ x, entry c2 x =
                      if bool_decide
                           (x ∈ (if Set_trims now' c it0 then tail (ks ++ [k]) else ks ++ [k]))
                      then entry p x else None) ∧
                stat c2 = (if Set_trims now' c it0 then incEvicted else id) (incAdded (stat c)) ∧
                (Set_trims now' c it0 = false → c2 = p))
    as (c2 & -> & Hwf2 & Hcfg2 & Hks2 & Hent2 & Hst2 & Hsame2).
  { assert (Hkeep : wf p ∧ same_config c p ∧ keys p = Some (ks ++ [k]) ∧
              (∀ x, entry p x = if bool_decide (x ∈ ks ++ [k]) then entry p x else None) ∧
              stat p = incAdded (stat c) ∧ (false = false → p = p)).
    { split; [done|]. split; [done|]. split; [by rewrite Hbase|]. split; [|done].
      intros x. case_bool_decide as Hx; [done|].
      apply (wf_entry_not_in_keys p _ x Hwfp Hksp). by rewrite <- Hbase. }
    unfold Set_trims. case_bool_decide as Httl; simpl.
    - unfold removeOldestIfExpired. rewrite Hback, Hh0. simpl.
      destruct (Time_After now' (expiresAt it0)).
      + exists c1. split; [done|]. split; [done|].
        split; [by eapply same_config_trans|]. split; [done|]. split; [done|].
        split; [by rewrite Hst1|done].
      + by exists p.
    - by exists p. }
  simpl. remember (if Set_trims now' c it0 then tail (ks ++ [k]) else ks ++ [k])
    as ks2 eqn:Hks2def.
  assert (Hsize : size (items c2) = length ks2).
  { rewrite (wf_size c2 Hwf2). symmetry. by apply (wf_Keys c2 ks2 Hwf2 Hks2). }
  assert (Hmk : maxKeys c2 = maxKeys c) by apply Hcfg2.
  rewrite Hsize, Hmk. fold (Set_over c (length ks2)).
  destruct (Set_over c (length ks2)) eqn:Hover.
  - assert (∃ k1 rest1, ks2 = k1 :: rest1) as (k1 & rest1 & Hcons).
    { destruct ks2 as [|k1 rest1]; [|by eauto].
      unfold Set_over in Hover.
      apply andb_true_iff in Hover as [H0%bool_decide_eq_true H1%bool_decide_eq_true].
      assert (GoInt.len 0 = 0) as Hz by (by vm_compute).
      simpl length in H1. rewrite Hz in H1. lia. }
    rewrite Hcons in Hks2.
    destruct (remove_back_effect c2 _ _ Hwf2 Hks2)
      as (e2 & it2 & c3 & Hback2 & _ & _ & _ & Hc3 & Hwf3 & Hks3 & Hent3 & Hst3 & Hcfg3 & _).
    exists c3. unfold removeOldest. rewrite Hback2.
    split; [done|]. split; [done|]. split; [done|].
    split; [by eapply same_config_trans|].
    exists ks2, rest1. rewrite Hover. split; [done|]. split; [by rewrite Hcons|]. split; [done|]. split.
    + intros x. rewrite Hent3. case_bool_decide as Hx; [|done].
      rewrite Hent2. rewrite bool_decide_eq_true_2; [done|]. rewrite Hcons. by right.
    + split; [by rewrite Hst3, Hst2|done].
  - exists c2. split; [done|]. split; [done|]. split; [done|]. split; [done|].
    exists ks2, ks2. rewrite Hover. do 4 (split; [done|]). split; [done|]. auto.
Qed.

Lemma len_in_range (n : nat) :
  Z.of_nat n <= GoInt.max_int → GoInt.len n = Z.of_nat n.
Proof.
  intros H. apply wrap_in_range.
  unfold GoInt.in_range, GoInt.min_int, GoInt.max_int in *. lia.
Qed.

Lemma len_le_max (n : nat) : GoInt.len n <= GoInt.max_int.
Proof. apply wrap_bounds. Qed.

(** In a state that respects the cap, [n] entries that are not more than
    those of the list are not over the cap. *)
Lemma capped_not_over c (n : nat) :
  GoInt.in_range (maxKeys c) → capped c → (n <= length (evictList c))%nat →
  Set_over c n = false.
Proof.
  intros Hr Hcap Hn. unfold Set_over. apply andb_false_iff.
  destruct (decide (0 < maxKeys c)) as [Hpos|Hpos]; [right|left; by apply bool_decide_eq_false].
  apply bool_decide_eq_false. pose proof (len_le_max n).
  destruct (decide (maxKeys c = GoInt.max_int)) as [Heq|Hne]; [lia|].
  unfold GoInt.in_range in Hr. unfold capped in Hcap.
  rewrite len_in_range; lia.
Qed.

(** X7. What a [Set] can do to the list of keys: the key written becomes
    the newest one, and at most one other key, the oldest, is removed, in
    which case the key written was new and the eviction is counted once. *)
Theorem Set_evicts_at_most_the_oldest t now now' k v c :
  reachable t c →
  ∃ ks c', Keys c = Some ks ∧ Set_ now now' k v c = Some c' ∧
           ((Keys c' = Some (filter (λ x, x ≠ k) ks ++ [k]) ∧
             Evicted (Stat c') = Evicted (Stat c)) ∨
            (items c !! k = None ∧ Keys c' = Some (tail (ks ++ [k])) ∧
             Evicted (Stat c') = GoInt.incr (Evicted (Stat c)))).
Proof.
  intros [Hinv Hcap]%reachable_inv. pose proof (inv_wf _ _ Hinv) as Hwf.
  destruct (wf_keys c Hwf) as (ks & Hks & _). exists ks.
  destruct (items c !! k) as [ent|] eqn:Hk.
  - destruct (wf_items c Hwf _ _ Hk) as (Hin & it & Hh & _).
    destruct (refreshed_effect now k ent it v c ks Hwf Hk Hh Hks) as (? & _).
    exists (refreshed now ent it v c). split; [done|].
    split; [by apply Set_existing_unfold|]. by left.
  - destruct (Set_fresh_effect now now' k v c ks Hwf Hk Hks)
      as (it0 & c' & _ & Hc' & _ & _ & ks2 & ks3 & Hks2 & Hks3 & Hkeys & _ & Hst & _).
    exists c'. split; [done|]. split; [done|].
    assert (Hnin : k ∉ ks).
    { intros Hin. apply (wf_Keys c ks Hwf Hks) in Hin as [? Hin]. congruence. }
    rewrite filter_ne_id by done.
    assert (Hlen : length ks = length (evictList c)) by apply (wf_Keys c ks Hwf Hks).
    unfold Keys, Stat. rewrite Hkeys, Hst, Hks3.
    destruct (Set_trims now' c it0); subst ks2.
    + rewrite capped_not_over; [|apply Hinv|done|].
      * right. by repeat split.
      * destruct ks; simpl; [lia|]. rewrite length_app. simpl. rewrite <- Hlen. simpl. lia.
    + destruct (Set_over c (length (ks ++ [k]))); [right|left]; by repeat split.
Qed.

(** X8. On a cache that is full, [Set] of a new key evicts the oldest key,
    expired or not, and only it: the new key is the newest, the other
    entries are untouched and one eviction is counted. *)
Theorem Set_on_full_cache_evicts_oldest t now now' k v c k0 rest :
  reachable t c → items c !! k = None →
  0 < maxKeys c < GoInt.max_int → Len c = maxKeys c →
  Keys c = Some (k0 :: rest) →
  ∃ c', Set_ now now' k v c = Some c' ∧ Keys c' = Some (rest ++ [k]) ∧
        entry c' k0 = None ∧
        entry c' k = Some (mkItem (Time_Add now (ttl c)) k v) ∧
        (∀ x, x ≠ k → x ≠ k0 → entry c' x = entry c x) ∧
        Len c' = maxKeys c' ∧
        Evicted (Stat c') = GoInt.incr (Evicted (Stat c)).
Proof.
  intros [Hinv Hcap]%reachable_inv Hk Hmk Hfull Hks. pose proof (inv_wf _ _ Hinv) as Hwf.
  destruct (wf_Keys c _ Hwf Hks) as (Hnd & Hlen & Hmem).
  assert (Hlenks : Z.of_nat (length (k0 :: rest)) = maxKeys c).
  { rewrite Hlen. rewrite <- Hfull. unfold Len, GoList.Len. symmetry. apply len_in_range.
    unfold capped in Hcap. lia. }
  assert (Hnin : k ∉ k0 :: rest).
  { intros Hin. apply Hmem in Hin as [? Hin]. congruence. }
  apply NoDup_cons in Hnd as [Hk0 Hnd].
  destruct (Set_fresh_effect now now' k v c _ Hwf Hk Hks)
    as (it0 & c' & _ & Hc' & Hwf' & Hcfg & ks2 & ks3 & Hks2 & Hks3 & Hkeys & Hent & Hst & _).
  destruct (pushed_effect now k v c _ Hwf Hk Hks) as (_ & Hentp).
  assert (ks3 = rest ++ [k] ∧
          stat c' = incEvicted (incAdded (stat c))) as [-> Hst'].
  { rewrite Hst, Hks3. destruct (Set_trims now' c it0); subst ks2.
    - change (tail ((k0 :: rest) ++ [k])) with (rest ++ [k]).
      rewrite capped_not_over; [done|apply Hinv|done|].
      rewrite length_app. simpl. rewrite <- Hlen. simpl. lia.
    - change (tail ((k0 :: rest) ++ [k])) with (rest ++ [k]).
      assert (Set_over c (length ((k0 :: rest) ++ [k])) = true) as ->; [|done].
      unfold Set_over. apply andb_true_iff. split; apply bool_decide_eq_true; [lia|].
      rewrite len_in_range; rewrite length_app; simpl in *; lia. }
  exists c'. split; [done|]. split; [done|]. split; [|split; [|split; [|split]]].
  - rewrite Hent. rewrite bool_decide_eq_false_2; [done|].
    intros [Hin|Hin%list_elem_of_singleton]%elem_of_app; [done|].
    subst k0. apply Hnin. by left.
  - rewrite Hent. rewrite bool_decide_eq_true_2 by (apply elem_of_app; right; by left).
    rewrite Hentp. by rewrite bool_decide_eq_true_2.
  - intros x Hxk Hx0. rewrite Hent. case_bool_decide as Hin.
    + rewrite Hentp. by rewrite bool_decide_eq_false_2.
    + symmetry. apply (wf_entry_not_in_keys c _ x Hwf Hks).
      intros [->|Hx]%elem_of_cons; [done|]. apply Hin, elem_of_app. by left.
  - destruct Hcfg as (_ & -> & _). unfold Len, GoList.Len.
    destruct (wf_Keys c' _ Hwf' Hkeys) as (_ & <- & _).
    rewrite len_in_range; rewrite length_app; simpl in *; lia.
  - unfold Stat. by rewrite Hst'.
Qed.

(** X9. Under the cap, with a TTL configured, [Set] of a new key removes
    the oldest entry exactly when it has expired at the instant the trim
    reads the clock; no other entry goes, however many have expired. *)
Theorem Set_under_cap_trims_oldest_iff_expired t now now' k v c k0 rest it0 :
  reachable t c → items c !! k = None → ttl c ≠ noEvictionTTL →
  maxKeys c <= 0 ∨ Len c < maxKeys c →
  Keys c = Some (k0 :: rest) → entry c k0 = Some it0 →
  ∃ c', Set_ now now' k v c = Some c' ∧
        Keys c' = Some (if Time_After now' (expiresAt it0)
                        then rest ++ [k] else k0 :: rest ++ [k]) ∧
        Evicted (Stat c') =
          (if Time_After now' (expiresAt it0)
           then GoInt.incr (Evicted (Stat c)) else Evicted (Stat c)).
Proof.
  intros [Hinv Hcap]%reachable_inv Hk Httl Hroom Hks Hent0.
  pose proof (inv_wf _ _ Hinv) as Hwf.
  destruct (wf_Keys c _ Hwf Hks) as (Hnd & Hlen & Hmem).
  assert (Hnin : k ∉ k0 :: rest).
  { intros Hin. apply Hmem in Hin as [? Hin]. congruence. }
  destruct (Set_fresh_effect now now' k v c _ Hwf Hk Hks)
    as (it & c' & Hit & Hc' & Hwf' & Hcfg & ks2 & ks3 & Hks2 & Hks3 & Hkeys & Hent & Hst & _).
  destruct (pushed_effect now k v c _ Hwf Hk Hks) as (_ & Hentp).
  simpl in Hit. rewrite Hentp in Hit.
  rewrite bool_decide_eq_false_2 in Hit by (intros ->; apply Hnin; by left).
  rewrite Hent0 in Hit. injection Hit as <-.
  assert (Hnot : ∀ n, (n <= S (length (evictList c)))%nat → Set_over c n = false).
  { intros n Hn. unfold Set_over. apply andb_false_iff.
    destruct (decide (0 < maxKeys c)) as [Hpos|Hpos];
      [right|left; by apply bool_decide_eq_false].
    apply bool_decide_eq_false. pose proof (len_le_max n).
    pose proof (inv_maxKeys _ _ Hinv) as Hr. unfold GoInt.in_range in Hr.
    destruct (decide (maxKeys c = GoInt.max_int)) as [Heq|Hne]; [lia|].
    destruct Hroom as [Hle|Hlt]; [lia|].
    unfold capped in Hcap. unfold Len, GoList.Len in Hlt.
    rewrite len_in_range in Hlt by lia. rewrite len_in_range; lia. }
  exists c'. split; [done|]. unfold Keys, Stat. rewrite Hkeys, Hst, Hks3.
  unfold Set_trims in *. rewrite bool_decide_eq_true_2 in * by done. simpl in *.
  destruct (Time_After now' (expiresAt it0)); subst ks2.
  - change (tail ((k0 :: rest) ++ [k])) with (rest ++ [k]).
    rewrite Hnot; [done|]. rewrite length_app. simpl. rewrite <- Hlen. simpl. lia.
  - rewrite Hnot; [done|]. simpl. rewrite length_app. simpl. rewrite <- Hlen. simpl. lia.
Qed.

(** X10. With the default TTL and no size cap the cache never removes an
    entry of its own accord: [Set] only puts the key written last. *)
Theorem Set_on_unlimited_cache_never_evicts t now now' k v c :
  reachable t c → ttl c = noEvictionTTL → maxKeys c <= 0 →
  ∃ ks c', Keys c = Some ks ∧ Set_ now now' k v c = Some c' ∧
           Keys c' = Some (filter (λ x, x ≠ k) ks ++ [k]) ∧
           entry c' k = Some (mkItem (Time_Add now (ttl c)) k v) ∧
           (∀ x, x ≠ k → entry c' x = entry c x) ∧
           Evicted (Stat c') = Evicted (Stat c) ∧ notified c' = notified c.
Proof.
  intros Hreach Httl Hmk.
  destruct (items c !! k) as [ent|] eqn:Hk.
  - apply reachable_inv in Hreach as [Hinv Hcap]. pose proof (inv_wf _ _ Hinv) as Hwf.
    destruct (wf_keys c Hwf) as (ks & Hks & _).
    destruct (wf_items c Hwf _ _ Hk) as (Hin & it & Hh & _).
    destruct (refreshed_effect now k ent it v c ks Hwf Hk Hh Hks) as (? & ? & ?).
    exists ks, (refreshed now ent it v c).
    split; [done|]. split; [by apply Set_existing_unfold|]. by repeat split.
  - apply reachable_inv in Hreach as [Hinv Hcap]. pose proof (inv_wf _ _ Hinv) as Hwf.
    destruct (wf_keys c Hwf) as (ks & Hks & _). exists ks.
    assert (Hnin : k ∉ ks).
    { intros Hin. apply (wf_Keys c ks Hwf Hks) in Hin as [? Hin]. congruence. }
    destruct (Set_fresh_effect now now' k v c _ Hwf Hk Hks)
      as (it & c' & _ & Hc' & Hwf' & Hcfg & ks2 & ks3 & Hks2 & Hks3 & Hkeys & Hent & Hst & Hpush).
    destruct (pushed_effect now k v c _ Hwf Hk Hks) as (_ & Hentp).
    assert (Htrim : Set_trims now' c it = false).
    { unfold Set_trims. by rewrite bool_decide_eq_false_2 by (by intros ?). }
    assert (Hover : ∀ n, Set_over c n = false).
    { intros n. unfold Set_over. by rewrite bool_decide_eq_false_2 by lia. }
    assert (Hc'eq : c' = pushed now k v c) by (apply Hpush; [done|apply Hover]).
    rewrite Htrim in *. rewrite Hover in *. subst ks2 ks3.
    exists c'. split; [done|]. split; [done|]. rewrite filter_ne_id by done.
    split; [done|]. split; [|split; [|split]].
    + rewrite Hent. rewrite bool_decide_eq_true_2 by (apply elem_of_app; right; by left).
      rewrite Hentp. by rewrite bool_decide_eq_true_2.
    + intros x Hx. rewrite Hent. case_bool_decide as Hin.
      * rewrite Hentp. by rewrite bool_decide_eq_false_2.
      * symmetry. apply (wf_entry_not_in_keys c _ x Hwf Hks).
        intros Hx'. apply Hin, elem_of_app. by left.
    + unfold Stat. by rewrite Hst.
    + by rewrite Hc'eq.
Qed.

(** X11. A [Set] followed by a read of the same key: as long as the clock
    has not passed [now + ttl], [Peek] and [Get] return the value written
    with [true]; after that instant they return [(nil, false)]. (The entry
    must have outlived the [Set] itself: [now' <= now + ttl].) *)
Theorem Set_then_read_round_trip t now now' g k v c :
  reachable t c → t <= now → now <= now' → now' <= Time_Add now (ttl c) →
  ∃ c', Set_ now now' k v c = Some c' ∧
        (g <= Time_Add now (ttl c) →
           Peek g k c' = Some (v, true) ∧ ∃ c'', Get g k c' = Some (v, true, c'')) ∧
        (Time_Add now (ttl c) < g →
           Peek g k c' = Some (None, false) ∧ ∃ c'', Get g k c' = Some (None, false, c'')).
Proof.
  intros [Hinv _]%reachable_inv Ht Hn Hlive.
  destruct (Set_leaves_entry_at_front t now now' k v c Hinv Ht Hn Hlive)
    as (c' & ent & rest & it & Hc' & Hk & _ & Hh & _ & Hv & Hexp).
  exists c'. split; [done|]. split; intros Hg.
  - assert (Get g k c' = Some (v, true,
              with_stat (incHits (stat c'))
                (if isLRU c' then with_evictList (GoList.MoveToFront ent (evictList c')) c'
                 else c'))) as HG.
    { rewrite <- Hv. apply Get_live; [done..|]. by rewrite Hexp. }
    split; [|by eexists]. rewrite Peek_Get_fst. by rewrite HG.
  - assert (Get g k c' = Some (None, false, with_stat (incMisses (stat c')) c')) as HG.
    { eapply Get_expired; [done..|]. by rewrite Hexp. }
    split; [|by eexists]. rewrite Peek_Get_fst. by rewrite HG.
Qed.

(** ** [Get] *)

Lemma MoveToFront_Permutation (l : list Element) e :
  NoDup l → GoList.MoveToFront e l ≡ₚ l.
Proof.
  intros Hnd. unfold GoList.MoveToFront. case_bool_decide as Hin; [|done].
  induction l as [|x l IH]; [by apply elem_of_nil in Hin|].
  apply NoDup_cons in Hnd as [Hx Hnd].
  destruct (decide (x = e)) as [->|Hne].
  - rewrite filter_cons_False by (by intros ?). by rewrite filter_ne_notin.
  - rewrite filter_cons_True by done.
    apply elem_of_cons in Hin as [?|Hin]; [congruence|].
    rewrite Permutation_swap. by rewrite IH.
Qed.

(** X12. [Get] adds no entry and removes none, expired or not: the index,
    the items and the set of list elements are what they were, the callback
    is not called, [Added] and [Evicted] do not move. It reports [true]
    exactly for a key that is in the index and has not expired, with the
    stored value and one more hit; otherwise [nil] with one more miss. *)
Theorem Get_changes_recency_and_counters_only t now k c :
  reachable t c →
  ∃ v c', Get now k c = Some (v, live_key now c k, c') ∧
          items c' = items c ∧ heap c' = heap c ∧ evictList c' ≡ₚ evictList c ∧
          notified c' = notified c ∧ same_config c c' ∧
          Added (Stat c') = Added (Stat c) ∧ Evicted (Stat c') = Evicted (Stat c) ∧
          if live_key now c k
          then value <$> entry c k = Some v ∧
               Hits (Stat c') = GoInt.incr (Hits (Stat c)) ∧
               Misses (Stat c') = Misses (Stat c)
          else v = None ∧
               Misses (Stat c') = GoInt.incr (Misses (Stat c)) ∧
               Hits (Stat c') = Hits (Stat c).
Proof.
  intros [Hinv _]%reachable_inv. pose proof (inv_wf _ _ Hinv) as Hwf.
  unfold live_key, entry, Get.
  destruct (items c !! k) as [ent|] eqn:Hk; simpl.
  - destruct (wf_items c Hwf _ _ Hk) as (Hin & it & Hh & _). rewrite Hh. simpl.
    destruct (Time_After now (expiresAt it)); simpl.
    + eexists _, _. split; [done|]. by repeat split.
    + eexists _, _. split; [done|]. destruct (isLRU c) eqn:Hlru; simpl.
      * split; [done|]. split; [done|].
        split; [apply MoveToFront_Permutation, Hwf|]. by repeat split.
      * by repeat split.
  - eexists _, _. split; [done|]. by repeat split.
Qed.

(** ** [DeleteExpired] *)

Lemma filter_all {A : Type} (P : A → Prop) `{!∀ x, Decision (P x)} (l : list A) :
  (∀ x, x ∈ l → P x) → filter P l = l.
Proof.
  induction l as [|x l IH]; [done|]. intros Hall.
  rewrite filter_cons_True by (apply Hall; by left).
  rewrite IH; [done|]. intros y Hy. apply Hall. by right.
Qed.

Lemma Forall2_filter {A B : Type} (R : A → B → Prop) (P : A → Prop) (Q : B → Prop)
    `{!∀ x, Decision (P x), !∀ y, Decision (Q y)} (l : list A) (k : list B) :
  Forall2 (λ x y, R x y ∧ (P x ↔ Q y)) l k → Forall2 R (filter P l) (filter Q k).
Proof.
  induction 1 as [|x y l k [HR Hiff] _ IH]; [constructor|].
  destruct (decide (P x)) as [HP|HP].
  - rewrite !filter_cons_True by tauto. by constructor.
  - rewrite !filter_cons_False by tauto. done.
Qed.

(** The loop of [DeleteExpired] when every clock reading is [now]: [U] is
    the part of the list still to visit, [K] the part visited and kept. *)
Lemma DeleteExpired_loop_exact t now :
  ∀ ks U K i c,
    inv t c → evictList c = U ++ K →
    Forall2 (λ e k, key <$> heap c !! e = Some k) (reverse U) ks →
    ∃ c', DeleteExpired_loop (λ _, now) i ks c = Some c' ∧
          wf c' ∧ same_config c c' ∧ heap c' = heap c ∧
          evictList c' = filter (λ e, live_elem now (heap c) e = true) U ++ K ∧
          Hits (stat c') = Hits (stat c) ∧ Misses (stat c') = Misses (stat c) ∧
          Added (stat c') = Added (stat c).
Proof.
  induction ks as [|k ks IH]; intros U K i c Hinv Hl Hf2.
  - apply Forall2_nil_inv_r in Hf2. apply (f_equal reverse) in Hf2.
    rewrite reverse_involutive in Hf2. simpl in Hf2. subst U. simpl in Hl.
    exists c. split; [done|]. split; [apply Hinv|]. split; [apply same_config_refl|].
    by repeat split.
  - apply Forall2_cons_inv_r in Hf2 as (e & rU & Hke & Hf2 & HrU).
    apply (f_equal reverse) in HrU. rewrite reverse_involutive, reverse_cons in HrU.
    subst U. set (U := reverse rU) in *.
    pose proof (inv_wf _ _ Hinv) as Hwf.
    assert (He : e ∈ evictList c).
    { rewrite Hl. apply elem_of_app. left. apply elem_of_app_last. }
    destruct (wf_list c Hwf e He) as (it & Hh & Hki).
    rewrite Hh in Hke. simpl in Hke. injection Hke as Hkey. rewrite Hkey in Hki.
    assert (Hl' : evictList c = U ++ e :: K) by (by rewrite Hl, <- app_assoc).
    assert (Hle : live_elem now (heap c) e = negb (Time_After now (expiresAt it))).
    { unfold live_elem. by rewrite Hh. }
    simpl. rewrite Hki. simpl. rewrite Hh. simpl.
    destruct (Time_After now (expiresAt it)) eqn:Hexp.
    + destruct (removeElement_Some e it c Hh) as (c1 & -> & Hr). simpl.
      pose proof (removes_inv _ _ _ _ _ Hinv He Hr) as Hinv1.
      pose proof (removes_config _ _ _ _ Hr) as Hcfg1.
      destruct Hr as (_ & Hl1 & _ & Hhp1 & Hst1 & _).
      assert (Hl1' : evictList c1 = U ++ K).
      { rewrite Hl1, Hl'. apply filter_ne_middle. rewrite <- Hl'. by destruct Hwf. }
      destruct (IH U K (S i) c1 Hinv1 Hl1')
        as (c' & Hc' & ? & ? & Hhp' & Hl'' & Hh' & Hm' & Ha').
      { unfold U. rewrite reverse_involutive. by rewrite Hhp1. }
      exists c'. split; [done|]. split; [done|].
      split; [by eapply same_config_trans|]. split; [congruence|].
      rewrite Hst1 in Hh', Hm', Ha'. split; [|done].
      rewrite Hl'', Hhp1, filter_app, filter_cons_False; [by rewrite app_nil_r|].
      rewrite Hle. simpl. done.
    + destruct (isLRU c) eqn:Hlru; simpl.
      * destruct (IH U (e :: K) (S i) c Hinv Hl')
          as (c' & Hc' & ? & ? & Hhp' & Hl'' & ?).
        { unfold U. by rewrite reverse_involutive. }
        exists c'. split; [done|]. split; [done|]. split; [done|]. split; [done|].
        split; [|done].
        rewrite Hl'', filter_app, filter_cons_True by (by rewrite Hle).
        by rewrite <- app_assoc.
      * exists c. split; [done|]. split; [done|]. split; [apply same_config_refl|].
        split; [done|]. split; [|done].
        rewrite filter_all; [by rewrite <- app_assoc|].
        intros x Hx. unfold Time_After in Hexp. apply bool_decide_eq_false in Hexp.
        apply elem_of_app in Hx as [Hx|Hx%list_elem_of_singleton]; [|by subst x; rewrite Hle].
        assert (Hxl : x ∈ evictList c) by (rewrite Hl'; apply elem_of_app; by left).
        destruct (wf_list c Hwf x Hxl) as (itx & Hhx & _).
        pose proof (inv_sorted _ _ Hinv Hlru) as Hso. rewrite Hl' in Hso.
        assert (expiresAt it <= expiresAt itx).
        { apply (expiry_sorted_app _ _ _ _ x e _ _ Hso); [done|by left|done..]. }
        unfold live_elem, Time_After. rewrite Hhx.
        rewrite bool_decide_eq_false_2; [done|lia].
Qed.

(** X13. [DeleteExpired] with one clock reading [now] removes exactly the
    entries that have expired at [now], in LRC and in LRU mode: the keys
    left are those of the live entries, in their order; the live entries
    are untouched; [Hits], [Misses] and [Added] do not move. *)
Theorem DeleteExpired_removes_exactly_the_expired t now c :
  reachable t c →
  ∃ ks c', Keys c = Some ks ∧ DeleteExpired (λ _, now) c = Some c' ∧
           Keys c' = Some (filter (λ k, live_key now c k = true) ks) ∧
           (∀ k, entry c' k = if live_key now c k then entry c k else None) ∧
           Hits (Stat c') = Hits (Stat c) ∧ Misses (Stat c') = Misses (Stat c) ∧
           Added (Stat c') = Added (Stat c).
Proof.
  intros [Hinv _]%reachable_inv. pose proof (inv_wf _ _ Hinv) as Hwf.
  destruct (wf_keys c Hwf) as (ks & Hks & Hf2). exists ks.
  destruct (DeleteExpired_loop_exact t now ks (evictList c) [] 0 c Hinv)
    as (c' & Hc' & Hwf' & _ & Hhp & Hl & Hst); [by rewrite app_nil_r|done|].
  rewrite app_nil_r in Hl.
  exists c'. split; [done|]. split; [unfold DeleteExpired; by rewrite Hks|].
  assert (Hlive : ∀ e it, e ∈ evictList c → heap c !! e = Some it →
            live_elem now (heap c) e = live_key now c (key it)).
  { intros e it He Hh. unfold live_elem, live_key, entry.
    destruct (wf_list c Hwf e He) as (it' & Hh' & Hk').
    rewrite Hh in Hh'. injection Hh' as <-. rewrite Hk'. simpl. by rewrite Hh. }
  split; [|split; [|done]].
  - unfold Keys. apply keys_Forall2. rewrite Hl, Hhp, <- filter_reverse.
    apply Forall2_filter.
    eapply Forall2_impl_elem; [apply Hf2|]. intros e k He HR. split; [done|].
    rewrite elem_of_reverse in He.
    destruct (wf_list c Hwf e He) as (it & Hh & _).
    simpl in HR. rewrite Hh in HR. simpl in HR. injection HR as <-.
    by rewrite (Hlive e it He Hh).
  - intros k. destruct (live_key now c k) eqn:Hlk.
    + unfold live_key in Hlk. destruct (entry c k) as [it|] eqn:Hent; [|done].
      destruct (wf_entry_inv c k it Hwf Hent) as (e & Hk & He & Hh & Hki).
      assert (He' : e ∈ evictList c').
      { rewrite Hl. apply list_elem_of_filter. split; [|done].
        unfold live_elem. by rewrite Hh. }
      rewrite <- Hki. apply (wf_entry c' e it Hwf' He'). by rewrite Hhp.
    + destruct (entry c' k) as [it|] eqn:Hent; [|done]. exfalso.
      destruct (wf_entry_inv c' k it Hwf' Hent) as (e & Hk & He & Hh & Hki).
      rewrite Hl in He. apply list_elem_of_filter in He as [Hlv He].
      rewrite Hhp in Hh. rewrite (Hlive e it He Hh), Hki in Hlv. congruence.
Qed.

(** ** The eviction callback *)

Lemma callback_inv_frame c c' :
  Evicted (stat c') = Evicted (stat c) → onEvicted c' = onEvicted c →
  notified c' = notified c → callback_inv c → callback_inv c'.
Proof. unfold callback_inv. by intros -> -> ->. Qed.

Lemma callback_inv_evict k v c :
  callback_inv c → callback_inv (notify k v (with_stat (incEvicted (stat c)) c)).
Proof.
  unfold callback_inv, notify. simpl. intros [Hr Hcb].
  destruct (onEvicted c) eqn:Hon; simpl; rewrite ?Hon.
  - split; [apply wrap_bounds|]. rewrite length_app. simpl.
    eapply congr_trans; [apply incr_congr|].
    destruct Hcb as [q Hq]. exists q. lia.
  - split; [apply wrap_bounds|done].
Qed.

Lemma removeElement_callback e c c' :
  removeElement e c = Some c' → callback_inv c → callback_inv c'.
Proof.
  unfold removeElement. destruct (heap c !! e) as [it|]; [|done]. simpl.
  intros [= <-] Hcb.
  apply (callback_inv_evict (key it) (value it)) in Hcb.
  unfold callback_inv, notify in *. simpl in *. by destruct (onEvicted c).
Qed.

Lemma removeOldest_callback c c' :
  removeOldest c = Some c' → callback_inv c → callback_inv c'.
Proof.
  unfold removeOldest. destruct (GoList.Back (evictList c)).
  - apply removeElement_callback.
  - by intros [= <-].
Qed.

Lemma removeOldestIfExpired_callback now c c' :
  removeOldestIfExpired now c = Some c' → callback_inv c → callback_inv c'.
Proof.
  unfold removeOldestIfExpired. destruct (GoList.Back (evictList c)) as [e|].
  - destruct (heap c !! e) as [it|]; [|done]. simpl.
    destruct (Time_After now (expiresAt it)).
    + apply removeElement_callback.
    + by intros [= <-].
  - by intros [= <-].
Qed.

Lemma range_loop_preserves {A S : Type} (P : S → Prop) (body : A → S → option S) :
  (∀ x s s', body x s = Some s' → P s → P s') →
  ∀ l s s', range_loop body l s = Some s' → P s → P s'.
Proof.
  intros Hbody. induction l as [|x l IH]; intros s s' Hloop HP.
  - simpl in Hloop. by injection Hloop as <-.
  - simpl in Hloop. destruct (body x s) as [s1|] eqn:Hb; [|done]. simpl in Hloop.
    eapply IH; [done|]. by eapply Hbody.
Qed.

Lemma Set_callback now now' k v c c' :
  Set_ now now' k v c = Some c' → callback_inv c → callback_inv c'.
Proof.
  unfold Set_. destruct (items c !! k) as [ent|].
  - destruct (heap c !! ent) as [it|]; [|done]. simpl. intros [= <-].
    by apply callback_inv_frame.
  - intros Hset Hcb.
    match type of Hset with
    | context [removeOldestIfExpired now' ?c1] => set (p := c1) in *
    end.
    assert (Hp : callback_inv p) by (by apply (callback_inv_frame c)).
    destruct (if bool_decide (ttl p ≠ noEvictionTTL)
              then removeOldestIfExpired now' p else Some p) as [c2|] eqn:H2; [|done].
    simpl in Hset.
    assert (H2' : callback_inv c2).
    { destruct (bool_decide (ttl p ≠ noEvictionTTL)).
      - by eapply removeOldestIfExpired_callback.
      - by injection H2 as <-. }
    destruct (bool_decide (0 < maxKeys c2) &&
              bool_decide (maxKeys c2 < GoInt.len (size (items c2)))).
    + by eapply removeOldest_callback.
    + by injection Hset as <-.
Qed.

Lemma Get_callback now k r c c' :
  Get now k c = Some (r, c') → callback_inv c → callback_inv c'.
Proof.
  unfold Get. destruct (items c !! k) as [ent|].
  - destruct (heap c !! ent) as [it|]; [|done]. simpl.
    destruct (Time_After now (expiresAt it)).
    + intros [= <- <-]. by apply callback_inv_frame.
    + intros [= <- <-]. apply callback_inv_frame; by destruct (isLRU c).
  - intros [= <- <-]. by apply callback_inv_frame.
Qed.

Lemma DeleteExpired_loop_callback tick : ∀ ks i c c',
  DeleteExpired_loop tick i ks c = Some c' → callback_inv c → callback_inv c'.
Proof.
  induction ks as [|k ks IH]; intros i c c' Hloop Hcb.
  - simpl in Hloop. by injection Hloop as <-.
  - simpl in Hloop. destruct (items c !! k) as [ent|]; [|done]. simpl in Hloop.
    destruct (heap c !! ent) as [it|] eqn:Hh; [|done]. simpl in Hloop.
    destruct (Time_After (tick i) (expiresAt it)).
    + destruct (removeElement ent c) as [c1|] eqn:Hr; [|done]. simpl in Hloop.
      eapply IH; [done|]. by eapply removeElement_callback.
    + destruct (isLRU c); simpl in Hloop.
      * by eapply IH.
      * by injection Hloop as <-.
Qed.

Lemma Purge_body_callback k c c' :
  Purge_body k c = Some c' → callback_inv c → callback_inv c'.
Proof.
  unfold Purge_body. destruct (items c !! k) as [e|]; [|by intros [= <-]].
  simpl. intros Hb Hcb.
  destruct (onEvicted c) eqn:Hon.
  - destruct (heap c !! e) as [it|]; [|done]. simpl in Hb. injection Hb as <-.
    apply (callback_inv_evict k (value it)) in Hcb.
    unfold callback_inv, notify in *. simpl in *. by rewrite Hon in *.
  - injection Hb as <-. apply (callback_inv_evict k None) in Hcb.
    unfold callback_inv, notify in *. simpl in *. by rewrite Hon in *.
Qed.

Lemma apply_options_callback options : ∀ c0 c,
  Forall package_option options →
  apply_options (V := V) options c0 = inr c →
  stat c0 = mkStats 0 0 0 0 → notified c0 = [] →
  stat c = mkStats 0 0 0 0 ∧ notified c = [].
Proof.
  induction options as [|opt options IH]; intros c0 c Hopts Happ Hs Hn.
  - simpl in Happ. by injection Happ as <-.
  - apply Forall_cons in Hopts as [Hopt Hopts]. simpl in Happ.
    destruct Hopt; simpl in Happ; by apply (IH _ _ Hopts Happ).
Qed.

Lemma reachable_callback_inv t c : reachable t c → callback_inv c.
Proof.
  induction 1 as
    [t options c Hopts Hnew
    |t t' c Hreach IH Hle
    |t now now' k v c c' Hreach IH Ht Hn Hstep
    |t now k r c c' Hreach IH Ht Hstep
    |t k c c' Hreach IH Hstep
    |t order fn c c' Hreach IH Hord Hstep
    |t c c' Hreach IH Hstep
    |t t' tick c c' Hreach IH Htick Hstep
    |t order c c' Hreach IH Hord Hstep].
  - destruct (apply_options_callback _ _ _ Hopts Hnew) as [Hs Hn]; [done..|].
    unfold callback_inv. rewrite Hs, Hn. simpl. split; [done|].
    destruct (onEvicted c); [apply congr_refl|done].
  - done.
  - by eapply Set_callback.
  - by eapply Get_callback.
  - unfold Invalidate in Hstep. destruct (items c !! k).
    + by eapply removeElement_callback.
    + by injection Hstep as <-.
  - unfold InvalidateFn_in in Hstep.
    eapply (range_loop_preserves callback_inv); [|done..].
    intros x s s'. unfold InvalidateFn_body. destruct (items s !! x); [|by intros [= <-]].
    destruct (fn x); [apply removeElement_callback|by intros [= <-]].
  - by eapply removeOldest_callback.
  - unfold DeleteExpired in Hstep. destruct (keys c) as [ks|]; [|done]. simpl in Hstep.
    by eapply DeleteExpired_loop_callback.
  - unfold Purge_in in Hstep.
    destruct (range_loop Purge_body order c) as [c1|] eqn:Hloop; [|done].
    simpl in Hstep. injection Hstep as <-.
    apply (callback_inv_frame c1); [done..|].
    eapply (range_loop_preserves callback_inv); [|done..].
    apply Purge_body_callback.
Qed.

(** X14. The callback is called once per eviction: in a cache made with
    [OnEvicted], the counter [Evicted] is the number of calls made so far
    (as a Go [int]); in a cache made without it no call is ever recorded. *)
Theorem callback_called_once_per_eviction t c :
  reachable t c →
  if onEvicted c
  then Evicted (Stat c) = GoInt.len (length (notified c))
  else notified c = [].
Proof.
  intros [Hr Hcb]%reachable_callback_inv. unfold Stat.
  destruct (onEvicted c); [|done].
  rewrite <- (wrap_in_range _ Hr). unfold GoInt.len. by apply congr_wrap_eq.
Qed.

(** ** No operation panics *)

Lemma DeleteExpired_loop_total tick : ∀ ks U K i c,
  wf c → evictList c = U ++ K →
  Forall2 (λ e k, key <$> heap c !! e = Some k) (reverse U) ks →
  is_Some (DeleteExpired_loop tick i ks c).
Proof.
  induction ks as [|k ks IH]; intros U K i c Hwf Hl Hf2; [by eexists|].
  apply Forall2_cons_inv_r in Hf2 as (e & rU & Hke & Hf2 & HrU).
  apply (f_equal reverse) in HrU. rewrite reverse_involutive, reverse_cons in HrU.
  subst U. set (U := reverse rU) in *.
  assert (He : e ∈ evictList c).
  { rewrite Hl. apply elem_of_app. left. apply elem_of_app_last. }
  destruct (wf_list c Hwf e He) as (it & Hh & Hki).
  rewrite Hh in Hke. simpl in Hke. injection Hke as Hkey. rewrite Hkey in Hki.
  assert (Hl' : evictList c = U ++ e :: K) by (by rewrite Hl, <- app_assoc).
  simpl. rewrite Hki. simpl. rewrite Hh. simpl.
  destruct (Time_After (tick i) (expiresAt it)).
  - destruct (removeElement_Some e it c Hh) as (c1 & -> & Hr). simpl.
    destruct (removes_wf _ _ _ _ Hwf He Hr) as (Hwf1 & _).
    destruct Hr as (_ & Hl1 & _ & Hhp1 & _).
    apply (IH U K); [done| |].
    + rewrite Hl1, Hl'. apply filter_ne_middle. rewrite <- Hl'. by destruct Hwf.
    + unfold U. rewrite reverse_involutive. by rewrite Hhp1.
  - destruct (isLRU c); simpl; [|by eexists].
    apply (IH U (e :: K)); [done..|]. unfold U. by rewrite reverse_involutive.
Qed.

(** X15. On a cache made by [NewLoadingCache] and used through the public
    operations no operation panics, whatever the arguments and the clock
    readings: every list element holds a [*cacheItem] and every key of the
    index points to an element, so no dereference and no type assertion
    fails. *)
Theorem operations_never_panic t c :
  reachable t c →
  (∀ now now' k v, is_Some (Set_ now now' k v c)) ∧
  (∀ now k, is_Some (Get now k c)) ∧
  (∀ now k, is_Some (Peek now k c)) ∧
  is_Some (Keys c) ∧
  (∀ k, is_Some (Invalidate k c)) ∧
  (∀ order fn, is_Some (InvalidateFn_in order fn c)) ∧
  is_Some (RemoveOldest c) ∧
  (∀ tick, is_Some (DeleteExpired tick c)) ∧
  (∀ order, range_order c order → is_Some (Purge_in order c)).
Proof.
  intros Hreach. destruct (reachable_inv _ _ Hreach) as [Hinv Hcap].
  pose proof (inv_wf _ _ Hinv) as Hwf.
  destruct (wf_keys c Hwf) as (ks & Hks & Hf2).
  assert (HGet : ∀ now k, is_Some (Get now k c)).
  { intros now k. unfold Get. destruct (items c !! k) as [ent|] eqn:Hk; [|by eexists].
    destruct (wf_items c Hwf _ _ Hk) as (_ & it & -> & _). simpl.
    destruct (Time_After now (expiresAt it)); by eexists. }
  split; [|split; [done|split; [|split; [by exists ks|split; [|split; [|split; [|split]]]]]]].
  - intros now now' k v. destruct (items c !! k) as [ent|] eqn:Hk.
    + destruct (wf_items c Hwf _ _ Hk) as (_ & it & Hh & _).
      exists (refreshed now ent it v c). by apply Set_existing_unfold.
    + destruct (Set_fresh_effect now now' k v c ks Hwf Hk Hks) as (_ & c' & _ & Hc' & _).
      by exists c'.
  - intros now k. rewrite Peek_Get_fst. destruct (HGet now k) as [r ->]. by eexists.
  - intros k. destruct (Invalidate_inv t k c Hinv Hcap) as (c' & -> & _). by eexists.
  - intros order fn.
    destruct (InvalidateFn_in_effect fn order c ks Hwf Hks) as (c' & -> & _). by eexists.
  - destruct (removeOldest_trimmed c Hwf) as (c' & Hc' & _). by exists c'.
  - intros tick. unfold DeleteExpired. rewrite Hks. simpl.
    apply (DeleteExpired_loop_total tick ks (evictList c) []); [done| |done].
    by rewrite app_nil_r.
  - intros order Hord. destruct (Purge_in_inv t order c Hinv Hord) as (c' & -> & _).
    by eexists.
Qed.

(** ** [Purge] *)

(** X16. [Purge] empties the cache: no key is left, every read misses,
    [Evicted] grows by the number of entries there were (as a Go [int]),
    [Hits], [Misses] and [Added] do not move; a second [Purge] changes
    nothing. *)
Theorem Purge_empties_the_cache t order c :
  reachable t c → range_order c order →
  ∃ c', Purge_in order c = Some c' ∧
        Keys c' = Some [] ∧ Len c' = 0 ∧
        (∀ now k, Peek now k c' = Some (None, false)) ∧
        Evicted (Stat c') = GoInt.add (Evicted (Stat c)) (Len c) ∧
        Hits (Stat c') = Hits (Stat c) ∧ Misses (Stat c') = Misses (Stat c) ∧
        Added (Stat c') = Added (Stat c) ∧
        ∀ order', range_order c' order' → Purge_in order' c' = Some c'.
Proof.
  intros Hreach Hord. destruct (reachable_inv _ _ Hreach) as [Hinv Hcap].
  pose proof (inv_wf _ _ Hinv) as Hwf.
  pose proof Hord as (Hnd & Hmem & Hlen)%range_order_facts.
  destruct (Purge_loop_spec order c Hnd) as
    (c1 & Hc1 & Hi1 & Hl1 & Hh1 & Hn1 & Hcfg1 & HH & HM & HA & HE).
  { intros k. apply Hmem. }
  { intros k e Hlk. destruct (wf_items c Hwf _ _ Hlk) as (_ & it & -> & _). by eexists. }
  assert (Hempty : items c1 = ∅).
  { apply map_empty. intros k. rewrite Hi1. case_bool_decide as Hk; [done|].
    destruct (items c !! k) eqn:Hlk; [|done]. exfalso. apply Hk, Hmem. by eexists. }
  assert (Hpurge : Purge_in order c = Some (with_evictList GoList.Init c1)).
  { unfold Purge_in. by rewrite Hc1. }
  exists (with_evictList GoList.Init c1). split; [done|].
  split; [done|]. split; [done|]. split; [|split; [|split; [done|split; [done|split; [done|]]]]].
  - intros now k. unfold Peek. simpl. by rewrite Hempty, lookup_empty.
  - assert (Hcb : callback_inv (with_evictList GoList.Init c1)).
    { eapply reachable_callback_inv, reach_Purge; done. }
    destruct Hcb as [Hr _]. simpl in Hr. unfold Stat. simpl.
    rewrite <- (wrap_in_range _ Hr). unfold GoInt.add. apply congr_wrap_eq.
    eapply congr_trans; [apply HE|]. apply congr_add; [apply congr_refl|].
    rewrite Hlen, (wf_size c Hwf). unfold Len, GoList.Len, GoInt.len.
    destruct (wrap_congr (Z.of_nat (length (evictList c)))) as [q Hq]. exists (- q). lia.
  - intros order' Hord'. unfold range_order in Hord'. simpl in Hord'.
    rewrite Hempty, map_to_list_empty in Hord'. simpl in Hord'.
    apply Permutation_nil_r in Hord'. by subst order'.
Qed.

(** ** Entries and the TTL *)

Lemma sub_entries_refl c : sub_entries c c.
Proof. by split. Qed.

Lemma sub_entries_trans c1 c2 c3 :
  sub_entries c1 c2 → sub_entries c2 c3 → sub_entries c1 c3.
Proof. intros [H1 H2] [H3 H4]. split; [congruence|]. intros k it Hk. by apply H2, H4. Qed.

Lemma removeElement_sub_entries e c c' :
  removeElement e c = Some c' → sub_entries c c'.
Proof.
  unfold removeElement. destruct (heap c !! e) as [it0|]; [|done]. simpl.
  intros [= <-]. unfold sub_entries, entry, notify. simpl.
  destruct (onEvicted c); simpl.
  - split; [done|]. intros k it.
    destruct (delete (key it0) (items c) !! k) as [x|] eqn:Hd; [|done].
    apply lookup_delete_Some in Hd as [_ ->]. done.
  - split; [done|]. intros k it.
    destruct (delete (key it0) (items c) !! k) as [x|] eqn:Hd; [|done].
    apply lookup_delete_Some in Hd as [_ ->]. done.
Qed.

Lemma removeOldest_sub_entries c c' : removeOldest c = Some c' → sub_entries c c'.
Proof.
  unfold removeOldest. destruct (GoList.Back (evictList c)).
  - apply removeElement_sub_entries.
  - intros [= <-]. apply sub_entries_refl.
Qed.

Lemma DeleteExpired_loop_sub_entries tick : ∀ ks i c c',
  DeleteExpired_loop tick i ks c = Some c' → sub_entries c c'.
Proof.
  induction ks as [|k ks IH]; intros i c c' Hloop.
  - simpl in Hloop. injection Hloop as <-. apply sub_entries_refl.
  - simpl in Hloop. destruct (items c !! k) as [ent|]; [|done]. simpl in Hloop.
    destruct (heap c !! ent) as [it|] eqn:Hh; [|done]. simpl in Hloop.
    destruct (Time_After (tick i) (expiresAt it)).
    + destruct (removeElement ent c) as [c1|] eqn:Hr; [|done]. simpl in Hloop.
      eapply sub_entries_trans; [by eapply removeElement_sub_entries|by eapply IH].
    + destruct (isLRU c); simpl in Hloop.
      * by eapply IH.
      * injection Hloop as <-. apply sub_entries_refl.
Qed.

Lemma Purge_body_sub_entries k c c' : Purge_body k c = Some c' → sub_entries c c'.
Proof.
  unfold Purge_body. destruct (items c !! k) as [e|]; [|intros [= <-]; apply sub_entries_refl].
  simpl. intros Hb.
  assert (Hsub : ∀ x it, (delete k (items c) !! x) ≫= (λ ent, heap c !! ent) = Some it →
                         entry c x = Some it).
  { intros x it. unfold entry. destruct (delete k (items c) !! x) as [y|] eqn:Hd; [|done].
    apply lookup_delete_Some in Hd as [_ ->]. done. }
  destruct (onEvicted c) eqn:Hon.
  - destruct (heap c !! e) as [it0|]; [|done]. simpl in Hb. injection Hb as <-.
    split; [unfold notify; simpl; by rewrite ?Hon|].
    intros x it. unfold notify. simpl. rewrite ?Hon. apply Hsub.
  - injection Hb as <-. split; [done|]. apply Hsub.
Qed.

Lemma sub_entries_bounded t c c' :
  sub_entries c c' → expiry_bounded t c → expiry_bounded t c'.
Proof. intros [Httl Hsub] Hb k it Hk. rewrite Httl. by apply (Hb k), Hsub. Qed.

Lemma expiry_bounded_wait t t' c : expiry_bounded t c → t <= t' → expiry_bounded t' c.
Proof. intros Hb Hle k it Hk. specialize (Hb k it Hk). lia. Qed.

Lemma reachable_expiry_bounded t c : reachable t c → expiry_bounded t c.
Proof.
  induction 1 as
    [t options c Hopts Hnew
    |t t' c Hreach IH Hle
    |t now now' k v c c' Hreach IH Ht Hn Hstep
    |t now k r c c' Hreach IH Ht Hstep
    |t k c c' Hreach IH Hstep
    |t order fn c c' Hreach IH Hord Hstep
    |t c c' Hreach IH Hstep
    |t t' tick c c' Hreach IH Htick Hstep
    |t order c c' Hreach IH Hord Hstep].
  - unfold NewLoadingCache in Hnew.
    destruct (apply_options_fresh _ _ _ Hopts Hnew) as (Hi & _); try done.
    intros k it. unfold entry. by rewrite Hi, lookup_empty.
  - by eapply expiry_bounded_wait.
  - destruct (reachable_inv _ _ Hreach) as [Hinv _]. pose proof (inv_wf _ _ Hinv) as Hwf.
    destruct (wf_keys c Hwf) as (ks & Hks & _).
    apply expiry_bounded_wait with (t' := now') in IH; [|lia].
    destruct (items c !! k) as [ent|] eqn:Hk.
    + destruct (wf_items c Hwf _ _ Hk) as (_ & it & Hh & _).
      rewrite (Set_existing_unfold now now' k v c ent it Hk Hh) in Hstep.
      injection Hstep as <-.
      destruct (refreshed_effect now k ent it v c ks Hwf Hk Hh Hks) as (_ & Hnew & Hoth).
      intros x itx Hx. simpl. destruct (decide (x = k)) as [->|Hne].
      * rewrite Hnew in Hx. injection Hx as <-. simpl. unfold Time_Add. lia.
      * rewrite Hoth in Hx by done. by apply (IH x).
    + destruct (Set_fresh_effect now now' k v c ks Hwf Hk Hks)
        as (_ & c'' & _ & Hc'' & _ & Hcfg & ks2 & ks3 & _ & _ & _ & Hent & _).
      rewrite Hstep in Hc''. injection Hc'' as <-.
      destruct (pushed_effect now k v c ks Hwf Hk Hks) as (_ & Hentp).
      destruct Hcfg as (Httl & _).
      intros x itx Hx. rewrite Httl. rewrite Hent in Hx.
      case_bool_decide; [|done]. rewrite Hentp in Hx.
      case_bool_decide.
      * injection Hx as <-. simpl. unfold Time_Add. lia.
      * by apply (IH x).
  - apply expiry_bounded_wait with (t' := now) in IH; [|done].
    eapply sub_entries_bounded; [|done]. unfold Get in Hstep.
    destruct (items c !! k) as [ent|].
    + destruct (heap c !! ent) as [it|]; [|done]. simpl in Hstep.
      destruct (Time_After now (expiresAt it)).
      * injection Hstep as <- <-. by split.
      * injection Hstep as <- <-. split; by destruct (isLRU c).
    + injection Hstep as <- <-. by split.
  - eapply sub_entries_bounded; [|done]. unfold Invalidate in Hstep.
    destruct (items c !! k).
    + by eapply removeElement_sub_entries.
    + injection Hstep as <-. apply sub_entries_refl.
  - eapply sub_entries_bounded; [|done]. unfold InvalidateFn_in in Hstep.
    eapply (range_loop_preserves (sub_entries c)); [|done|apply sub_entries_refl].
    intros x s s' Hb Hs. eapply sub_entries_trans; [done|].
    unfold InvalidateFn_body in Hb. destruct (items s !! x).
    + destruct (fn x); [by eapply removeElement_sub_entries|].
      injection Hb as <-. apply sub_entries_refl.
    + injection Hb as <-. apply sub_entries_refl.
  - eapply sub_entries_bounded; [|done]. by apply removeOldest_sub_entries.
  - apply expiry_bounded_wait with (t' := t') in IH; [|specialize (Htick 0%nat); lia].
    eapply sub_entries_bounded; [|done]. unfold DeleteExpired in Hstep.
    destruct (keys c) as [ks|]; [|done]. simpl in Hstep.
    by eapply DeleteExpired_loop_sub_entries.
  - eapply sub_entries_bounded; [|done]. unfold Purge_in in Hstep.
    destruct (range_loop Purge_body order c) as [c1|] eqn:Hloop; [|done].
    simpl in Hstep. injection Hstep as <-.
    apply sub_entries_trans with c1; [|by split].
    eapply (range_loop_preserves (sub_entries c)); [|exact Hloop|apply sub_entries_refl].
    intros x s s' Hb Hs. eapply sub_entries_trans; [done|]. by eapply Purge_body_sub_entries.
Qed.

(** X17. No entry outlives the TTL: when [t] is the latest clock reading
    made so far, no entry of the index expires later than [t + ttl], in LRC
    and in LRU mode; so once the clock has passed [t + ttl] every read
    misses, whether or not the expired entries have been removed. *)
Theorem no_entry_outlives_the_TTL t c :
  reachable t c →
  (∀ k it, entry c k = Some it → expiresAt it <= t + ttl c) ∧
  ∀ now k, t + ttl c < now →
    Peek now k c = Some (None, false) ∧
    ∃ c', Get now k c = Some (None, false, c').
Proof.
  intros Hreach. pose proof (reachable_expiry_bounded _ _ Hreach) as Hb.
  split; [done|]. intros now k Hnow.
  destruct (reachable_inv _ _ Hreach) as [Hinv _]. pose proof (inv_wf _ _ Hinv) as Hwf.
  assert (HG : ∃ c', Get now k c = Some (None, false, c')).
  { destruct (items c !! k) as [ent|] eqn:Hk.
    - destruct (wf_items c Hwf _ _ Hk) as (_ & it & Hh & _).
      eexists. eapply Get_expired; [done..|].
      assert (entry c k = Some it) as Hent by (unfold entry; by rewrite Hk).
      specialize (Hb k it Hent). lia.
    - eexists. by apply Get_absent. }
  split; [|done]. destruct HG as [c' HG]. rewrite Peek_Get_fst. by rewrite HG.
Qed.

(** ** [NewLoadingCache] *)

(** X18. [NewLoadingCache] stops at the first option that fails: it
    returns no cache and the error of that option wrapped with
    ["failed to set cache option"]; the options after it are not applied. *)
Theorem NewLoadingCache_reports_first_failing_option
    (good : list (Option (V := V))) (opt : Option) (rest : list Option) (err : string) :
  (∀ o, o ∈ good → ∀ lc, ∃ lc', o lc = inr lc') →
  (∀ lc, opt lc = inl err) →
  NewLoadingCache (good ++ opt :: rest) =
  inl ("failed to set cache option: " ++ err)%string.
Proof.
  intros Hgood Hbad. unfold NewLoadingCache.
  generalize (mkCache (V := V) noEvictionTTL 0 false false (mkStats 0 0 0 0) ∅ GoList.New ∅
                0%nat []).
  induction good as [|o good IH]; intros c0; simpl.
  - by rewrite Hbad.
  - destruct (Hgood o (list_elem_of_here _ _) c0) as [lc' ->].
    apply IH. intros o' Ho'. apply Hgood. by right.
Qed.

(** ** More on [Set] and [RemoveOldest] *)

(** X19. [Added] counts the keys [Set] inserts, not the values it
    overwrites: [Set] on a key the index holds leaves [Added] as it is, on
    any other key it adds one (as a Go [int]); [Set] never moves [Hits] or
    [Misses]. *)
Theorem Set_counts_new_keys_only t now now' k v c :
  reachable t c →
  ∃ c', Set_ now now' k v c = Some c' ∧
        Hits (Stat c') = Hits (Stat c) ∧ Misses (Stat c') = Misses (Stat c) ∧
        Added (Stat c') =
          if bool_decide (is_Some (items c !! k)) then Added (Stat c)
          else GoInt.incr (Added (Stat c)).
Proof.
  intros [Hinv _]%reachable_inv. pose proof (inv_wf _ _ Hinv) as Hwf.
  destruct (wf_keys c Hwf) as (ks & Hks & _).
  destruct (items c !! k) as [ent|] eqn:Hk.
  - destruct (wf_items c Hwf _ _ Hk) as (_ & it & Hh & _).
    exists (refreshed now ent it v c). split; [by apply Set_existing_unfold|].
    rewrite bool_decide_eq_true_2 by (by eexists). done.
  - destruct (Set_fresh_effect now now' k v c ks Hwf Hk Hks)
      as (it0 & c' & _ & Hc' & _ & _ & ks2 & ks3 & _ & _ & _ & _ & Hst & _).
    exists c'. split; [done|].
    rewrite bool_decide_eq_false_2 by (by intros [? ?]).
    unfold Stat. rewrite Hst.
    by destruct (Set_over c (length ks2)), (Set_trims now' c it0).
Qed.

(** X20. [RemoveOldest] is [Invalidate] of the first key of [Keys]: the
    two calls lead to the same state. *)
Theorem RemoveOldest_is_Invalidate_of_first_key t c k0 rest :
  reachable t c → Keys c = Some (k0 :: rest) →
  RemoveOldest c = Invalidate k0 c ∧ is_Some (RemoveOldest c).
Proof.
  intros [Hinv _]%reachable_inv Hks. pose proof (inv_wf _ _ Hinv) as Hwf.
  destruct (remove_back_effect c k0 rest Hwf Hks)
    as (e & it & c' & Hback & Hh & Hkey & _ & Hc' & _).
  assert (He : e ∈ evictList c).
  { unfold GoList.Back in Hback. apply last_Some in Hback as [l ->]. apply elem_of_app_last. }
  destruct (wf_list c Hwf e He) as (it' & Hh' & Hit).
  rewrite Hh in Hh'. injection Hh' as <-. rewrite Hkey in Hit.
  unfold RemoveOldest, removeOldest, Invalidate. rewrite Hback, Hit, Hc'.
  split; [done|by eexists].
Qed.

(** X22. The size cap holds in every state a user can observe, not only
    after a [Set]: with [MaxKeys > 0], [Len()] is at most [MaxKeys], and
    (below the largest [int]) so is the number of keys [Keys()] lists. *)
Theorem Len_never_exceeds_MaxKeys t c :
  reachable t c → 0 < maxKeys c →
  Len c <= maxKeys c ∧
  (maxKeys c < GoInt.max_int →
   ∃ ks, Keys c = Some ks ∧ Z.of_nat (length ks) <= maxKeys c).
Proof.
  intros [Hinv Hcap]%reachable_inv Hpos. pose proof (inv_wf _ _ Hinv) as Hwf.
  pose proof (inv_maxKeys _ _ Hinv) as Hr. unfold capped in Hcap. split.
  - unfold Len, GoList.Len.
    pose proof (len_le_max (length (evictList c))) as Hw.
    unfold GoInt.in_range in Hr.
    destruct (decide (maxKeys c = GoInt.max_int)) as [Heq|Hne]; [lia|].
    rewrite len_in_range; [apply Hcap; lia|].
    assert (Z.of_nat (length (evictList c)) <= maxKeys c) by (apply Hcap; lia). lia.
  - intros Hlt. destruct (wf_keys c Hwf) as (ks & Hks & _). exists ks. split; [done|].
    destruct (wf_Keys c ks Hwf Hks) as (_ & -> & _). apply Hcap. lia.
Qed.

(** ** What [DeleteExpired] reports, and the order of [Keys()] in LRC mode *)

Lemma omap_cons_Some {A B : Type} (f : A → option B) x l y :
  f x = Some y → omap f (x :: l) = y :: omap f l.
Proof.
  intros Hf.
  change (omap f (x :: l)) with
    (match f x with Some y => y :: omap f l | None => omap f l end).
  by rewrite Hf.
Qed.

Lemma omap_cons_None {A B : Type} (f : A → option B) x l :
  f x = None → omap f (x :: l) = omap f l.
Proof.
  intros Hf.
  change (omap f (x :: l)) with
    (match f x with Some y => y :: omap f l | None => omap f l end).
  by rewrite Hf.
Qed.

Lemma omap_all_None {A B : Type} (f : A → option B) l :
  (∀ x, x ∈ l → f x = None) → omap f l = [].
Proof.
  induction l as [|x l IH]; [done|]. intros Hall.
  rewrite omap_cons_None by (apply Hall; by left).
  apply IH. intros y Hy. apply Hall. by right.
Qed.

Lemma omap_Forall2 {A B C : Type} (R : A → B → Prop) (f : A → option C) (g : B → option C)
    (l : list A) (ks : list B) :
  Forall2 R l ks → (∀ x y, x ∈ l → R x y → f x = g y) → omap f l = omap g ks.
Proof.
  induction 1 as [|x y l ks HR HF IH]; intros Hfg; [done|].
  assert (Hxy : f x = g y) by (apply Hfg; [by left|done]).
  assert (Hrest : omap f l = omap g ks).
  { apply IH. intros x' y' Hin. apply Hfg. by right. }
  destruct (g y) as [z|] eqn:Hg.
  - rewrite (omap_cons_Some f x l z Hxy), (omap_cons_Some g y ks z Hg). by rewrite Hrest.
  - by rewrite (omap_cons_None f x l Hxy), (omap_cons_None g y ks Hg).
Qed.

(** The calls of the callback and the evictions counted by the loop of
    [DeleteExpired] when every clock reading is [now]. *)
Lemma DeleteExpired_loop_report t now :
  ∀ ks U K i c,
    inv t c → evictList c = U ++ K →
    Forall2 (λ e k, key <$> heap c !! e = Some k) (reverse U) ks →
    GoInt.in_range (Evicted (stat c)) →
    ∃ c', DeleteExpired_loop (λ _, now) i ks c = Some c' ∧
          notified c' =
            (notified c ++
             if onEvicted c then omap (expired_elem now (heap c)) (reverse U) else [])%list ∧
          congr (Evicted (stat c'))
                (Evicted (stat c) +
                 Z.of_nat (length (omap (expired_elem now (heap c)) (reverse U)))) ∧
          GoInt.in_range (Evicted (stat c')).
Proof.
  induction ks as [|k ks IH]; intros U K i c Hinv Hl Hf2 Hrange.
  - apply Forall2_nil_inv_r in Hf2. rewrite Hf2. exists c. split; [done|].
    split; [destruct (onEvicted c); by rewrite app_nil_r|].
    split; [|done]. simpl. rewrite Z.add_0_r. apply congr_refl.
  - apply Forall2_cons_inv_r in Hf2 as (e & rU & Hke & Hf2 & HrU). rewrite HrU.
    apply (f_equal reverse) in HrU. rewrite reverse_involutive, reverse_cons in HrU.
    subst U. set (U := reverse rU) in *.
    assert (HrevU : reverse U = rU) by (unfold U; apply reverse_involutive).
    pose proof (inv_wf _ _ Hinv) as Hwf.
    assert (He : e ∈ evictList c).
    { rewrite Hl. apply elem_of_app. left. apply elem_of_app_last. }
    destruct (wf_list c Hwf e He) as (it & Hh & Hki).
    rewrite Hh in Hke. simpl in Hke. injection Hke as Hkey. rewrite Hkey in Hki.
    assert (Hl' : evictList c = U ++ e :: K) by (by rewrite Hl, <- app_assoc).
    assert (Hstep : DeleteExpired_loop (λ _, now) i (k :: ks) c =
              if Time_After now (expiresAt it)
              then c1 ← removeElement e c; DeleteExpired_loop (λ _, now) (S i) ks c1
              else if negb (isLRU c) then Some c
                   else DeleteExpired_loop (λ _, now) (S i) ks c).
    { simpl. rewrite Hki. simpl. by rewrite Hh. }
    rewrite Hstep. clear Hstep.
    destruct (Time_After now (expiresAt it)) eqn:Hexp.
    + assert (Hee : expired_elem now (heap c) e = Some (key it, value it)).
      { unfold expired_elem. rewrite Hh. simpl. by rewrite Hexp. }
      destruct (removeElement_Some e it c Hh) as (c1 & Hrem & Hr).
      pose proof (removeElement_notified e it c c1 Hrem Hh) as Hn1.
      pose proof (removes_inv _ _ _ _ _ Hinv He Hr) as Hinv1.
      destruct Hr as (_ & Hl1 & _ & Hhp1 & Hst1 & _ & (_ & _ & _ & Hon1)).
      assert (Hl1' : evictList c1 = U ++ K).
      { rewrite Hl1, Hl'. apply filter_ne_middle. rewrite <- Hl'. by destruct Hwf. }
      destruct (IH U K (S i) c1 Hinv1 Hl1') as (c' & Hc' & Hn' & He' & Hr').
      { rewrite HrevU. by rewrite Hhp1. }
      { rewrite Hst1. apply wrap_bounds. }
      exists c'. split; [by rewrite Hrem|]. rewrite HrevU, Hhp1, Hon1 in *.
      rewrite (omap_cons_Some _ e rU _ Hee). split; [|split; [|done]].
      * rewrite Hn', Hn1. destruct (onEvicted c); [|done]. by rewrite <- app_assoc.
      * eapply congr_trans; [apply He'|]. rewrite Hst1.
        change (Evicted (incEvicted (stat c))) with (GoInt.incr (Evicted (stat c))).
        destruct (incr_congr (Evicted (stat c))) as [q Hq]. exists q.
        rewrite length_cons. lia.
    + assert (Hee : expired_elem now (heap c) e = None).
      { unfold expired_elem. rewrite Hh. simpl. by rewrite Hexp. }
      rewrite (omap_cons_None _ e rU Hee).
      destruct (isLRU c) eqn:Hlru.
      * destruct (IH U (e :: K) (S i) c Hinv Hl') as (c' & Hc' & Hn' & He' & Hr');
          [by rewrite HrevU|done|].
        rewrite HrevU in *. by exists c'.
      * assert (Hnone : omap (expired_elem now (heap c)) rU = []).
        { apply omap_all_None. intros x Hx.
          assert (HxU : x ∈ U) by (unfold U; by apply elem_of_reverse).
          assert (Hxl : x ∈ evictList c) by (rewrite Hl'; apply elem_of_app; by left).
          destruct (wf_list c Hwf x Hxl) as (itx & Hhx & _).
          pose proof (inv_sorted _ _ Hinv Hlru) as Hso. rewrite Hl' in Hso.
          assert (expiresAt it <= expiresAt itx).
          { apply (expiry_sorted_app _ _ _ _ x e _ _ Hso); [done|by left|done..]. }
          unfold Time_After in Hexp. apply bool_decide_eq_false in Hexp.
          unfold expired_elem, Time_After. rewrite Hhx. simpl.
          rewrite bool_decide_eq_false_2; [done|lia]. }
        exists c. split; [done|]. rewrite Hnone. split.
        -- destruct (onEvicted c); by rewrite app_nil_r.
        -- split; [|done]. simpl. rewrite Z.add_0_r. apply congr_refl.
Qed.

(** X23. [DeleteExpired] with one clock reading [now] calls the callback
    for the expired entries and for them only, from the oldest to the
    newest, each with its key and its value, and counts as many evictions
    (as a Go [int]). *)
Theorem DeleteExpired_reports_the_expired t now c :
  reachable t c →
  ∃ ks c', Keys c = Some ks ∧ DeleteExpired (λ _, now) c = Some c' ∧
           notified c' =
             (notified c ++ if onEvicted c then omap (expired_report now c) ks else [])%list ∧
           Evicted (Stat c') =
             GoInt.add (Evicted (Stat c))
                       (GoInt.len (length (omap (expired_report now c) ks))).
Proof.
  intros Hreach. destruct (reachable_inv _ _ Hreach) as [Hinv _].
  pose proof (inv_wf _ _ Hinv) as Hwf.
  destruct (reachable_callback_inv _ _ Hreach) as [Hrange _].
  destruct (wf_keys c Hwf) as (ks & Hks & Hf2). exists ks.
  destruct (DeleteExpired_loop_report t now ks (evictList c) [] 0 c Hinv)
    as (c' & Hc' & Hn & He & Hr); [by rewrite app_nil_r|done|done|].
  assert (Hom : omap (expired_elem now (heap c)) (reverse (evictList c)) =
                omap (expired_report now c) ks).
  { eapply omap_Forall2; [apply Hf2|]. intros e k Hin HR. simpl in HR.
    rewrite elem_of_reverse in Hin.
    destruct (wf_list c Hwf e Hin) as (it & Hh & Hki).
    rewrite Hh in HR. simpl in HR. injection HR as <-.
    unfold expired_elem, expired_report, entry. rewrite Hh, Hki. simpl. by rewrite Hh. }
  rewrite Hom in Hn, He.
  exists c'. split; [done|]. split; [unfold DeleteExpired; by rewrite Hks|].
  split; [done|]. unfold Stat, GoInt.add.
  rewrite <- (wrap_in_range _ Hr). apply congr_wrap_eq.
  eapply congr_trans; [apply He|]. apply congr_add; [apply congr_refl|].
  unfold GoInt.len.
  destruct (wrap_congr (Z.of_nat (length (omap (expired_report now c) ks)))) as [q Hq].
  exists (- q). lia.
Qed.

(** X24. In LRC mode [Keys()] is sorted by expiry, as the comment in
    [DeleteExpired] says: a key listed before another does not expire
    after it. *)
Theorem LRC_Keys_sorted_by_expiry t c ks1 ks2 k1 k2 it1 it2 :
  reachable t c → isLRU c = false →
  Keys c = Some (ks1 ++ ks2) → k1 ∈ ks1 → k2 ∈ ks2 →
  entry c k1 = Some it1 → entry c k2 = Some it2 →
  expiresAt it1 <= expiresAt it2.
Proof.
  intros [Hinv _]%reachable_inv Hlrc Hks Hk1 Hk2 He1 He2.
  pose proof (inv_wf _ _ Hinv) as Hwf.
  pose proof (inv_sorted _ _ Hinv Hlrc) as Hso.
  apply keys_Forall2 in Hks.
  apply Forall2_app_inv_r in Hks as (l1 & l2 & Hf1 & Hf2 & Hrev).
  apply (f_equal reverse) in Hrev. rewrite reverse_involutive, reverse_app in Hrev.
  assert (Hfind : ∀ l ks k it, Forall2 (λ e k, key <$> heap c !! e = Some k) l ks →
            (∀ e, e ∈ l → e ∈ evictList c) → k ∈ ks → entry c k = Some it →
            ∃ e, e ∈ l ∧ heap c !! e = Some it).
  { intros l ks k it HF Hsub Hk Hent.
    destruct (Forall2_elem_of_r _ _ _ _ HF Hk) as (e & Hin & HR). simpl in HR.
    destruct (wf_list c Hwf e (Hsub e Hin)) as (it' & Hh & Hki).
    rewrite Hh in HR. simpl in HR. injection HR as Hkey.
    exists e. split; [done|]. rewrite Hh. f_equal.
    unfold entry in Hent. rewrite <- Hkey, Hki in Hent. simpl in Hent. congruence. }
  destruct (Hfind l1 ks1 k1 it1 Hf1) as (e1 & Hin1 & Hh1); [|done|done|].
  { intros e He. rewrite Hrev. apply elem_of_app. right. by apply elem_of_reverse. }
  destruct (Hfind l2 ks2 k2 it2 Hf2) as (e2 & Hin2 & Hh2); [|done|done|].
  { intros e He. rewrite Hrev. apply elem_of_app. left. by apply elem_of_reverse. }
  rewrite Hrev in Hso.
  apply (expiry_sorted_app _ _ _ _ e2 e1 it2 it1 Hso); [|  |done..];
    by apply elem_of_reverse.
Qed.

End MoreProperties.

(** * The options builder of v2 *)

Section OptionsBuilder.

Context {F : Type}.

Import V2Options.

Lemma last_omap_cons {A B : Type} (f : A → option B) (x : A) (l : list A) :
  last (omap f (x :: l)) =
  match last (omap f l) with
  | Some y => Some y
  | None => f x
  end.
Proof.
  change (omap f (x :: l)) with
    (match f x with Some y => y :: omap f l | None => omap f l end).
  destruct (f x) as [y|]; [|by destruct (last (omap f l))].
  rewrite last_cons. by destruct (last (omap f l)).
Qed.

(** X21. A chain of setter calls on an options object returns the pointer
    it started from and changes that object only: each of [ttl] and
    [maxKeys] holds the argument of the last call of its setter, [lru] is
    [true] once [LRU] has been called, [onEvicted] is the argument of the
    last [OnEvicted]; a field whose setter was not called keeps its value.
    Calls of different setters do not interfere. *)
Theorem options_chain_last_call_wins (cs : list (call F)) (o : ptr) :
  ∀ (s : store F) (r : options F),
  s !! o = Some r →
  ∃ r', chain cs o s = Some (o, <[o := r']> s) ∧
        ttl r' = from_option Some (ttl r) (last (omap TTL_arg cs)) ∧
        maxKeys r' = from_option Some (maxKeys r) (last (omap MaxKeys_arg cs)) ∧
        lru r' = (if existsb is_LRU cs then Some true else lru r) ∧
        onEvicted r' = from_option id (onEvicted r) (last (omap OnEvicted_arg cs)).
Proof.
  unfold ptr, store in *.
  induction cs as [|c cs IH]; intros s r Hr.
  - exists r. rewrite (list_insert_id s o r Hr). by repeat split.
  - pose proof (lookup_lt_Some _ _ _ Hr) as Hlt.
    assert (∃ r1, apply_call c o s = Some (o, <[o := r1]> s) ∧
                  ttl r1 = from_option Some (ttl r) (TTL_arg c) ∧
                  maxKeys r1 = from_option Some (maxKeys r) (MaxKeys_arg c) ∧
                  lru r1 = (if is_LRU c then Some true else lru r) ∧
                  onEvicted r1 = from_option id (onEvicted r) (OnEvicted_arg c))
      as (r1 & Hc & H1 & H2 & H3 & H4).
    { destruct c; simpl; unfold TTL, MaxKeys, LRU, OnEvicted, ptr, store; rewrite Hr; simpl;
        eexists; (split; [done|]); by repeat split. }
    destruct (IH (<[o := r1]> s) r1) as (r' & Hch & H1' & H2' & H3' & H4').
    { by apply (list_lookup_insert_eq s o r1). }
    exists r'. split; [|split; [|split; [|split]]].
    + simpl. rewrite Hc. simpl. rewrite Hch. by rewrite (list_insert_insert_eq s o r' r1).
    + rewrite H1', H1, last_omap_cons. by destruct (last (omap TTL_arg cs)), (TTL_arg c).
    + rewrite H2', H2, last_omap_cons.
      by destruct (last (omap MaxKeys_arg cs)), (MaxKeys_arg c).
    + rewrite H3', H3. simpl. by destruct (is_LRU c), (existsb is_LRU cs).
    + rewrite H4', H4, last_omap_cons.
      by destruct (last (omap OnEvicted_arg cs)), (OnEvicted_arg c).
Qed.

End OptionsBuilder.

(** * [Set] and the entry it writes *)

Section SetKeeps.

Context {V : Type}.

(** The key listed last by [keys] is the key of the front element. *)
Lemma keys_last_is_front (c : loadingCacheImpl V) l k :
  wf c → keys c = Some (l ++ [k]) →
  ∃ ent rest it, evictList c = ent :: rest ∧ items c !! k = Some ent ∧
                 heap c !! ent = Some it ∧ key it = k.
Proof.
  intros Hwf Hks. apply keys_Forall2 in Hks.
  apply Forall2_app_inv_r in Hks as (l1 & l2 & _ & Hf2 & Hrev).
  apply Forall2_cons_inv_r in Hf2 as (e & l2' & HR & Hnil & ->).
  apply Forall2_nil_inv_r in Hnil as ->.
  apply (f_equal reverse) in Hrev. rewrite reverse_involutive, reverse_snoc in Hrev.
  assert (Hin : e ∈ evictList c) by (rewrite Hrev; by left).
  destruct (wf_list c Hwf e Hin) as (it & Hh & Hki).
  rewrite Hh in HR. simpl in HR. injection HR as Hkey. rewrite Hkey in Hki.
  by exists e, (reverse l1), it.
Qed.

(** C10, amended. [Set] returns, and it removes the entry it has just
    written in one case only: the key is new, the cache is empty, a TTL is
    configured and the clock has passed [now + ttl] when the expiry trim
    reads it ([now'] is that reading); the cache is then empty again. In
    every other case, whatever the TTL and the clock readings, the key is
    in the index when [Set] returns and points to the front element of the
    list, which holds the value written and expires at [now + ttl]: the
    expiry trim and the size eviction remove a back element that is not
    it. *)
Theorem Set_keeps_written_entry t now now' k v (c : loadingCacheImpl V) :
  reachable t c →
  ∃ c', Set_ now now' k v c = Some c' ∧
        (is_Some (items c !! k) ∨ evictList c ≠ [] ∨ ttl c = noEvictionTTL ∨
         now' <= Time_Add now (ttl c) →
         ∃ ent rest it,
           items c' !! k = Some ent ∧ evictList c' = ent :: rest ∧
           heap c' !! ent = Some it ∧
           key it = k ∧ value it = v ∧ expiresAt it = Time_Add now (ttl c)) ∧
        (items c !! k = None → evictList c = [] → ttl c ≠ noEvictionTTL →
         Time_Add now (ttl c) < now' →
         items c' !! k = None ∧ evictList c' = [] ∧
         Evicted (Stat c') = GoInt.incr (Evicted (Stat c))).
Proof.
  intros [Hinv Hcap]%reachable_inv. pose proof (inv_wf _ _ Hinv) as Hwf.
  destruct (wf_keys c Hwf) as (ks & Hks & _).
  destruct (wf_Keys c ks Hwf Hks) as (_ & Hlen & _).
  set (new := mkItem (Time_Add now (ttl c)) k v).
  assert (Hfront : ∀ c' l, wf c' → keys c' = Some (l ++ [k]) → entry c' k = Some new →
            ∃ ent rest it,
              items c' !! k = Some ent ∧ evictList c' = ent :: rest ∧
              heap c' !! ent = Some it ∧
              key it = k ∧ value it = v ∧ expiresAt it = Time_Add now (ttl c)).
  { intros c' l Hwf' Hks' Hent'.
    destruct (keys_last_is_front c' l k Hwf' Hks') as (ent & rest & it & Hl & Hk' & Hh & Hki).
    unfold entry in Hent'. rewrite Hk' in Hent'. simpl in Hent'.
    rewrite Hh in Hent'. injection Hent' as ->.
    exists ent, rest, new. by repeat split. }
  destruct (items c !! k) as [ent|] eqn:Hk.
  - destruct (wf_items c Hwf _ _ Hk) as (Hin & it & Hh & _).
    destruct (refreshed_effect now k ent it v c ks Hwf Hk Hh Hks) as (Hks' & Hent' & _).
    exists (refreshed now ent it v c). split; [by apply Set_existing_unfold|].
    split; [|done]. intros _.
    apply (Hfront _ (filter (λ x, x ≠ k) ks)); [|done..].
    by apply (refreshed_wf now k).
  - destruct (Set_fresh_effect now now' k v c ks Hwf Hk Hks)
      as (it0 & c' & Hit0 & Hc' & Hwf' & _ & ks2 & ks3 & Hks2 & Hks3 & Hkeys & Hent & Hst & _).
    destruct (pushed_effect now k v c ks Hwf Hk Hks) as (_ & Hentp).
    assert (Hnewp : entry (pushed now k v c) k = Some new).
    { rewrite Hentp. by rewrite bool_decide_eq_true_2. }
    assert (Hkeep : ∀ l, ks3 = (l ++ [k])%list →
              ∃ ent rest it,
                items c' !! k = Some ent ∧ evictList c' = ent :: rest ∧
                heap c' !! ent = Some it ∧
                key it = k ∧ value it = v ∧ expiresAt it = Time_Add now (ttl c)).
    { intros l Hl. apply (Hfront c' l Hwf'); [by rewrite Hkeys, Hl|].
      rewrite Hent, bool_decide_eq_true_2; [done|].
      rewrite Hl. apply elem_of_app. right. by left. }
    exists c'. split; [done|].
    destruct ks as [|k0 rest].
    + (* the cache is empty: the entry written is the back element *)
      assert (Hnil : evictList c = []) by (by destruct (evictList c)).
      simpl in Hit0. rewrite Hnewp in Hit0. injection Hit0 as <-.
      assert (Hover : ∀ n, (n <= 1)%nat → Set_over c n = false).
      { intros n Hn. unfold Set_over. apply andb_false_iff.
        destruct (decide (0 < maxKeys c)); [right|left; by apply bool_decide_eq_false].
        apply bool_decide_eq_false. unfold GoInt.len.
        rewrite wrap_in_range; [lia|].
        unfold GoInt.in_range, GoInt.min_int, GoInt.max_int. lia. }
      unfold Set_trims in Hks2, Hst. simpl in Hks2, Hst. split.
      * intros [[? ?]|[Hne|[Httl|Hlive]]]; [done|done| |].
        -- rewrite bool_decide_eq_false_2 in Hks2 by (by intros ?). simpl in Hks2.
           apply (Hkeep []). rewrite Hks3, Hks2. by rewrite Hover by (simpl; lia).
        -- unfold Time_After in Hks2.
           rewrite (bool_decide_eq_false_2 (Time_Add now (ttl c) < now')) in Hks2 by lia.
           rewrite andb_false_r in Hks2.
           apply (Hkeep []). rewrite Hks3, Hks2. by rewrite Hover by (simpl; lia).
      * intros _ _ Httl Hexp. unfold Time_After in Hks2, Hst.
        rewrite bool_decide_eq_true_2 in Hks2, Hst by done.
        rewrite bool_decide_eq_true_2 in Hks2, Hst by done.
        simpl in Hks2, Hst. subst ks2. simpl in Hks3, Hst.
        rewrite Hover in Hks3, Hst by lia. subst ks3.
        destruct (wf_Keys c' [] Hwf' Hkeys) as (_ & Hlen' & Hmem').
        split; [|split].
        -- destruct (items c' !! k) eqn:Hk'; [|done]. exfalso.
           assert (k ∈ @nil string) as Hin by (apply Hmem'; by eexists).
           by apply elem_of_nil in Hin.
        -- by destruct (evictList c').
        -- unfold Stat. by rewrite Hst.
    + (* the cache holds an older entry: it is the one a removal takes *)
      split; [|intros _ Hnil; rewrite Hnil in Hlen; done]. intros _.
      assert (Hbase : ((k0 :: rest) ++ [k])%list = k0 :: (rest ++ [k])%list) by done.
      rewrite Hbase in Hks2.
      destruct (Set_trims now' c it0).
      * simpl in Hks2. apply (Hkeep rest). rewrite Hks3, Hks2.
        rewrite capped_not_over; [done|apply Hinv|done|].
        rewrite length_app, <- Hlen. simpl. lia.
      * destruct (Set_over c (length ks2)).
        -- apply (Hkeep rest). by rewrite Hks3, Hks2.
        -- apply (Hkeep (k0 :: rest)). by rewrite Hks3, Hks2.
Qed.

End SetKeeps.

(** * The properties on concrete runs *)

Open Scope string_scope.

Lemma ex_ab_reachable : reachable 1 ex_ab.
Proof.
  apply (reach_Set 0 1 1 "b" (Some "B") ex_a); [|lia|lia|by vm_compute].
  apply (reach_Set 0 0 0 "a" (Some "A") ex_new); [|lia|lia|by vm_compute].
  apply (reach_New 0 [TTL 10; MaxKeys 2; OnEvicted]); [|done].
  repeat constructor; by vm_compute.
Defined.

Lemma ex_lru_ab_reachable : reachable 1 ex_lru_ab.
Proof.
  apply (reach_Set 0 1 1 "b" (Some "B") ex_lru_a); [|lia|lia|by vm_compute].
  apply (reach_Set 0 0 0 "a" (Some "A") ex_lru_new); [|lia|lia|by vm_compute].
  apply (reach_New 0 [LRU; MaxKeys 2; TTL 10]); [|done].
  repeat constructor; by vm_compute.
Defined.

(** C1 on [ex_ab] at instant 100, when "a" (expiry 10) has expired. *)
Lemma Get_Peek_miss_witness :
  ∃ c', Get 100 "a" ex_ab = Some (None, false, c') ∧
        Peek 100 "a" ex_ab = Some (None, false) ∧
        Misses (Stat c') = GoInt.incr (Misses (Stat ex_ab)) ∧
        Hits (Stat c') = Hits (Stat ex_ab) ∧
        Added (Stat c') = Added (Stat ex_ab) ∧
        Evicted (Stat c') = Evicted (Stat ex_ab) ∧
        items c' = items ex_ab ∧ evictList c' = evictList ex_ab ∧
        heap c' = heap ex_ab ∧ Len c' = Len ex_ab.
Proof.
  apply (Get_Peek_miss 100 "a" ex_ab). right. exists ex_item_a.
  split; by vm_compute.
Defined.

(** C7 on [ex_ab]: "a", the oldest entry, expires at 10. *)
Lemma expiry_is_strict_witness :
  GoList.Back (evictList ex_ab) = items ex_ab !! "a" ∧
  (∀ now, Time_After now (expiresAt ex_item_a) = true ↔ now > expiresAt ex_item_a) ∧
  (∀ now, ∃ r ok c',
     Get now "a" ex_ab = Some (r, ok, c') ∧ Peek now "a" ex_ab = Some (r, ok) ∧
     (ok = false ↔ now > expiresAt ex_item_a) ∧
     r = (if ok then value ex_item_a else None)) ∧
  (∃ c', Get (expiresAt ex_item_a) "a" ex_ab = Some (value ex_item_a, true, c')) ∧
  Peek (expiresAt ex_item_a) "a" ex_ab = Some (value ex_item_a, true) ∧
  (∀ now tick, (∀ j, tick j = now) →
     ∃ c', DeleteExpired tick ex_ab = Some c' ∧
           (entry c' "a" = None ↔ now > expiresAt ex_item_a) ∧
           (now <= expiresAt ex_item_a →
            entry c' "a" = Some ex_item_a ∧
            ∃ ent, items c' !! "a" = Some ent ∧ ent ∈ evictList c')) ∧
  (∀ tick, (∀ j, tick j = expiresAt ex_item_a) →
     ∃ c' ent, DeleteExpired tick ex_ab = Some c' ∧ entry c' "a" = Some ex_item_a ∧
               items c' !! "a" = Some ent ∧ ent ∈ evictList c') ∧
  (∀ now, GoList.Back (evictList ex_ab) = items ex_ab !! "a" →
     ∃ c', removeOldestIfExpired now ex_ab = Some c' ∧
           (entry c' "a" = None ↔ now > expiresAt ex_item_a) ∧
           (now <= expiresAt ex_item_a → c' = ex_ab)).
Proof.
  split; [by vm_compute|].
  apply (expiry_is_strict 1 "a" ex_ab ex_item_a); [|by vm_compute].
  apply ex_ab_reachable.
Defined.

(** C5 on the LRU cache: [Get("a")] at instant 5 moves "a" behind "b". *)
Lemma Get_live_Keys_order_witness :
  ∃ ks c', Keys ex_lru_ab = Some ks ∧
           Get 5 "a" ex_lru_ab = Some (value ex_item_a, true, c') ∧
           Keys c' = Some (if isLRU ex_lru_ab
                           then (filter (λ x, x ≠ "a") ks ++ ["a"])%list else ks).
Proof.
  apply (Get_live_Keys_order 1 5 "a" ex_lru_ab ex_item_a);
    [apply ex_lru_ab_reachable|by vm_compute|by vm_compute].
Defined.

(** C2 on [ex_ab], which is full: a third key at instant 2. *)
Lemma Set_respects_MaxKeys_witness :
  ∃ c', Set_ 2 2 "c" (Some "C") ex_ab = Some c' ∧ Len c' <= maxKeys c'.
Proof.
  apply (Set_respects_MaxKeys 1 2 2 "c" (Some "C") ex_ab);
    [apply ex_ab_reachable|by vm_compute|lia|lia].
Defined.

(** C6 on [ex_ab]. *)
Lemma Added_minus_Evicted_is_Len_witness :
  GoInt.sub (Added (Stat ex_ab)) (Evicted (Stat ex_ab)) = Len ex_ab ∧
  (∀ e, e ∈ evictList ex_ab →
     ∃ c', removeElement e ex_ab = Some c' ∧
           Evicted (Stat c') = GoInt.incr (Evicted (Stat ex_ab)) ∧
           Added (Stat c') = Added (Stat ex_ab) ∧
           S (length (evictList c')) = length (evictList ex_ab)) ∧
  (∀ order, range_order ex_ab order →
     ∃ c', Purge_in order ex_ab = Some c' ∧ evictList c' = [] ∧ items c' = ∅ ∧
           GoInt.wrap (Evicted (Stat c')) =
             GoInt.wrap (Evicted (Stat ex_ab) + Z.of_nat (length (evictList ex_ab))) ∧
           Added (Stat c') = Added (Stat ex_ab)) ∧
  (∀ now now' k v, is_Some (items ex_ab !! k) →
     ∃ c', Set_ now now' k v ex_ab = Some c' ∧ Stat c' = Stat ex_ab).
Proof. apply (Added_minus_Evicted_is_Len 1 ex_ab), ex_ab_reachable. Defined.

(** C3 on [ex_ab] at instant 11, when "a" has expired and "b" has not. *)
Lemma DeleteExpired_removes_expired_witness :
  (isLRU ex_ab = false → expiry_sorted (heap ex_ab) (1 + ttl ex_ab) (evictList ex_ab)) ∧
  ∃ c', DeleteExpired (λ _, 11) ex_ab = Some c' ∧
        (∀ e it, e ∈ evictList c' → heap c' !! e = Some it → ¬ expiresAt it < 11) ∧
        (∀ k it, entry c' k = Some it → ¬ expiresAt it < 11).
Proof.
  apply (DeleteExpired_removes_expired 1 11 (λ _, 11) ex_ab);
    [apply ex_ab_reachable|intros _; lia].
Defined.

(** C4: on [ex_ab] at instant 100 the back entry "a" has expired. [Set] on
    the key "b", which the cache holds, returns before the trim: "a" stays
    and nothing is evicted. [Set] on a new key "c" removes "a". *)
Lemma Set_existing_key_skips_trim :
  reachable 1 ex_ab ∧ ttl ex_ab ≠ noEvictionTTL ∧
  (∃ e, GoList.Back (evictList ex_ab) = Some e ∧ heap ex_ab !! e = Some ex_item_a ∧
        Time_After 100 (expiresAt ex_item_a) = true) ∧
  (∃ c', Set_ 100 100 "b" (Some "B2") ex_ab = Some c' ∧
         Keys c' = Some ["a"; "b"] ∧ entry c' "a" = Some ex_item_a ∧
         Evicted (Stat c') = 0 ∧ Len c' = 2) ∧
  (∃ c', Set_ 100 100 "c" (Some "C") ex_ab = Some c' ∧
         Keys c' = Some ["b"; "c"] ∧ entry c' "a" = None ∧
         Evicted (Stat c') = 1 ∧ Len c' = 2).
Proof.
  split; [apply ex_ab_reachable|]. split; [by vm_compute|]. split; [|split].
  - exists 0%nat. by vm_compute.
  - eexists. split; [by vm_compute|]. by vm_compute.
  - eexists. split; [by vm_compute|]. by vm_compute.
Qed.

(** C10 as stated fails: with a TTL of 1ns, a [Set] during which the clock
    advances by 5ns removes the entry it wrote. *)
Lemma Set_drops_written_entry :
  reachable 0 ex_tiny ∧ 0 < ttl ex_tiny ∧
  ∃ c', Set_ 0 5 "a" (Some "A") ex_tiny = Some c' ∧ reachable 5 c' ∧
        items c' !! "a" = None ∧ Len c' = 0 ∧ Evicted (Stat c') = 1.
Proof.
  assert (Hr : reachable 0 ex_tiny).
  { apply (reach_New 0 [TTL Nanosecond]); [|done]. repeat constructor. }
  split; [done|]. split; [by vm_compute|].
  eexists. split; [by vm_compute|]. split; [|by vm_compute].
  apply (reach_Set 0 0 5 "a" (Some "A") ex_tiny); [done|lia|lia|by vm_compute].
Qed.

(** C10, amended, on [ex_ab], which is not empty: a third key at instant
    2, the trim reading the clock at instant 100, long after the new entry
    has expired. *)
Lemma Set_keeps_written_entry_witness :
  evictList ex_ab ≠ [] ∧ ¬ (100 <= Time_Add 2 (ttl ex_ab)) ∧
  ∃ c', Set_ 2 100 "c" (Some "C") ex_ab = Some c' ∧
        (is_Some (items ex_ab !! "c") ∨ evictList ex_ab ≠ [] ∨
         ttl ex_ab = noEvictionTTL ∨ 100 <= Time_Add 2 (ttl ex_ab) →
         ∃ ent rest it,
           items c' !! "c" = Some ent ∧ evictList c' = ent :: rest ∧
           heap c' !! ent = Some it ∧
           key it = "c" ∧ value it = Some "C" ∧
           expiresAt it = Time_Add 2 (ttl ex_ab)) ∧
        (items ex_ab !! "c" = None → evictList ex_ab = [] →
         ttl ex_ab ≠ noEvictionTTL → Time_Add 2 (ttl ex_ab) < 100 →
         items c' !! "c" = None ∧ evictList c' = [] ∧
         Evicted (Stat c') = GoInt.incr (Evicted (Stat ex_ab))).
Proof.
  split; [by vm_compute|]. split; [vm_compute; intros Hle; by apply Hle|].
  apply (Set_keeps_written_entry 1 2 100 "c" (Some "C") ex_ab), ex_ab_reachable.
Defined.

(** C8 on a v3 engine whose only entry expired at instant 5, read at 10. *)
Lemma adapter_masks_value_when_absent_witness :
  ∃ s', V3.Get "" 10 "k" ex_v3 = ("stored", false, s') ∧
        V2.Get (Cache0 := V2.v3 "") "" 10 "k" ex_v3 = ("", false, s') ∧
        V3.Peek "" 10 "k" ex_v3 = ("stored", false, ex_v3) ∧
        V2.Peek (Cache0 := V2.v3 "") "" 10 "k" ex_v3 = ("", false, ex_v3).
Proof.
  apply (proj2 (adapter_masks_value_when_absent "") 10 "k" ex_v3
           (V3.mkEntry "k" "stored" 5)); by vm_compute.
Defined.

(** C9, amended, on the state the package's example ends in (one hit, one
    miss), on that state after one more miss, and on [ex_ab], which has not
    been read yet. *)
Lemma String_renders_witness :
  String_ ex_doc_state =
    Some "Size: 1, Stats: {Hits:1 Misses:1 Added:2 Evicted:1} (50.0%)" ∧
  String_ ex_doc_missed =
    Some "Size: 1, Stats: {Hits:1 Misses:2 Added:2 Evicted:1} (33.3%)" ∧
  hit_pct (Hits (Stat ex_ab)) (Misses (Stat ex_ab)) = "NaN" ∧
  String_ ex_ab =
    Some ("Size: " ++ Fmt.itoa (Len ex_ab) ++
          ", Stats: {Hits:0 Misses:" ++ Fmt.itoa (Misses (Stat ex_ab)) ++
          " Added:" ++ Fmt.itoa (Added (Stat ex_ab)) ++
          " Evicted:" ++ Fmt.itoa (Evicted (Stat ex_ab)) ++ "} (NaN%)").
Proof.
  split; [|split].
  - destruct (String_renders ex_doc_state) as (_ & _ & _ & Hr & _).
    rewrite Hr. by vm_compute.
  - destruct (String_renders ex_doc_missed) as (_ & _ & _ & Hr & _).
    rewrite Hr. by vm_compute.
  - destruct (String_renders ex_ab) as (_ & _ & _ & _ & Hnan & _).
    apply Hnan; by vm_compute.
Defined.

(** [n] calls of [Get] on a key that is not there are [n] misses. *)
Lemma ex_missed_reachable (n : nat) : reachable 0 (ex_missed n).
Proof.
  induction n as [|n IH].
  - replace (ex_missed 0) with ex_read by (by vm_compute).
    apply (reach_Get 0 0 "a" (Some "A", true)
             (ex_or (Set_ 0 0 "a" (Some "A") ex_unlimited))); [|lia|by vm_compute].
    apply (reach_Set 0 0 0 "a" (Some "A") ex_unlimited); [|lia|lia|by vm_compute].
    apply (reach_New 0 []); [constructor|done].
  - apply (reach_Get 0 0 "x" (None, false) (ex_missed n)); [done|lia|].
    rewrite Get_absent by done. unfold ex_missed, with_stat, incMisses. simpl.
    do 4 f_equal. apply congr_wrap_eq.
    rewrite Nat2Z.inj_succ. unfold Z.succ.
    apply congr_add; [apply wrap_congr|apply congr_refl].
Qed.

(** C9 as stated fails once a counter has wrapped around: after one hit and
    [2 ^ 64 - 1] misses, [Misses] is [-1] and [Hits + Misses] is [0], yet
    [100 * float64(1) / float64(0)] is [+Inf], not [NaN]. *)
Lemma String_renders_Inf_after_wraparound :
  reachable 0 ex_wrapped ∧
  GoInt.add (Hits (Stat ex_wrapped)) (Misses (Stat ex_wrapped)) = 0 ∧
  String_ ex_wrapped =
    Some "Size: 1, Stats: {Hits:1 Misses:-1 Added:1 Evicted:0} (+Inf%)".
Proof.
  split; [|split; by vm_compute].
  pose proof (ex_missed_reachable (Z.to_nat (2 ^ 64 - 1))) as Hreach.
  unfold ex_missed in Hreach. rewrite Z2Nat.id in Hreach by done.
  replace (GoInt.wrap (2 ^ 64 - 1)) with (-1) in Hreach by (by vm_compute).
  exact Hreach.
Qed.

(** The scenarios of the specification and the test of [RemoveOldest]. *)
Lemma scenario_LRC : ex_scenario [MaxKeys 2] = Some ["b"; "c"].
Proof. by vm_compute. Qed.

Lemma scenario_LRU : ex_scenario [MaxKeys 2; LRU] = Some ["a"; "c"].
Proof. by vm_compute. Qed.

Lemma test_RemoveOldest :
  ex_RemoveOldest = Some (["key1"], ["key1"; "key2"], ["key2"]).
Proof. by vm_compute. Qed.

(** The output the package's example documents. *)
Lemma String_of_the_example :
  (ex_doc ≫= String_) =
  Some "Size: 1, Stats: {Hits:1 Misses:1 Added:2 Evicted:1} (50.0%)".
Proof. by vm_compute. Qed.

Close Scope string_scope.

(** * The further properties on concrete runs *)

Open Scope string_scope.

Lemma ex_a_reachable : reachable 0 ex_a.
Proof.
  apply (reach_Set 0 0 0 "a" (Some "A") ex_new); [|lia|lia|by vm_compute].
  apply (reach_New 0 [TTL 10; MaxKeys 2; OnEvicted]); [|done].
  repeat constructor; by vm_compute.
Defined.

Lemma ex_unlimited_reachable : reachable 0 ex_unlimited.
Proof. apply (reach_New 0 []); [constructor|done]. Defined.

Lemma ex_ab_default_order : range_order ex_ab (default_order ex_ab).
Proof. unfold range_order, default_order. reflexivity. Defined.

(** X1 on [ex_ab]. *)
Lemma Keys_lists_the_index_witness :
  ∃ ks, Keys ex_ab = Some ks ∧ NoDup ks ∧ Len ex_ab = GoInt.len (length ks) ∧
        ∀ k, k ∈ ks ↔ is_Some (items ex_ab !! k).
Proof. apply (Keys_lists_the_index 1 ex_ab), ex_ab_reachable. Defined.

(** X3 on [ex_ab]: [Invalidate("a")]. *)
Lemma Invalidate_removes_the_key_witness :
  ∃ ks c', Keys ex_ab = Some ks ∧ Invalidate "a" ex_ab = Some c' ∧
           Keys c' = Some (filter (λ x, x ≠ "a") ks) ∧
           entry c' "a" = None ∧ (∀ k', k' ≠ "a" → entry c' k' = entry ex_ab k') ∧
           Invalidate "a" c' = Some c' ∧
           match entry ex_ab "a" with
           | Some it =>
               Stat c' = incEvicted (Stat ex_ab) ∧
               notified c' =
                 if onEvicted ex_ab then (notified ex_ab ++ [("a", value it)])%list
                 else notified ex_ab
           | None => c' = ex_ab
           end.
Proof. apply (Invalidate_removes_the_key 1 "a" ex_ab), ex_ab_reachable. Defined.

(** X4 on [ex_ab]. *)
Lemma RemoveOldest_removes_first_key_witness :
  ∃ ks c', Keys ex_ab = Some ks ∧ RemoveOldest ex_ab = Some c' ∧ Keys c' = Some (tail ks) ∧
           match ks with
           | [] => c' = ex_ab
           | k :: _ =>
               entry c' k = None ∧ (∀ k', k' ≠ k → entry c' k' = entry ex_ab k') ∧
               Stat c' = incEvicted (Stat ex_ab) ∧
               ∃ it, entry ex_ab k = Some it ∧
                     notified c' =
                       if onEvicted ex_ab then (notified ex_ab ++ [(k, value it)])%list
                       else notified ex_ab
           end.
Proof. apply (RemoveOldest_removes_first_key 1 ex_ab), ex_ab_reachable. Defined.

(** X5 on [ex_ab]: the predicate is true of "a" only. *)
Lemma InvalidateFn_removes_matching_keys_witness :
  ∃ ks c', Keys ex_ab = Some ks ∧
           InvalidateFn_in (default_order ex_ab) (String.eqb "a") ex_ab = Some c' ∧
           Keys c' = Some (filter (λ k, String.eqb "a" k = false) ks) ∧
           ∀ k, entry c' k = if String.eqb "a" k then None else entry ex_ab k.
Proof.
  apply (InvalidateFn_removes_matching_keys 1 (default_order ex_ab) (String.eqb "a") ex_ab);
    [apply ex_ab_reachable|apply ex_ab_default_order].
Defined.

(** X6 on [ex_ab]: "a" is written again at instant 2. *)
Lemma Set_on_present_key_promotes_witness :
  ∃ ks c', Keys ex_ab = Some ks ∧ Set_ 2 2 "a" (Some "A2") ex_ab = Some c' ∧
           Keys c' = Some (filter (λ x, x ≠ "a") ks ++ ["a"])%list ∧
           entry c' "a" = Some (mkItem (Time_Add 2 (ttl ex_ab)) "a" (Some "A2")) ∧
           (∀ k', k' ≠ "a" → entry c' k' = entry ex_ab k') ∧
           Len c' = Len ex_ab ∧ Stat c' = Stat ex_ab ∧ notified c' = notified ex_ab.
Proof.
  apply (Set_on_present_key_promotes 1 2 2 "a" (Some "A2") ex_ab);
    [apply ex_ab_reachable|]. eexists. by vm_compute.
Defined.

(** X7 on [ex_ab]: a third key at instant 2. *)
Lemma Set_evicts_at_most_the_oldest_witness :
  ∃ ks c', Keys ex_ab = Some ks ∧ Set_ 2 2 "c" (Some "C") ex_ab = Some c' ∧
           ((Keys c' = Some (filter (λ x, x ≠ "c") ks ++ ["c"])%list ∧
             Evicted (Stat c') = Evicted (Stat ex_ab)) ∨
            (items ex_ab !! "c" = None ∧ Keys c' = Some (tail (ks ++ ["c"])%list) ∧
             Evicted (Stat c') = GoInt.incr (Evicted (Stat ex_ab)))).
Proof.
  apply (Set_evicts_at_most_the_oldest 1 2 2 "c" (Some "C") ex_ab), ex_ab_reachable.
Defined.

(** X8 on [ex_ab], which is full: "c" evicts "a", which has not expired. *)
Lemma Set_on_full_cache_evicts_oldest_witness :
  ∃ c', Set_ 2 2 "c" (Some "C") ex_ab = Some c' ∧ Keys c' = Some (["b"] ++ ["c"])%list ∧
        entry c' "a" = None ∧
        entry c' "c" = Some (mkItem (Time_Add 2 (ttl ex_ab)) "c" (Some "C")) ∧
        (∀ x, x ≠ "c" → x ≠ "a" → entry c' x = entry ex_ab x) ∧
        Len c' = maxKeys c' ∧
        Evicted (Stat c') = GoInt.incr (Evicted (Stat ex_ab)).
Proof.
  apply (Set_on_full_cache_evicts_oldest 1 2 2 "c" (Some "C") ex_ab "a" ["b"]);
    [apply ex_ab_reachable|by vm_compute..].
Defined.

(** X9 on [ex_a], which has room: at instant 20 "a" (expiry 10) has
    expired and goes. *)
Lemma Set_under_cap_trims_oldest_iff_expired_witness :
  ∃ c', Set_ 20 20 "b" (Some "B") ex_a = Some c' ∧
        Keys c' = Some (if Time_After 20 (expiresAt ex_item_a)
                        then ([] ++ ["b"])%list else ("a" :: [] ++ ["b"])%list) ∧
        Evicted (Stat c') =
          (if Time_After 20 (expiresAt ex_item_a)
           then GoInt.incr (Evicted (Stat ex_a)) else Evicted (Stat ex_a)).
Proof.
  apply (Set_under_cap_trims_oldest_iff_expired 0 20 20 "b" (Some "B") ex_a "a" []
           ex_item_a);
    [apply ex_a_reachable|by vm_compute|by vm_compute|right; by vm_compute
    |by vm_compute|by vm_compute].
Defined.

(** X10 on the cache made without options. *)
Lemma Set_on_unlimited_cache_never_evicts_witness :
  ∃ ks c', Keys ex_unlimited = Some ks ∧
           Set_ 0 0 "a" (Some "A") ex_unlimited = Some c' ∧
           Keys c' = Some (filter (λ x, x ≠ "a") ks ++ ["a"])%list ∧
           entry c' "a" = Some (mkItem (Time_Add 0 (ttl ex_unlimited)) "a" (Some "A")) ∧
           (∀ x, x ≠ "a" → entry c' x = entry ex_unlimited x) ∧
           Evicted (Stat c') = Evicted (Stat ex_unlimited) ∧
           notified c' = notified ex_unlimited.
Proof.
  apply (Set_on_unlimited_cache_never_evicts 0 0 0 "a" (Some "A") ex_unlimited);
    [apply ex_unlimited_reachable|by vm_compute|by vm_compute].
Defined.

(** X11 on [ex_ab]: "c" is written at instant 2 and read at instant 5. *)
Lemma Set_then_read_round_trip_witness :
  ∃ c', Set_ 2 2 "c" (Some "C") ex_ab = Some c' ∧
        (5 <= Time_Add 2 (ttl ex_ab) →
           Peek 5 "c" c' = Some (Some "C", true) ∧
           ∃ c'', Get 5 "c" c' = Some (Some "C", true, c'')) ∧
        (Time_Add 2 (ttl ex_ab) < 5 →
           Peek 5 "c" c' = Some (None, false) ∧
           ∃ c'', Get 5 "c" c' = Some (None, false, c'')).
Proof.
  apply (Set_then_read_round_trip 1 2 2 5 "c" (Some "C") ex_ab);
    [apply ex_ab_reachable|lia|lia|by vm_compute].
Defined.

(** X12 on the LRU cache: [Get("a")] at instant 5. *)
Lemma Get_changes_recency_and_counters_only_witness :
  ∃ v c', Get 5 "a" ex_lru_ab = Some (v, live_key 5 ex_lru_ab "a", c') ∧
          items c' = items ex_lru_ab ∧ heap c' = heap ex_lru_ab ∧
          evictList c' ≡ₚ evictList ex_lru_ab ∧
          notified c' = notified ex_lru_ab ∧ same_config ex_lru_ab c' ∧
          Added (Stat c') = Added (Stat ex_lru_ab) ∧
          Evicted (Stat c') = Evicted (Stat ex_lru_ab) ∧
          if live_key 5 ex_lru_ab "a"
          then value <$> entry ex_lru_ab "a" = Some v ∧
               Hits (Stat c') = GoInt.incr (Hits (Stat ex_lru_ab)) ∧
               Misses (Stat c') = Misses (Stat ex_lru_ab)
          else v = None ∧
               Misses (Stat c') = GoInt.incr (Misses (Stat ex_lru_ab)) ∧
               Hits (Stat c') = Hits (Stat ex_lru_ab).
Proof.
  apply (Get_changes_recency_and_counters_only 1 5 "a" ex_lru_ab), ex_lru_ab_reachable.
Defined.

(** X13 on [ex_ab] at instant 11: "a" (expiry 10) has expired, "b"
    (expiry 11) has not. *)
Lemma DeleteExpired_removes_exactly_the_expired_witness :
  ∃ ks c', Keys ex_ab = Some ks ∧ DeleteExpired (λ _, 11) ex_ab = Some c' ∧
           Keys c' = Some (filter (λ k, live_key 11 ex_ab k = true) ks) ∧
           (∀ k, entry c' k = if live_key 11 ex_ab k then entry ex_ab k else None) ∧
           Hits (Stat c') = Hits (Stat ex_ab) ∧ Misses (Stat c') = Misses (Stat ex_ab) ∧
           Added (Stat c') = Added (Stat ex_ab).
Proof.
  apply (DeleteExpired_removes_exactly_the_expired 1 11 ex_ab), ex_ab_reachable.
Defined.

(** X14 on [ex_ab], made with a callback. *)
Lemma callback_called_once_per_eviction_witness :
  if onEvicted ex_ab
  then Evicted (Stat ex_ab) = GoInt.len (length (notified ex_ab))
  else notified ex_ab = [].
Proof. apply (callback_called_once_per_eviction 1 ex_ab), ex_ab_reachable. Defined.

(** X15 on [ex_ab]. *)
Lemma operations_never_panic_witness :
  (∀ now now' k v, is_Some (Set_ now now' k v ex_ab)) ∧
  (∀ now k, is_Some (Get now k ex_ab)) ∧
  (∀ now k, is_Some (Peek now k ex_ab)) ∧
  is_Some (Keys ex_ab) ∧
  (∀ k, is_Some (Invalidate k ex_ab)) ∧
  (∀ order fn, is_Some (InvalidateFn_in order fn ex_ab)) ∧
  is_Some (RemoveOldest ex_ab) ∧
  (∀ tick, is_Some (DeleteExpired tick ex_ab)) ∧
  (∀ order, range_order ex_ab order → is_Some (Purge_in order ex_ab)).
Proof. apply (operations_never_panic 1 ex_ab), ex_ab_reachable. Defined.

(** X16 on [ex_ab]. *)
Lemma Purge_empties_the_cache_witness :
  ∃ c', Purge_in (default_order ex_ab) ex_ab = Some c' ∧
        Keys c' = Some [] ∧ Len c' = 0 ∧
        (∀ now k, Peek now k c' = Some (None, false)) ∧
        Evicted (Stat c') = GoInt.add (Evicted (Stat ex_ab)) (Len ex_ab) ∧
        Hits (Stat c') = Hits (Stat ex_ab) ∧ Misses (Stat c') = Misses (Stat ex_ab) ∧
        Added (Stat c') = Added (Stat ex_ab) ∧
        ∀ order', range_order c' order' → Purge_in order' c' = Some c'.
Proof.
  apply (Purge_empties_the_cache 1 (default_order ex_ab) ex_ab);
    [apply ex_ab_reachable|apply ex_ab_default_order].
Defined.

(** X17 on [ex_ab], whose latest clock reading is 1 and whose TTL is 10. *)
Lemma no_entry_outlives_the_TTL_witness :
  (∀ k it, entry ex_ab k = Some it → expiresAt it <= 1 + ttl ex_ab) ∧
  ∀ now k, 1 + ttl ex_ab < now →
    Peek now k ex_ab = Some (None, false) ∧
    ∃ c', Get now k ex_ab = Some (None, false, c').
Proof. apply (no_entry_outlives_the_TTL 1 ex_ab), ex_ab_reachable. Defined.

(** X18 on the package's test of a bad option, between two good ones. *)
Lemma NewLoadingCache_reports_first_failing_option_witness :
  NewLoadingCache ([TTL 10] ++ ex_bad_option :: [LRU])%list =
  inl ("failed to set cache option: " ++ "mock err").
Proof.
  apply (NewLoadingCache_reports_first_failing_option [TTL 10] ex_bad_option [LRU]
           "mock err"); [|done].
  intros o ->%list_elem_of_singleton lc. by eexists.
Defined.

(** X19 on [ex_ab]: a third key at instant 2. *)
Lemma Set_counts_new_keys_only_witness :
  ∃ c', Set_ 2 2 "c" (Some "C") ex_ab = Some c' ∧
        Hits (Stat c') = Hits (Stat ex_ab) ∧ Misses (Stat c') = Misses (Stat ex_ab) ∧
        Added (Stat c') =
          if bool_decide (is_Some (items ex_ab !! "c")) then Added (Stat ex_ab)
          else GoInt.incr (Added (Stat ex_ab)).
Proof. apply (Set_counts_new_keys_only 1 2 2 "c" (Some "C") ex_ab), ex_ab_reachable. Defined.

(** X20 on [ex_ab], whose oldest key is "a". *)
Lemma RemoveOldest_is_Invalidate_of_first_key_witness :
  RemoveOldest ex_ab = Invalidate "a" ex_ab ∧ is_Some (RemoveOldest ex_ab).
Proof.
  apply (RemoveOldest_is_Invalidate_of_first_key 1 ex_ab "a" ["b"]);
    [apply ex_ab_reachable|by vm_compute].
Defined.

(** X22 on [ex_ab], which is full. *)
Lemma Len_never_exceeds_MaxKeys_witness :
  Len ex_ab <= maxKeys ex_ab ∧
  (maxKeys ex_ab < GoInt.max_int →
   ∃ ks, Keys ex_ab = Some ks ∧ Z.of_nat (length ks) <= maxKeys ex_ab).
Proof.
  apply (Len_never_exceeds_MaxKeys 1 ex_ab); [apply ex_ab_reachable|by vm_compute].
Defined.

(** X23 on [ex_ab] at instant 11: "a" is reported, "b" is not. *)
Lemma DeleteExpired_reports_the_expired_witness :
  ∃ ks c', Keys ex_ab = Some ks ∧ DeleteExpired (λ _, 11) ex_ab = Some c' ∧
           notified c' =
             (notified ex_ab ++
              if onEvicted ex_ab then omap (expired_report 11 ex_ab) ks else [])%list ∧
           Evicted (Stat c') =
             GoInt.add (Evicted (Stat ex_ab))
                       (GoInt.len (length (omap (expired_report 11 ex_ab) ks))).
Proof. apply (DeleteExpired_reports_the_expired 1 11 ex_ab), ex_ab_reachable. Defined.

(** X24 on [ex_ab], in LRC mode: "a" is listed before "b". *)
Lemma LRC_Keys_sorted_by_expiry_witness : expiresAt ex_item_a <= expiresAt ex_item_b.
Proof.
  apply (LRC_Keys_sorted_by_expiry 1 ex_ab ["a"] ["b"] "a" "b" ex_item_a ex_item_b);
    [apply ex_ab_reachable|by vm_compute|by vm_compute
    |apply list_elem_of_here|apply list_elem_of_here|by vm_compute|by vm_compute].
Defined.

(** X21 on [Options().TTL(5).MaxKeys(3).TTL(7).LRU()], made on the second
    of two objects. *)
Lemma options_chain_last_call_wins_witness :
  ∃ r', V2Options.chain V2Options.ex_chain 1%nat V2Options.ex_store =
          Some (1%nat, <[1%nat := r']> V2Options.ex_store) ∧
        V2Options.ttl r' = Some 7 ∧ V2Options.maxKeys r' = Some 3 ∧
        V2Options.lru r' = Some true ∧ V2Options.onEvicted r' = None.
Proof.
  apply (options_chain_last_call_wins V2Options.ex_chain 1%nat V2Options.ex_store
           (V2Options.mkOptions None None None None)).
  reflexivity.
Defined.

Close Scope string_scope.
